(** * DChat contact registry (src/contact.c): a shallow embedding

    The file follows [contact.c]: the wire codec ([contact_to_string],
    [string_to_contact]), the contact store ([realloc_contactlist],
    [add_contact], [del_contact], [find_contact]), the duplicate resolver
    ([check_duplicates]) and the receiving half of the discovery protocol
    ([receive_contacts]).

    Conventions.
    - A C string is the sequence of its characters before the terminating
      NUL, a Rocq [string].
    - [int] values are integers of [Z]; counters and indices of the store
      stay far from [INT_MAX], the one place where the width of a C type
      decides the result (the cast of [strtol]'s [long] to [int]) is written
      out with its wrap-around.
    - [malloc] is taken to return a block: on [NULL] the code calls
      [ui_fatal], which ends the process.
    - Reading through a null pointer or outside an array has no defined
      result in C; the embedding returns [Fault] there.
    - [ui_log] only prints and is left out. *)

From Stdlib Require Import ZArith Lia Bool String Ascii.
From stdpp Require Import base list.

Local Open Scope Z_scope.

Infix "+:+" := String.append (at level 60, right associativity).

(** ** Results of C functions *)

Inductive result (A : Type) : Type :=
| Ret (a : A)
| Fault.
Arguments Ret {A} a.
Arguments Fault {A}.

#[global] Instance result_ret : MRet result := fun A a => Ret a.
#[global] Instance result_bind : MBind result := fun A B f m =>
  match m with
  | Ret a => f a
  | Fault => Fault
  end.

(** ** The part of libc that contact.c calls *)

Definition LF : ascii := "010"%char.
Definition SP : ascii := " "%char.
Definition nl : string := String LF "".

(** [strcmp]: only the sign is specified by C; bytes compare as
    [unsigned char]. *)
Definition strcmp (a b : string) : Z :=
  match String.compare a b with
  | Lt => -1
  | Eq => 0
  | Gt => 1
  end.

Fixpoint in_set (c : ascii) (set : string) : bool :=
  match set with
  | EmptyString => false
  | String d set' => Ascii.eqb c d || in_set c set'
  end.

(** [s + strspn(s, delim)] *)
Fixpoint skip_set (delim s : string) : string :=
  match s with
  | EmptyString => EmptyString
  | String c s' => if in_set c delim then skip_set delim s' else s
  end.

(** The token that starts at [s], and the text after the delimiter that
    ends it (the end of [s] when the NUL ends it). *)
Fixpoint token_end (delim s : string) : string * string :=
  match s with
  | EmptyString => (EmptyString, EmptyString)
  | String c s' =>
      if in_set c delim then (EmptyString, s')
      else let (t, r) := token_end delim s' in (String c t, r)
  end.

(** [strtok_r(str, delim, &save_ptr)]: the token ([None] for [NULL]) and the
    new [save_ptr].  A later call with [str == NULL] is a call on the saved
    pointer. *)
Definition strtok_r (str delim : string) : option string * string :=
  match skip_set delim str with
  | EmptyString => (None, EmptyString)
  | s => let (t, r) := token_end delim s in (Some t, r)
  end.

Definition isspace (c : ascii) : bool :=
  let n := N_of_ascii c in ((9 <=? n) && (n <=? 13) || (n =? 32))%N.

Definition isdigit (c : ascii) : bool :=
  let n := N_of_ascii c in ((48 <=? n) && (n <=? 57))%N.

Fixpoint skip_space (s : string) : string :=
  match s with
  | EmptyString => EmptyString
  | String c s' => if isspace c then skip_space s' else s
  end.

Definition digit_value (c : ascii) : Z := Z.of_N (N_of_ascii c) - 48.

(** The decimal digits at the head of [s], accumulated onto [acc], and the
    first character that is not a digit. *)
Fixpoint scan_digits (acc : Z) (s : string) : Z * string :=
  match s with
  | EmptyString => (acc, EmptyString)
  | String c s' =>
      if isdigit c then scan_digits (acc * 10 + digit_value c) s' else (acc, s)
  end.

(** [long] has 64 bits (LP64, the data model of 64-bit GNU/Linux). *)
Definition LONG_MAX : Z := 2 ^ 63 - 1.
Definition LONG_MIN : Z := - 2 ^ 63.

(** [strtol(nptr, &endptr, 10)]: the value and [endptr].  White space and
    one sign are skipped; without a digit nothing is converted and
    [endptr] is [nptr]; a value outside [long] is clamped. *)
Definition strtol (nptr : string) : Z * string :=
  let s := skip_space nptr in
  let '(neg, s1) :=
    match s with
    | String c s' =>
        if Ascii.eqb c "-" then (true, s')
        else if Ascii.eqb c "+" then (false, s')
        else (false, s)
    | EmptyString => (false, s)
    end in
  match s1 with
  | String c _ =>
      if isdigit c then
        let (v, rest) := scan_digits 0 s1 in
        (if neg : bool then Z.max LONG_MIN (- v) else Z.min LONG_MAX v, rest)
      else (0, nptr)
  | EmptyString => (0, nptr)
  end.

Fixpoint digits_only (s : string) : bool :=
  match s with
  | EmptyString => true
  | String c s' => isdigit c && digits_only s'
  end.

(** The cast [(int) l] of a [long]: the low 32 bits, two's complement. *)
Definition int_of_long (l : Z) : Z := (l + 2 ^ 31) mod 2 ^ 32 - 2 ^ 31.

Definition digit_char (d : Z) : ascii := ascii_of_N (Z.to_N (48 + d)).

(** The decimal digits of [v] in front of [acc]; [fuel] bounds their
    number. *)
Fixpoint utoa (fuel : nat) (v : Z) (acc : string) : string :=
  match fuel with
  | O => acc
  | S fuel' =>
      let acc' := String (digit_char (v mod 10)) acc in
      if v / 10 =? 0 then acc' else utoa fuel' (v / 10) acc'
  end.

(** At most [n] leading characters of [s] (the bound of [strncat] and of
    [snprintf]). *)
Fixpoint strn (n : nat) (s : string) : string :=
  match n, s with
  | S n', String c s' => String c (strn n' s')
  | _, _ => EmptyString
  end.

(** [snprintf(buf, size, "%u", v)]: the argument is read as a 32-bit
    [unsigned], which has at most ten digits; at most [size - 1] characters
    are stored. *)
Definition snprintf_u (size : Z) (v : Z) : string :=
  strn (Z.to_nat (size - 1)) (utoa 10 (v mod 2 ^ 32) "").

(** ** Data model (dchat_h/types.h is not part of the sources; the fields
    are those contact.c uses) *)

Record contact_t : Type := mk_contact {
  fd : Z;
  name : string;
  onion_id : string;
  lport : Z;
  accepted : bool
}.

(** A slot after [memset(.., 0, sizeof(contact_t))]. *)
Definition zero_contact : contact_t := mk_contact 0 "" "" 0 false.

Record contactlist_t : Type := mk_contactlist {
  contact : list contact_t;
  cl_size : Z;
  used_contacts : Z
}.

Record dchat_conf_t : Type := mk_conf {
  me : contact_t;
  cl : contactlist_t
}.

(** The process: the global configuration [_cnf] and the descriptors handed
    to [close], latest first. *)
Record world : Type := mk_world {
  _cnf : dchat_conf_t;
  closed : list Z
}.

Record dchat_pdu_t : Type := mk_pdu {
  content : string;
  content_length : Z
}.

(** What the headers and the other translation units provide. *)
Class Platform : Type := {
  is_valid_onion : string -> bool;
  ONION_ADDRLEN : nat;
  MAX_INT_STR : Z;
  INIT_CONTACTS : Z;
  handle_local_conn_request : string -> Z -> world -> Z * world
}.

(** Modelled from the spec: [is_valid_port] (util.c is not part of the
    sources).  Section 3: [listening_port] is an integer 1..65535. *)
Definition is_valid_port (port : Z) : bool := (1 <=? port) && (port <=? 65535).

(** The position of the first [term] in [s]. *)
Fixpoint find_term (term : ascii) (s : string) : option nat :=
  match s with
  | EmptyString => None
  | String c s' =>
      if Ascii.eqb c term then Some O else S <$> find_term term s'
  end.

(** [s + n], bounded by the end of [s]. *)
Fixpoint str_drop (n : nat) (s : string) : string :=
  match n, s with
  | S n', String _ s' => str_drop n' s'
  | _, _ => s
  end.

(** Modelled from the spec: [get_content_part] (decoder.c is not part of the
    sources), the [extract_line] of section 6: delimiter-based splitting of
    the content from [offset]; the result is the index of the terminator that
    ends the part, which [receive_contacts] steps over to reach the next line,
    together with the part, terminator included; [-1] when [offset] is outside
    the content or no terminator follows. *)
Definition get_content_part (pdu : dchat_pdu_t) (offset : Z) (term : ascii)
  : Z * string :=
  if (offset <? 0) || (content_length pdu <=? offset) then (-1, EmptyString)
  else
    let body := strn (Z.to_nat (content_length pdu)) (content pdu) in
    let tail := str_drop (Z.to_nat offset) body in
    match find_term term tail with
    | None => (-1, EmptyString)
    | Some k => (offset + Z.of_nat k, strn (S k) tail)
    end.

Section Contact.
Context {P : Platform}.

(** ** Wire codec *)

Definition contact_to_string (ct : contact_t) : option string :=
  if negb (is_valid_onion (onion_id ct)) then None
  else if negb (is_valid_port (lport ct)) then None
  else
    let port_str := strn 5 (snprintf_u MAX_INT_STR (lport ct)) in
    Some (onion_id ct +:+ String SP "" +:+ port_str +:+ nl).

Definition string_to_contact (ct : contact_t) (str : string)
  : Z * contact_t :=
  match strtok_r str (String SP "") with
  | (None, _) => (-1, ct)
  | (Some onion, save_ptr) =>
      match strtok_r save_ptr nl with
      | (None, _) => (-1, ct)
      | (Some port, _) =>
          if negb (is_valid_onion onion) then (-1, ct)
          else
            let (l, ptr) := strtol port in
            let lp := int_of_long l in
            if negb (String.eqb ptr "") || negb (is_valid_port lp)
            then (-1, ct)
            else (0, mk_contact (fd ct) (name ct) (strn ONION_ADDRLEN onion)
                                lp (accepted ct))
      end
  end.

(** ** Contact store *)

(** [a[i]] and [a[i] = c] on a block of [length a] slots. *)
Definition array_get (a : list contact_t) (i : Z) : result contact_t :=
  if i <? 0 then Fault
  else match a !! Z.to_nat i with
       | Some c => Ret c
       | None => Fault
       end.

Definition array_set (a : list contact_t) (i : Z) (c : contact_t)
  : result (list contact_t) :=
  if (i <? 0) || (Z.of_nat (length a) <=? i) then Fault
  else Ret (<[Z.to_nat i := c]> a).

Definition set_cl (w : world) (l : contactlist_t) : world :=
  mk_world (mk_conf (me (_cnf w)) l) (closed w).

Definition set_fd (c : contact_t) (fd' : Z) : contact_t :=
  mk_contact fd' (name c) (onion_id c) (lport c) (accepted c).

(** The copy loop of [realloc_contactlist]: [n] slots of [old] remain from
    index [i], the write cursor is [j]. *)
Fixpoint copy_contacts (n : nat) (i j : Z) (old new : list contact_t)
  : result (list contact_t) :=
  match n with
  | O => Ret new
  | S n' =>
      c ← array_get old i;
      if fd c =? 0 then copy_contacts n' (i + 1) j old new
      else new' ← array_set new j c; copy_contacts n' (i + 1) (j + 1) old new'
  end.

Definition realloc_contactlist (w : world) (newsize : Z) : result (Z * world) :=
  let l := cl (_cnf w) in
  if (newsize <? 1) || (newsize <? used_contacts l) then Ret (-1, w)
  else
    let new_contact_list := replicate (Z.to_nat newsize) zero_contact in
    new' ← copy_contacts (Z.to_nat (cl_size l)) 0 0 (contact l) new_contact_list;
    Ret (0, set_cl w (mk_contactlist new' newsize (used_contacts l))).

(** The search loop of [add_contact]: [n] slots remain from index [i]; the
    result is the value of [i] when the loop ends. *)
Fixpoint add_scan (n : nat) (i : Z) (fd' : Z) (l : contactlist_t)
  : result (Z * contactlist_t) :=
  match n with
  | O => Ret (i, l)
  | S n' =>
      c ← array_get (contact l) i;
      if fd c =? 0 then
        a ← array_set (contact l) i (set_fd c fd');
        Ret (i, mk_contactlist a (cl_size l) (used_contacts l + 1))
      else add_scan n' (i + 1) fd' l
  end.

Definition add_contact (w : world) (fd' : Z) : result (Z * world) :=
  let l := cl (_cnf w) in
  '(r, w1) ← (if used_contacts l =? cl_size l
              then realloc_contactlist w (cl_size l + INIT_CONTACTS)
              else Ret (0, w));
  if r <? 0 then Ret (-1, w1)
  else
    let l1 := cl (_cnf w1) in
    '(i, l2) ← add_scan (Z.to_nat (cl_size l1)) 0 fd' l1;
    Ret (i, set_cl w1 l2).

Definition del_contact (w : world) (n : Z) : result (Z * world) :=
  let l := cl (_cnf w) in
  if (n <? 0) || (cl_size l <=? n) then Ret (-1, w)
  else
    c ← array_get (contact l) n;
    if fd c =? 0 then Ret (0, w)
    else
      a ← array_set (contact l) n zero_contact;
      let l1 := mk_contactlist a (cl_size l) (used_contacts l - 1) in
      let w1 := mk_world (mk_conf (me (_cnf w)) l1) (fd c :: closed w) in
      if (used_contacts l1 =? cl_size l1 - INIT_CONTACTS)
         && negb (used_contacts l1 =? 0)
      then
        '(r, w2) ← realloc_contactlist w1 (cl_size l1 - INIT_CONTACTS);
        if r <? 0 then Ret (-1, w2) else Ret (0, w2)
      else Ret (0, w1).

(** The test in the body of [find_contact]'s loop: [c] is skipped when its
    port is 0, otherwise the two wire forms go to [strcmp], which reads
    through both pointers. *)
Definition same_contact (ct c : contact_t) : result bool :=
  if lport c =? 0 then Ret false
  else match contact_to_string ct, contact_to_string c with
       | Some a, Some b => Ret (strcmp a b =? 0)
       | _, _ => Fault
       end.

(** The passes of the loop over the store: [n] slots remain from [i]. *)
Fixpoint find_scan (n : nat) (i : Z) (cnf : dchat_conf_t) (ct : contact_t)
  : result Z :=
  match n with
  | O => Ret (-2)
  | S n' =>
      c ← array_get (contact (cl cnf)) i;
      hit ← same_contact ct c;
      if hit : bool then Ret i else find_scan n' (i + 1) cnf ct
  end.

(** The first pass of the loop runs with [i == -1]: it takes [c = &_cnf->me]
    and sets [i = begin - 1], so that [i++] leads to [begin]. *)
Definition find_contact (cnf : dchat_conf_t) (ct : contact_t) (begin : Z)
  : result Z :=
  if (begin <? 0) || (cl_size (cl cnf) <=? begin) then Ret (-2)
  else
    let i := begin - 1 in
    hit ← same_contact ct (me cnf);
    if hit : bool then Ret i
    else find_scan (Z.to_nat (cl_size (cl cnf) - (i + 1))) (i + 1) cnf ct.

(** ** Duplicate resolver *)

Definition check_duplicates (cnf : dchat_conf_t) (n : Z) : result Z :=
  cn ← array_get (contact (cl cnf)) n;
  fst_oc ← find_contact cnf cn 0;
  if fst_oc =? -1 then Ret n
  else if fst_oc =? -2 then Ret (-1)
  else
    sec_oc ← find_contact cnf cn (fst_oc + 1);
    if sec_oc =? -2 then Ret (-1)
    else
      temp ← array_get (contact (cl cnf)) fst_oc;
      let '(accept_contact, connect_contact) :=
        if accepted temp then (fst_oc, sec_oc) else (sec_oc, fst_oc) in
      let ret := strcmp (onion_id (me cnf)) (onion_id cn) in
      if 0 <? ret then Ret connect_contact
      else if ret <? 0 then Ret accept_contact
      else if lport cn <? lport (me cnf) then Ret connect_contact
      else if lport (me cnf) <? lport cn then Ret accept_contact
      else Ret accept_contact.

(** ** Discovery protocol: receiving *)

(** The [while] loop of [receive_contacts].  [fuel] bounds the number of
    passes; [None] means the loop is still running when it is used up.  The
    local [contact] keeps its value from one pass to the next. *)
Fixpoint receive_loop (fuel : nat) (pdu : dchat_pdu_t) (w : world)
    (ct : contact_t) (ret new_contacts known_contacts line_end : Z)
  : option (result (Z * world)) :=
  match fuel with
  | O => None
  | S fuel' =>
      if line_end <? content_length pdu then
        let line_begin := line_end in
        let (line_end, line) := get_content_part pdu line_begin LF in
        if line_end =? -1 then Some (Ret (-1, w))
        else
          let (r, ct) := string_to_contact ct line in
          if r =? -1 then
            receive_loop fuel' pdu w ct (-1) new_contacts known_contacts
                         line_end
          else
            match find_contact (_cnf w) ct 0 with
            | Fault => Some Fault
            | Ret found =>
                if found =? -2 then
                  let (rc, w') :=
                    handle_local_conn_request (onion_id ct) (lport ct) w in
                  receive_loop fuel' pdu w' ct (if rc =? -1 then -1 else ret)
                               (new_contacts + 1) known_contacts (line_end + 1)
                else
                  receive_loop fuel' pdu w ct ret new_contacts
                               (known_contacts + 1) (line_end + 1)
            end
      else Some (Ret (if ret =? -1 then -1 else new_contacts, w))
  end.

(** The local [contact] is not initialised; only the two fields that
    [string_to_contact] writes are read. *)
Definition receive_contacts (fuel : nat) (w : world) (pdu : dchat_pdu_t)
  : option (result (Z * world)) :=
  receive_loop fuel pdu w zero_contact 0 0 0 0.

End Contact.

(** ** Vocabulary of the statements *)

(** [v] in decimal, as ["%u"] prints it. *)
Definition decimal (v : Z) : string := utoa 10 v "".

Section Vocabulary.
Context {P : Platform}.

(** What the wire format needs from the address predicate (section 6 of the
    specification: no embedded space, a fixed bound on the length). *)
Definition onion_wire_safe : Prop :=
  forall s, is_valid_onion s = true ->
    s <> EmptyString /\ in_set SP s = false /\
    (String.length s <= ONION_ADDRLEN)%nat.

Definition valid_contact (c : contact_t) : Prop :=
  is_valid_onion (onion_id c) = true /\ 1 <= lport c <= 65535.

(** Identity of contacts: same address and same port. *)
Definition id_eqb (a b : contact_t) : bool :=
  String.eqb (onion_id a) (onion_id b) && (lport a =? lport b).

(** [c] is confirmed and has the identity of [ct]. *)
Definition matches (ct c : contact_t) : bool :=
  negb (lport c =? 0) && id_eqb ct c.

(** The block has [cl_size] slots, and the confirmed contacts, this process
    included, carry a valid address and port (section 3). *)
Definition store_ok (cnf : dchat_conf_t) : Prop :=
  cl_size (cl cnf) = Z.of_nat (length (contact (cl cnf))) /\
  (forall (k : nat) c, contact (cl cnf) !! k = Some c -> lport c <> 0 ->
     valid_contact c) /\
  (lport (me cnf) <> 0 -> valid_contact (me cnf)).

Definition slot (cnf : dchat_conf_t) (i : Z) (c : contact_t) : Prop :=
  array_get (contact (cl cnf)) i = Ret c.

(** The contact [cn] of slot [n] occurs at exactly two confirmed slots,
    [connect_side] (not accepted) and [accept_side] (accepted). *)
Definition duplicate_pair (cnf : dchat_conf_t) (n : Z) (cn : contact_t)
    (connect_side accept_side : Z) : Prop :=
  slot cnf n cn /\
  (exists cc ca,
     slot cnf connect_side cc /\ slot cnf accept_side ca /\
     accepted cc = false /\ accepted ca = true /\
     matches cn cc = true /\ matches cn ca = true) /\
  (forall k c, slot cnf k c -> matches cn c = true ->
     k = connect_side \/ k = accept_side).

(** Step 5 of the resolver as the specification words it. *)
Definition spec_eviction (self remote : contact_t)
    (connect_side accept_side : Z) : Z :=
  let r := strcmp (onion_id self) (onion_id remote) in
  if 0 <? r then connect_side
  else if r <? 0 then accept_side
  else if lport remote <? lport self then connect_side
  else if lport self <? lport remote then accept_side
  else accept_side.

(** The specification's rule: in every store that holds such a pair the
    resolver returns what step 5 says. *)
Definition tie_break_as_specified (cnf : dchat_conf_t) (n : Z) : Prop :=
  forall cn connect_side accept_side,
    duplicate_pair cnf n cn connect_side accept_side ->
    check_duplicates cnf n =
      Ret (spec_eviction (me cnf) cn connect_side accept_side).

(** Does step 5 evict the link this process dialled? *)
Definition evicts_connect_side (self remote : contact_t) : bool :=
  let r := strcmp (onion_id self) (onion_id remote) in
  (0 <? r) || ((r =? 0) && (lport remote <? lport self)).

(** The [accepted] flag of the entry that [check_duplicates] designates. *)
Definition evicted_side (cnf : dchat_conf_t) (n : Z) : result bool :=
  r ← check_duplicates cnf n;
  c ← array_get (contact (cl cnf)) r;
  Ret (accepted c).

(** The store of [cnf] is well formed and holds, at slot [n] among others,
    the two links to the peer [remote]. *)
Definition holds_pair (cnf : dchat_conf_t) (remote : contact_t) (n : Z)
  : Prop :=
  store_ok cnf /\
  exists cn connect_side accept_side,
    duplicate_pair cnf n cn connect_side accept_side /\
    id_eqb cn remote = true.

(** Two stores [cnfA], [cnfA'] of one peer (any layout of the pair) and the
    store [cnfB] of the other peer: the first two evict the same side, the
    third the complementary side, which is the same link seen from the other
    end (a link dialled by one peer is accepted by the other). *)
Definition eviction_agreement (cnfA cnfA' cnfB : dchat_conf_t)
    (nA nA' nB : Z) : Prop :=
  exists b, evicted_side cnfA nA = Ret b /\
            evicted_side cnfA' nA' = Ret b /\
            evicted_side cnfB nB = Ret (negb b).

Definition agreement_as_specified : Prop :=
  forall cnfA cnfA' cnfB nA nA' nB,
    id_eqb (me cnfA) (me cnfA') = true ->
    holds_pair cnfA (me cnfB) nA ->
    holds_pair cnfA' (me cnfB) nA' ->
    holds_pair cnfB (me cnfA) nB ->
    eviction_agreement cnfA cnfA' cnfB nA nA' nB.

End Vocabulary.

(** A platform to run the functions on: version 2 onion addresses (sixteen
    base32 characters and [.onion]), store increment 2, and a connection
    request that always succeeds and leaves the store alone. *)
Definition is_base32 (c : ascii) : bool :=
  let n := N_of_ascii c in
  ((97 <=? n) && (n <=? 122) || (50 <=? n) && (n <=? 55))%N.

Fixpoint all_base32 (s : string) : bool :=
  match s with
  | EmptyString => true
  | String c s' => is_base32 c && all_base32 s'
  end.

Definition onion_v2 (s : string) : bool :=
  (String.length s =? 22)%nat && all_base32 (strn 16 s)
  && String.eqb (str_drop 16 s) ".onion".

Definition demo_platform : Platform := {|
  is_valid_onion := onion_v2;
  ONION_ADDRLEN := 22;
  MAX_INT_STR := 10;
  INIT_CONTACTS := 2;
  handle_local_conn_request := fun _ _ w => (0, w)
|}.

(** *** The store *)

Definition occupied (c : contact_t) : Prop := fd c <> 0.

#[global] Instance occupied_dec (c : contact_t) : Decision (occupied c) :=
  not_dec (Z.eq_dec (fd c) 0).

(** The invariant of section 3: the block has [cl_size] slots, at least one,
    and [used_contacts] counts the occupied ones. *)
Definition store_inv (l : contactlist_t) : Prop :=
  cl_size l = Z.of_nat (length (contact l)) /\
  1 <= cl_size l /\
  used_contacts l = Z.of_nat (length (filter occupied (contact l))).

(** The store after [resize(n)]: the occupied slots in their order, then
    empty slots up to [n]. *)
Definition compacted (l : contactlist_t) (n : Z) : contactlist_t :=
  mk_contactlist
    (filter occupied (contact l)
       ++ replicate (Z.to_nat n - length (filter occupied (contact l)))
                    zero_contact)
    n (used_contacts l).

Definition empty_world (self : contact_t) (capacity : Z) : world :=
  mk_world
    (mk_conf self
       (mk_contactlist (replicate (Z.to_nat capacity) zero_contact) capacity 0))
    [].

(** The block after the slots [ns] have been zeroed in turn. *)
Definition clear_slots (ns : list Z) (a : list contact_t) : list contact_t :=
  fold_left (fun a' m => <[Z.to_nat m := zero_contact]> a') ns a.

Section Runs.
Context {P : Platform}.

(** [add] for each descriptor in turn; [remove] for each index in turn,
    whatever the calls return. *)
Fixpoint add_contacts (fds : list Z) (w : world) : result world :=
  match fds with
  | [] => Ret w
  | f :: fds' => '(_, w') ← add_contact w f; add_contacts fds' w'
  end.

Fixpoint del_contacts (ns : list Z) (w : world) : result world :=
  match ns with
  | [] => Ret w
  | n :: ns' => '(_, w') ← del_contact w n; del_contacts ns' w'
  end.

(** Removal as the specification words it: on an occupied slot the first
    call succeeds and takes one off [used], and a second call with the same
    index succeeds and changes nothing. *)
Definition removal_idempotent_as_specified (w : world) (n : Z) : Prop :=
  forall c, slot (_cnf w) n c -> occupied c ->
    0 <= n < cl_size (cl (_cnf w)) ->
    exists w1,
      del_contact w n = Ret (0, w1) /\
      used_contacts (cl (_cnf w1)) = used_contacts (cl (_cnf w)) - 1 /\
      del_contact w1 n = Ret (0, w1).

End Runs.

(** Two peers and their stores. *)
Definition alice : contact_t :=
  mk_contact 0 "alice" "aaaaaaaaaaaaaaaa.onion" 9001 false.
Definition bob : contact_t :=
  mk_contact 0 "bob" "bbbbbbbbbbbbbbbb.onion" 9002 false.

Definition link (peer : contact_t) (fd' : Z) (acc : bool) : contact_t :=
  mk_contact fd' (name peer) (onion_id peer) (lport peer) acc.

Definition store2 (self a b : contact_t) : dchat_conf_t :=
  mk_conf self (mk_contactlist [a; b] 2 2).

(** Alice holds both links to Bob, the dialled one first; the same with the
    accepted one first; Bob holds both links to Alice. *)
Definition alice_conf : dchat_conf_t :=
  store2 alice (link bob 3 false) (link bob 4 true).
Definition alice_conf' : dchat_conf_t :=
  store2 alice (link bob 4 true) (link bob 3 false).
Definition bob_conf : dchat_conf_t :=
  store2 bob (link alice 5 true) (link alice 6 false).

(** A store that holds two links to an address and port equal to its own. *)
Definition self_pair_conf : dchat_conf_t :=
  store2 alice (link alice 3 false) (link alice 4 true).

(** A store of capacity 4 with three contacts, as the demonstration platform
    (increment 2) has it after three [add]s. *)
Definition three_of_four : world :=
  mk_world
    (mk_conf alice
       (mk_contactlist
          [set_fd zero_contact 3; set_fd zero_contact 4; set_fd zero_contact 5;
           zero_contact] 4 3))
    [].

(** A full store of capacity 2. *)
Definition two_of_two : world :=
  mk_world
    (mk_conf alice
       (mk_contactlist [set_fd zero_contact 3; set_fd zero_contact 4] 2 2))
    [].

(** Discovery messages: one line without a separator; two good lines. *)
Definition bad_line_pdu : dchat_pdu_t := mk_pdu ("x" +:+ nl) 2.

Definition two_lines_pdu : dchat_pdu_t :=
  mk_pdu ("aaaaaaaaaaaaaaaa.onion 9001" +:+ nl
            +:+ "bbbbbbbbbbbbbbbb.onion 9002" +:+ nl) 56.

(** A line whose port token is 2^32 + 80. *)
Definition wrapped_port_line : string :=
  "aaaaaaaaaaaaaaaa.onion 4294967376" +:+ nl.

(** ** Further vocabulary *)

(** [k] spaces. *)
Fixpoint spaces (k : nat) : string :=
  match k with
  | O => EmptyString
  | S k' => String SP (spaces k')
  end.

(** An optional plus sign. *)
Definition plus_sign (plus : bool) : string :=
  if plus then String "+"%char EmptyString else EmptyString.

(** Alice's store with one link to Bob and one pending connection. *)
Definition bob_once_conf : dchat_conf_t :=
  store2 alice (link bob 3 false) (set_fd zero_contact 4).

(** Operations on the store, and their execution in turn. *)
Inductive store_op : Type :=
| Add (fd' : Z)
| Del (n : Z).

Definition op_ok (o : store_op) : Prop :=
  match o with
  | Add fd' => fd' <> 0
  | Del _ => True
  end.

(** Every empty slot is a zeroed slot. *)
Definition store_clean (l : contactlist_t) : Prop :=
  Forall (fun c => fd c = 0 -> c = zero_contact) (contact l).

Section StoreRuns.
Context {P : Platform}.

Fixpoint run_ops (ops : list store_op) (w : world) : result world :=
  match ops with
  | [] => Ret w
  | Add fd' :: ops' => '(_, w') ← add_contact w fd'; run_ops ops' w'
  | Del n :: ops' => '(_, w') ← del_contact w n; run_ops ops' w'
  end.

(** The store as [add] and [remove] keep it: the invariant, zeroed empty
    slots, a capacity that is a multiple of the increment and, unless it is
    the increment itself, exceeds the number of contacts by less than the
    increment. *)
Definition store_wf (l : contactlist_t) : Prop :=
  store_inv l /\ store_clean l /\
  (INIT_CONTACTS | cl_size l) /\
  (cl_size l = INIT_CONTACTS \/ cl_size l - INIT_CONTACTS < used_contacts l).

End StoreRuns.

(** ** Discovery protocol: sending *)

(** [init_dchat_pdu] and [write_pdu] belong to the PDU module, which is not
    part of the sources: the header that [init_dchat_pdu] fills from the
    identity of this process, and the transport write, are parameters. *)
Section Send.
Context {P : Platform}.
Variable header : Type.
Variable init_dchat_pdu : string -> Z -> string -> header.
Variable write_pdu : Z -> header -> dchat_pdu_t -> world -> Z * world.

(** The loop of [send_contacts] over the store: [k] slots remain from [i];
    [content] and [pdu_len] are the body built so far. *)
Fixpoint send_loop (k : nat) (i n : Z) (a : list contact_t)
    (content : string) (pdu_len : Z) : result (string * Z) :=
  match k with
  | O => Ret (content, pdu_len)
  | S k' =>
      if n =? i then send_loop k' (i + 1) n a content pdu_len
      else
        c ← array_get a i;
        if lport c =? 0 then send_loop k' (i + 1) n a content pdu_len
        else
          match contact_to_string c with
          | None => send_loop k' (i + 1) n a content pdu_len
          | Some contact_str =>
              send_loop k' (i + 1) n a (content +:+ contact_str)
                        (pdu_len + Z.of_nat (String.length contact_str))
          end
  end.

Definition send_contacts (w : world) (n : Z) : result (Z * world) :=
  let cnf := _cnf w in
  let hdr := init_dchat_pdu (onion_id (me cnf)) (lport (me cnf))
                            (name (me cnf)) in
  '(content, pdu_len) ←
    send_loop (Z.to_nat (cl_size (cl cnf))) 0 n (contact (cl cnf)) "" 0;
  dest ← array_get (contact (cl cnf)) n;
  Ret (write_pdu (fd dest) hdr (mk_pdu content pdu_len) w).

End Send.

(** *** Vocabulary for the discovery protocol *)

Definition wire_line (c : contact_t) : string :=
  onion_id c +:+ String SP (decimal (lport c) +:+ nl).

Fixpoint wire_lines (cs : list contact_t) : string :=
  match cs with
  | [] => EmptyString
  | c :: cs' => wire_line c +:+ wire_lines cs'
  end.

(** The confirmed contacts of the slots from index [i] on, the slot [n]
    left out. *)
Fixpoint others (i n : Z) (a : list contact_t) : list contact_t :=
  match a with
  | [] => []
  | c :: a' =>
      if (n =? i) || (lport c =? 0) then others (i + 1) n a'
      else c :: others (i + 1) n a'
  end.

Section DiscoveryVocabulary.
Context {P : Platform}.

(** The body that the loop of [send_contacts] builds, slot by slot. *)
Fixpoint discovery_body (i n : Z) (a : list contact_t) : string :=
  match a with
  | [] => EmptyString
  | c :: a' =>
      (if (n =? i) || (lport c =? 0) then EmptyString
       else match contact_to_string c with
            | Some s => s
            | None => EmptyString
            end) +:+ discovery_body (i + 1) n a'
  end.

(** A valid address holds no newline (section 6 of the specification). *)
Definition onion_no_newline : Prop :=
  forall s, is_valid_onion s = true -> in_set LF s = false.

(** What [string_to_contact] leaves in the local [contact] of
    [receive_contacts] after the line of [c]. *)
Definition decoded (ct c : contact_t) : contact_t :=
  mk_contact (fd ct) (name ct) (onion_id c) (lport c) (accepted ct).

(** [receive_contacts] over the decoded contacts of a message, one after
    the other. *)
Fixpoint receive_fold (cs : list contact_t) (w : world) (ct : contact_t)
    (ret new_contacts : Z) : result (Z * world) :=
  match cs with
  | [] => Ret (if ret =? -1 then -1 else new_contacts, w)
  | c :: cs' =>
      found ← find_contact (_cnf w) (decoded ct c) 0;
      if found =? -2 then
        let (rc, w') := handle_local_conn_request (onion_id c) (lport c) w in
        receive_fold cs' w' (decoded ct c) (if rc =? -1 then -1 else ret)
                     (new_contacts + 1)
      else receive_fold cs' w (decoded ct c) ret new_contacts
  end.

(** [c] is this process or a confirmed contact of the store. *)
Definition known (cnf : dchat_conf_t) (c : contact_t) : Prop :=
  matches c (me cnf) = true \/
  exists k c', slot cnf k c' /\ matches c c' = true.

End DiscoveryVocabulary.

(** A transport for the demonstrations: the header is the sender's address
    and port, and the write reports the content length as written. *)
Definition demo_init_pdu (onion : string) (port : Z) (nick : string)
  : string * Z := (onion, port).

Definition demo_write_pdu (fd' : Z) (hdr : string * Z) (pdu : dchat_pdu_t)
    (w : world) : Z * world := (content_length pdu, w).

Definition alice_world : world := mk_world alice_conf [].
Definition bob_world : world := mk_world bob_conf [].

(** * log.c *)

(** The constants of <syslog.h> that log.c uses. *)
Definition LOG_PRIMASK : Z := 7.
Definition LOG_DEBUG : Z := 7.
Definition LOG_DAEMON : Z := 24.

Definition LOG_PRI (p : Z) : Z := Z.land p LOG_PRIMASK.

Definition flty_ : list string :=
  ["emerg"; "alert"; "crit"; "err"; "warning"; "notice"; "info"; "debug"]%string.

(** The logging state: the static [log_] (is the [FILE] pointer set?) and
    [level_], the text written so far to the stream [log_] points to, and
    the calls of [syslog] made so far (priority and message). *)
Record log_world : Type := mk_log {
  log_ : bool;
  level_ : Z;
  stream : string;
  syslog_calls : list (Z * string)
}.

(** The state after the constructor [init_log0] has run: [log_ = stderr],
    [level_ = LOG_DEBUG]. *)
Definition log_start : log_world := mk_log true LOG_DEBUG "" [].

(** ["%7s"]: right-justified in seven columns. *)
Definition pad7 (s : string) : string :=
  spaces (7 - String.length s) +:+ s.

(** [vlog_msgf(out, lf, fmt, ap)]; [msg] is the text that [fmt] and [ap]
    format to, [out] tells whether the [FILE] pointer is set.  Without a
    stream the message goes through a buffer of 1024 bytes to [syslog]. *)
Definition vlog_msgf (out : bool) (lf : Z) (msg : string) (st : log_world)
  : log_world :=
  let level := LOG_PRI lf in
  if level_ st <? level then st
  else if out then
    mk_log (log_ st) (level_ st)
      (stream st +:+ "[" +:+ pad7 (nth (Z.to_nat level) flty_ EmptyString)
         +:+ "] " +:+ msg +:+ nl)
      (syslog_calls st)
  else
    mk_log (log_ st) (level_ st) (stream st)
      (syslog_calls st ++ [(Z.lor level LOG_DAEMON, strn 1023 msg)]).

Definition log_msg (lf : Z) (msg : string) (st : log_world) : log_world :=
  vlog_msgf (log_ st) lf msg st.

(** [log_errno(lf, str)]; [err] is the text of [strerror(errno)]. *)
Definition log_errno (lf : Z) (str err : string) (st : log_world) : log_world :=
  log_msg lf (str +:+ ": '" +:+ err +:+ "'") st.

Definition hex : string := "0123456789abcdef".

Definition hex_char (n : Z) : ascii :=
  match String.get (Z.to_nat n) hex with
  | Some c => c
  | None => "000"%char
  end.

(** [buf[i]] for a buffer of [length buf] bytes. *)
Definition byte_get (buf : list Z) (i : Z) : result Z :=
  if i <? 0 then Fault
  else match buf !! Z.to_nat i with
       | Some c => Ret c
       | None => Fault
       end.

(** What [snprintf(.., "%c%c ", hex[(c >> 4) & 15], hex[c & 15])] stores. *)
Definition hex3 (c : Z) : string :=
  String (hex_char (Z.land (Z.shiftr c 4) 15))
    (String (hex_char (Z.land c 15)) (String SP EmptyString)).

(** The loop of [log_hex]: [k] bytes remain from index [i]; [tbuf] is the
    row buffer, written at offset [(i & 0xf) * 3]. *)
Fixpoint log_hex_loop (k : nat) (i lf : Z) (buf : list Z) (tbuf : string)
    (st : log_world) : result (Z * string * log_world) :=
  match k with
  | O => Ret (i, tbuf, st)
  | S k' =>
      c ← byte_get buf i;
      let tbuf' := strn (Z.to_nat (Z.land i 15 * 3)) tbuf +:+ hex3 c in
      let st' := if Z.land i 15 =? 15 then log_msg lf tbuf' st else st in
      log_hex_loop k' (i + 1) lf buf tbuf' st'
  end.

(** [tbuf] is not initialised; its first write is at offset 0. *)
Definition log_hex (lf : Z) (buf : list Z) (len : Z) (st : log_world)
  : result log_world :=
  '(i, tbuf, st') ← log_hex_loop (Z.to_nat len) 0 lf buf "" st;
  Ret (if Z.land i 15 =? 0 then st' else log_msg lf tbuf st').

(** *** Vocabulary for log.c *)

(** The text of a row of bytes. *)
Fixpoint hex_text (row : list Z) : string :=
  match row with
  | [] => EmptyString
  | c :: row' => hex3 c +:+ hex_text row'
  end.

(** One [log_msg] for each row. *)
Definition emit_rows (lf : Z) (rows : list (list Z)) (st : log_world)
  : log_world :=
  fold_left (fun s row => log_msg lf (hex_text row) s) rows st.

(** The last, incomplete row, when there is one. *)
Definition last_row (cur : list Z) : list (list Z) :=
  match cur with
  | [] => []
  | _ => [cur]
  end.

(** The lines that [log_hex] appends to the stream. *)
Fixpoint hex_lines (lf : Z) (rows : list (list Z)) : string :=
  match rows with
  | [] => EmptyString
  | row :: rows' =>
      ("[" +:+ pad7 (nth (Z.to_nat (LOG_PRI lf)) flty_ EmptyString) +:+ "] "
        +:+ hex_text row +:+ nl) +:+ hex_lines lf rows'
  end.

(** The calls of [syslog] that [log_hex] makes without a stream. *)
Fixpoint syslog_rows (lf : Z) (rows : list (list Z)) : list (Z * string) :=
  match rows with
  | [] => []
  | row :: rows' =>
      (Z.lor (LOG_PRI lf) LOG_DAEMON, hex_text row) :: syslog_rows lf rows'
  end.

(** * Properties *)

(** ** libc *)

Section Libc.

Lemma compare_refl (s : string) : String.compare s s = Eq.
Proof.
  pose proof (String.compare_antisym s s) as H.
  destruct (String.compare s s); simpl in H; congruence.
Qed.

Lemma strcmp_refl (s : string) : strcmp s s = 0.
Proof. unfold strcmp. now rewrite compare_refl. Qed.

Lemma strcmp_eq (a b : string) : strcmp a b = 0 <-> a = b.
Proof.
  split.
  - unfold strcmp. destruct (String.compare a b) eqn:E; try discriminate.
    intros _. now apply String.compare_eq_iff.
  - intros ->. apply strcmp_refl.
Qed.

Lemma strcmp_antisym (a b : string) : strcmp b a = - strcmp a b.
Proof.
  unfold strcmp. rewrite (String.compare_antisym a b).
  destruct (String.compare b a); reflexivity.
Qed.

Lemma strn_all (n : nat) (s : string) :
  (String.length s <= n)%nat -> strn n s = s.
Proof.
  revert n. induction s as [|c s IH]; intros [|n] H; simpl in *;
    try reflexivity; try lia.
  f_equal. apply IH. lia.
Qed.

Lemma app_assoc_str (a b c : string) : (a +:+ b) +:+ c = a +:+ (b +:+ c).
Proof. induction a as [|x a IH]; simpl; [reflexivity | now rewrite IH]. Qed.

Lemma length_app_str (a b : string) :
  String.length (a +:+ b) = (String.length a + String.length b)%nat.
Proof. induction a as [|x a IH]; simpl; [reflexivity | now rewrite IH]. Qed.

(** *** Tokens *)

Lemma in_set_single (c d : ascii) : in_set c (String d "") = Ascii.eqb c d.
Proof. simpl. apply orb_false_r. Qed.

Lemma token_end_stop (d : ascii) (s r : string) :
  in_set d s = false ->
  token_end (String d "") (s +:+ String d r) = (s, r).
Proof.
  induction s as [|c s IH]; simpl; intros H.
  - now rewrite Ascii.eqb_refl.
  - apply orb_false_elim in H as [Hc Hs].
    rewrite orb_false_r, (Ascii.eqb_sym c d), Hc, (IH Hs). reflexivity.
Qed.

Lemma token_end_whole (d : ascii) (s : string) :
  in_set d s = false -> token_end (String d "") s = (s, EmptyString).
Proof.
  induction s as [|c s IH]; simpl; intros H; [reflexivity|].
  apply orb_false_elim in H as [Hc Hs].
  rewrite orb_false_r, (Ascii.eqb_sym c d), Hc, (IH Hs). reflexivity.
Qed.

Lemma skip_set_none (d : ascii) (s : string) :
  in_set d s = false -> skip_set (String d "") s = s.
Proof.
  destruct s as [|c s]; simpl; intros H; [reflexivity|].
  apply orb_false_elim in H as [Hc _].
  now rewrite orb_false_r, (Ascii.eqb_sym c d), Hc.
Qed.

Lemma strtok_r_stop (d : ascii) (s r : string) :
  s <> EmptyString -> in_set d s = false ->
  strtok_r (s +:+ String d r) (String d "") = (Some s, r).
Proof.
  intros Hne Hd. unfold strtok_r.
  destruct s as [|c s]; [congruence|].
  pose proof Hd as Hd'. simpl in Hd'. apply orb_false_elim in Hd' as [Hc _].
  change (String c s +:+ String d r) with (String c (s +:+ String d r)).
  cbn [skip_set]. rewrite in_set_single, (Ascii.eqb_sym c d), Hc.
  change (String c (s +:+ String d r)) with (String c s +:+ String d r).
  now rewrite token_end_stop.
Qed.

(** A string without the delimiter has one token and nothing after it. *)
Lemma strtok_r_whole (d : ascii) (s : string) :
  in_set d s = false ->
  strtok_r s (String d "") =
    (if String.eqb s "" then None else Some s, EmptyString).
Proof.
  intros Hd. unfold strtok_r. rewrite (skip_set_none _ _ Hd).
  destruct s as [|c s]; [reflexivity|].
  now rewrite (token_end_whole _ _ Hd).
Qed.

Lemma strtok_r_empty (delim : string) : strtok_r "" delim = (None, EmptyString).
Proof. reflexivity. Qed.

(** *** Decimal digits *)

Lemma digit_char_N (d : Z) :
  0 <= d <= 9 -> N_of_ascii (digit_char d) = Z.to_N (48 + d).
Proof. intros H. unfold digit_char. apply N_ascii_embedding. lia. Qed.

Lemma isdigit_digit_char (d : Z) : 0 <= d <= 9 -> isdigit (digit_char d) = true.
Proof.
  intros H. unfold isdigit. rewrite (digit_char_N _ H).
  apply andb_true_intro; split; apply N.leb_le; lia.
Qed.

Lemma digit_value_digit_char (d : Z) :
  0 <= d <= 9 -> digit_value (digit_char d) = d.
Proof. intros H. unfold digit_value. rewrite (digit_char_N _ H). lia. Qed.

Lemma isdigit_not (c d : ascii) :
  isdigit c = true -> isdigit d = false -> Ascii.eqb c d = false.
Proof.
  intros Hc Hd. destruct (Ascii.eqb_spec c d) as [->|]; congruence.
Qed.

Lemma digits_only_no_char (d : ascii) (s : string) :
  isdigit d = false -> digits_only s = true -> in_set d s = false.
Proof.
  intros Hd. induction s as [|c s IH]; simpl; [reflexivity|].
  intros H. apply andb_prop in H as [Hc Hs].
  rewrite (IH Hs), orb_false_r, Ascii.eqb_sym. now apply isdigit_not.
Qed.

Lemma utoa_digits_only (fuel : nat) :
  forall v acc, 0 <= v -> digits_only acc = true ->
    digits_only (utoa fuel v acc) = true.
Proof.
  induction fuel as [|fuel IH]; intros v acc Hv Hacc; simpl; [exact Hacc|].
  assert (Hd : digits_only (String (digit_char (v mod 10)) acc) = true).
  { simpl. rewrite Hacc, isdigit_digit_char; [reflexivity|].
    pose proof (Z.mod_pos_bound v 10). lia. }
  destruct (v / 10 =? 0); [exact Hd|].
  apply IH; [apply Z.div_pos; lia | exact Hd].
Qed.

Lemma utoa_nonempty (fuel : nat) (v : Z) (acc : string) :
  fuel <> O -> utoa fuel v acc <> EmptyString.
Proof.
  revert v acc. induction fuel as [|fuel IH]; intros v acc Hf; [congruence|].
  simpl. destruct (v / 10 =? 0); [discriminate|].
  destruct fuel as [|fuel']; [simpl; discriminate|].
  apply IH. discriminate.
Qed.

Lemma utoa_length (g : nat) :
  forall (f : nat) v acc, (1 <= f <= g)%nat -> 0 <= v < 10 ^ Z.of_nat f ->
    (String.length (utoa g v acc) <= f + String.length acc)%nat.
Proof.
  induction g as [|g IH]; intros f v acc Hf Hv; [lia|].
  simpl. destruct (v / 10 =? 0) eqn:E; [simpl; lia|].
  apply Z.eqb_neq in E.
  assert (10 <= v).
  { destruct (Z_lt_le_dec v 10) as [Hlt|]; [|assumption].
    rewrite Z.div_small in E by lia. congruence. }
  assert (2 <= f)%nat.
  { destruct f as [|[|f]]; lia. }
  assert (Hq : 0 <= v / 10 < 10 ^ Z.of_nat (f - 1)).
  { split; [apply Z.div_pos; lia|].
    apply Z.div_lt_upper_bound; [lia|].
    replace (Z.of_nat f) with (Z.succ (Z.of_nat (f - 1))) in Hv by lia.
    rewrite Z.pow_succ_r in Hv by lia. lia. }
  specialize (IH (f - 1)%nat (v / 10) (String (digit_char (v mod 10)) acc)).
  simpl in IH. lia.
Qed.

(** Scanning what [utoa] printed gives the number back. *)
Lemma scan_utoa (g : nat) :
  forall v acc, 0 <= v < 10 ^ Z.of_nat g ->
    exists k, 0 <= k /\ forall a,
      scan_digits a (utoa g v acc) = scan_digits (a * 10 ^ k + v) acc.
Proof.
  induction g as [|g IH]; intros v acc Hv.
  - exists 0. split; [lia|]. intros a. simpl.
    change (10 ^ Z.of_nat 0) with 1 in Hv. f_equal. lia.
  - assert (Hm : 0 <= v mod 10 <= 9) by (pose proof (Z.mod_pos_bound v 10); lia).
    simpl. destruct (v / 10 =? 0) eqn:E.
    + apply Z.eqb_eq in E. exists 1. split; [lia|]. intros a. simpl.
      rewrite isdigit_digit_char, digit_value_digit_char by exact Hm.
      f_equal. pose proof (Z_div_mod_eq_full v 10). lia.
    + assert (Hq : 0 <= v / 10 < 10 ^ Z.of_nat g).
      { split; [apply Z.div_pos; lia|].
        apply Z.div_lt_upper_bound; [lia|].
        rewrite Nat2Z.inj_succ, Z.pow_succ_r in Hv by lia. lia. }
      destruct (IH (v / 10) (String (digit_char (v mod 10)) acc) Hq)
        as (k & Hk & Hscan).
      exists (Z.succ k). split; [lia|]. intros a. rewrite Hscan. simpl.
      rewrite isdigit_digit_char, digit_value_digit_char by exact Hm.
      f_equal. rewrite Z.pow_succ_r by lia.
      pose proof (Z_div_mod_eq_full v 10). lia.
Qed.

Lemma scan_utoa_0 (g : nat) (v : Z) :
  0 <= v < 10 ^ Z.of_nat g ->
  scan_digits 0 (utoa g v "") = (v, EmptyString).
Proof.
  intros Hv. destruct (scan_utoa g v "" Hv) as (k & _ & H).
  rewrite H. reflexivity.
Qed.

Lemma isdigit_plain (c : ascii) :
  isdigit c = true ->
  isspace c = false /\ Ascii.eqb c "-" = false /\ Ascii.eqb c "+" = false.
Proof.
  intros H. repeat split.
  - unfold isdigit in H. unfold isspace.
    apply andb_prop in H as [H1 H2]. apply N.leb_le in H1.
    apply orb_false_intro; [apply andb_false_intro2; apply N.leb_gt; lia|].
    apply N.eqb_neq. lia.
  - apply isdigit_not; [assumption | reflexivity].
  - apply isdigit_not; [assumption | reflexivity].
Qed.

(** On a string of digits [strtol] converts all of it. *)
Lemma strtol_digits (s : string) :
  s <> EmptyString -> digits_only s = true ->
  strtol s = (Z.min LONG_MAX (fst (scan_digits 0 s)), snd (scan_digits 0 s)).
Proof.
  intros Hne Hd. destruct s as [|c s]; [congruence|].
  pose proof Hd as Hd'. simpl in Hd'. apply andb_prop in Hd' as [Hc _].
  destruct (isdigit_plain c Hc) as (Hsp & Hm & Hp).
  unfold strtol. cbn [skip_space]. rewrite Hsp, Hm, Hp, Hc.
  destruct (scan_digits 0 (String c s)). reflexivity.
Qed.

End Libc.

(** ** Wire codec *)

Section Codec.
Context {P : Platform}.

Lemma is_valid_port_true (p : Z) : is_valid_port p = true <-> 1 <= p <= 65535.
Proof. unfold is_valid_port. rewrite andb_true_iff, !Z.leb_le. tauto. Qed.

Lemma decimal_digits (v : Z) : 0 <= v -> digits_only (decimal v) = true.
Proof. intros H. now apply utoa_digits_only. Qed.

Lemma decimal_nonempty (v : Z) : decimal v <> EmptyString.
Proof. now apply utoa_nonempty. Qed.

Lemma decimal_scan (v : Z) :
  0 <= v < 10 ^ 10 -> scan_digits 0 (decimal v) = (v, EmptyString).
Proof. intros H. now apply (scan_utoa_0 10). Qed.

Lemma decimal_inj (v w : Z) :
  0 <= v < 10 ^ 10 -> 0 <= w < 10 ^ 10 -> decimal v = decimal w -> v = w.
Proof.
  intros Hv Hw E. pose proof (decimal_scan v Hv) as H1.
  rewrite E, (decimal_scan w Hw) in H1. congruence.
Qed.

(** A valid port is printed in full. *)
Lemma port_str_decimal (p : Z) :
  5 < MAX_INT_STR -> 1 <= p <= 65535 ->
  strn 5 (snprintf_u MAX_INT_STR p) = decimal p.
Proof.
  intros HM Hp. unfold snprintf_u. rewrite (Z.mod_small p) by lia.
  fold (decimal p).
  assert (HL : (String.length (decimal p) <= 5)%nat).
  { pose proof (utoa_length 10 5 p "") as H. simpl String.length in H.
    unfold decimal. rewrite Nat.add_0_r in H. apply H; [lia|].
    change (10 ^ Z.of_nat 5) with 100000. lia. }
  rewrite (strn_all (Z.to_nat (MAX_INT_STR - 1))) by lia.
  now apply strn_all.
Qed.

Lemma wire_form (ct : contact_t) :
  5 < MAX_INT_STR -> valid_contact ct ->
  contact_to_string ct =
    Some (onion_id ct +:+ String SP (decimal (lport ct) +:+ nl)).
Proof.
  intros HM [Ho Hp]. unfold contact_to_string.
  rewrite Ho. apply is_valid_port_true in Hp as Hp'. rewrite Hp'. cbn [negb].
  now rewrite port_str_decimal.
Qed.

Lemma contact_to_string_valid (ct : contact_t) (s : string) :
  contact_to_string ct = Some s -> valid_contact ct.
Proof.
  unfold contact_to_string, valid_contact.
  destruct (is_valid_onion (onion_id ct)); simpl; [|discriminate].
  destruct (is_valid_port (lport ct)) eqn:E; simpl; [|discriminate].
  intros _. split; [reflexivity | now apply is_valid_port_true].
Qed.

Lemma int_of_long_small (v : Z) :
  - 2 ^ 31 <= v < 2 ^ 31 -> int_of_long v = v.
Proof. intros H. unfold int_of_long. rewrite Z.mod_small; lia. Qed.

Lemma strtol_decimal (p : Z) :
  0 <= p < 2 ^ 32 -> strtol (decimal p) = (p, EmptyString).
Proof.
  intros Hp.
  rewrite strtol_digits by (apply decimal_nonempty || (apply decimal_digits; lia)).
  rewrite decimal_scan by lia. simpl. f_equal. unfold LONG_MAX. lia.
Qed.

Lemma string_to_contact_wire (buf : contact_t) (o : string) (p : Z) :
  onion_wire_safe -> is_valid_onion o = true -> 1 <= p <= 65535 ->
  string_to_contact buf (o +:+ String SP (decimal p +:+ nl)) =
    (0, mk_contact (fd buf) (name buf) o p (accepted buf)).
Proof.
  intros Hsafe Ho Hp. destruct (Hsafe o Ho) as (Hne & Hsp & Hlen).
  unfold string_to_contact.
  rewrite (strtok_r_stop SP o _ Hne Hsp).
  unfold nl. rewrite (strtok_r_stop LF (decimal p) "").
  - rewrite Ho. simpl negb. cbv iota.
    rewrite strtol_decimal by lia.
    rewrite int_of_long_small by lia.
    apply is_valid_port_true in Hp. rewrite Hp. simpl.
    now rewrite strn_all.
  - apply decimal_nonempty.
  - apply digits_only_no_char; [reflexivity | apply decimal_digits; lia].
Qed.

End Codec.

Section CodecTheorems.
Context {P : Platform}.

(** C2: a contact with a valid address and a port in 1..65535 is printed as
    the line [<address> <port>\n], and parsing that line succeeds and gives a
    contact with the same address and port, hence the same wire form. *)
Theorem contact_string_roundtrip (ct buf : contact_t) :
  onion_wire_safe -> 5 < MAX_INT_STR ->
  is_valid_onion (onion_id ct) = true -> 1 <= lport ct <= 65535 ->
  exists line ct',
    line = onion_id ct +:+ String SP (decimal (lport ct) +:+ nl) /\
    contact_to_string ct = Some line /\
    string_to_contact buf line = (0, ct') /\
    onion_id ct' = onion_id ct /\ lport ct' = lport ct /\
    contact_to_string ct' = contact_to_string ct.
Proof.
  intros Hsafe HM Ho Hp.
  eexists _, (mk_contact (fd buf) (name buf) (onion_id ct) (lport ct) (accepted buf)).
  split; [reflexivity|].
  assert (Hw : contact_to_string ct =
               Some (onion_id ct +:+ String SP (decimal (lport ct) +:+ nl))).
  { apply wire_form; [exact HM | split; assumption]. }
  split; [exact Hw|].
  split; [now apply string_to_contact_wire|].
  split; [reflexivity|]. split; [reflexivity|].
  rewrite Hw.
  exact (wire_form (mk_contact (fd buf) (name buf) (onion_id ct) (lport ct)
                               (accepted buf)) HM (conj Ho Hp)).
Qed.

End CodecTheorems.

(** The demonstration platform meets the two side conditions. *)
Lemma in_set_app (c : ascii) (a b : string) :
  in_set c (a +:+ b) = in_set c a || in_set c b.
Proof.
  induction a as [|x a IH]; simpl; [reflexivity|].
  now rewrite IH, orb_assoc.
Qed.

Lemma strn_str_drop (n : nat) (s : string) : strn n s +:+ str_drop n s = s.
Proof.
  revert s. induction n as [|n IH]; intros [|c s]; simpl; try reflexivity.
  now rewrite IH.
Qed.

Lemma all_base32_no_space (s : string) :
  all_base32 s = true -> in_set SP s = false.
Proof.
  induction s as [|c s IH]; cbn [all_base32 in_set]; [reflexivity|].
  intros H. apply andb_prop in H as [Hc Hs]. rewrite (IH Hs), orb_false_r.
  destruct (Ascii.eqb_spec SP c) as [<-|]; [discriminate | reflexivity].
Qed.

Lemma demo_wire_safe : @onion_wire_safe demo_platform.
Proof.
  intros s H. simpl in H. unfold onion_v2 in H.
  apply andb_prop in H as [H Hsuf]. apply andb_prop in H as [Hlen Hpre].
  apply Nat.eqb_eq in Hlen. apply String.eqb_eq in Hsuf.
  split; [intros ->; discriminate|]. split; [|simpl; lia].
  rewrite <- (strn_str_drop 16 s), in_set_app, Hsuf.
  now rewrite (all_base32_no_space _ Hpre).
Qed.

Lemma contact_string_roundtrip_witness :
  @onion_wire_safe demo_platform /\
  5 < @MAX_INT_STR demo_platform /\
  @is_valid_onion demo_platform (onion_id (link bob 7 true)) = true /\
  1 <= lport (link bob 7 true) <= 65535 /\
  exists line ct',
    line = onion_id (link bob 7 true)
             +:+ String SP (decimal (lport (link bob 7 true)) +:+ nl) /\
    @contact_to_string demo_platform (link bob 7 true) = Some line /\
    @string_to_contact demo_platform zero_contact line = (0, ct') /\
    onion_id ct' = onion_id (link bob 7 true) /\
    lport ct' = lport (link bob 7 true) /\
    @contact_to_string demo_platform ct'
      = @contact_to_string demo_platform (link bob 7 true).
Proof.
  assert (H2 : 5 < @MAX_INT_STR demo_platform) by (cbn; lia).
  assert (H4 : 1 <= lport (link bob 7 true) <= 65535) by (cbn; lia).
  split; [exact demo_wire_safe|]. split; [exact H2|].
  split; [reflexivity|]. split; [exact H4|].
  exact (@contact_string_roundtrip demo_platform (link bob 7 true) zero_contact
           demo_wire_safe H2 eq_refl H4).
Defined.

(** ** Identity through the wire form *)

Section Identity.
Context {P : Platform}.
Hypothesis HM : 5 < MAX_INT_STR.

Lemma append_nil_r (a : string) : a +:+ "" = a.
Proof. induction a as [|x a IH]; simpl; [reflexivity | now rewrite IH]. Qed.

Lemma append_eq_cases (a : string) :
  forall b x y, a +:+ x = b +:+ y ->
    exists t, (b = a +:+ t /\ x = t +:+ y) \/ (a = b +:+ t /\ y = t +:+ x).
Proof.
  induction a as [|c a IH]; intros b x y E.
  - exists b. left. split; [reflexivity | exact E].
  - destruct b as [|d b].
    + exists (String c a). right. split; [reflexivity | symmetry; exact E].
    + simpl in E. injection E as -> E.
      destruct (IH b x y E) as [t [[-> ->]|[-> ->]]]; exists t; [left|right];
        split; reflexivity.
Qed.

Lemma digits_nl_no_space (d : string) :
  digits_only d = true -> in_set SP (d +:+ nl) = false.
Proof.
  intros H. rewrite in_set_app, (digits_only_no_char SP d); [reflexivity.. | exact H].
Qed.

Lemma wire_split (t d1 d2 : string) :
  digits_only d1 = true ->
  String SP (d1 +:+ nl) = t +:+ String SP (d2 +:+ nl) ->
  t = EmptyString /\ d1 = d2.
Proof.
  intros H1 E. destruct t as [|c t].
  - split; [reflexivity|]. simpl in E. injection E as E.
    assert (Hl : in_set LF d1 = false)
      by (apply digits_only_no_char; [reflexivity | exact H1]).
    pose proof (token_end_stop LF d1 "" Hl) as T1. fold nl in T1.
    rewrite E in T1.
    destruct (in_set LF d2) eqn:Hl2.
    + (* the first token of the right side would be shorter than [d1] *)
      assert (Hlen : String.length (d1 +:+ nl) = String.length (d2 +:+ nl))
        by now rewrite E.
      rewrite !length_app_str in Hlen. simpl in Hlen.
      assert (Hin : in_set LF d1 = in_set LF d2).
      { clear T1 Hl2 Hl H1. revert d2 E Hlen.
        induction d1 as [|x d1 IH]; intros [|y d2] E Hlen; simpl in *;
          try reflexivity; try lia.
        injection E as -> E. f_equal. apply IH; [exact E | lia]. }
      congruence.
    + pose proof (token_end_stop LF d2 "" Hl2) as T2. fold nl in T2. congruence.
  - exfalso. simpl in E. injection E as <- E.
    pose proof (digits_nl_no_space d1 H1) as Hs.
    rewrite E, in_set_app in Hs. cbn [in_set] in Hs.
    rewrite Ascii.eqb_refl in Hs. cbn [orb] in Hs.
    rewrite orb_true_r in Hs. discriminate.
Qed.

Lemma wire_inj (o1 o2 d1 d2 : string) :
  digits_only d1 = true -> digits_only d2 = true ->
  o1 +:+ String SP (d1 +:+ nl) = o2 +:+ String SP (d2 +:+ nl) ->
  o1 = o2 /\ d1 = d2.
Proof.
  intros H1 H2 E.
  destruct (append_eq_cases _ _ _ _ E) as [t [[-> Et]|[-> Et]]].
  - destruct (wire_split t d1 d2 H1 Et) as [-> ->].
    now rewrite append_nil_r.
  - destruct (wire_split t d2 d1 H2 Et) as [-> ->].
    now rewrite append_nil_r.
Qed.

Lemma valid_contact_confirmed (c : contact_t) : valid_contact c -> lport c <> 0.
Proof. intros [_ H]. lia. Qed.

(** Two valid contacts have the same wire form exactly when they have the
    same identity. *)
Lemma wire_form_eq (a b : contact_t) :
  valid_contact a -> valid_contact b ->
  forall sa sb, contact_to_string a = Some sa -> contact_to_string b = Some sb ->
    (strcmp sa sb =? 0) = id_eqb a b.
Proof.
  intros Ha Hb sa sb Ea Eb.
  rewrite (wire_form a HM Ha) in Ea. rewrite (wire_form b HM Hb) in Eb.
  injection Ea as <-. injection Eb as <-.
  destruct Ha as [_ Hpa], Hb as [_ Hpb]. unfold id_eqb.
  destruct (strcmp _ _ =? 0) eqn:E.
  - apply Z.eqb_eq, strcmp_eq, wire_inj in E as [Eo Ed];
      try (apply decimal_digits; lia).
    apply decimal_inj in Ed; try lia.
    symmetry. apply andb_true_intro. split;
      [now apply String.eqb_eq | now apply Z.eqb_eq].
  - symmetry. apply not_true_is_false. intros H.
    apply andb_prop in H as [Ho Hp].
    apply String.eqb_eq in Ho. apply Z.eqb_eq in Hp.
    rewrite Ho, Hp, strcmp_refl in E. discriminate.
Qed.

Lemma same_contact_matches (ct c : contact_t) :
  valid_contact ct -> (lport c <> 0 -> valid_contact c) ->
  same_contact ct c = Ret (matches ct c).
Proof.
  intros Hct Hc. unfold same_contact, matches.
  destruct (lport c =? 0) eqn:E; [reflexivity|].
  apply Z.eqb_neq in E. specialize (Hc E).
  rewrite (wire_form ct HM Hct), (wire_form c HM Hc). simpl negb.
  rewrite andb_true_l. f_equal.
  eapply wire_form_eq; eauto using wire_form.
Qed.

Lemma id_eqb_sym (a b : contact_t) : id_eqb a b = id_eqb b a.
Proof. unfold id_eqb. now rewrite String.eqb_sym, Z.eqb_sym. Qed.

Lemma id_eqb_true (a b : contact_t) :
  id_eqb a b = true <-> onion_id a = onion_id b /\ lport a = lport b.
Proof. unfold id_eqb. now rewrite andb_true_iff, String.eqb_eq, Z.eqb_eq. Qed.

End Identity.

(** ** find_contact *)

Lemma array_get_Ret (l : list contact_t) (i : Z) (c : contact_t) :
  array_get l i = Ret c <-> 0 <= i /\ l !! Z.to_nat i = Some c.
Proof.
  unfold array_get. destruct (i <? 0) eqn:E.
  - apply Z.ltb_lt in E. split; [discriminate | lia].
  - apply Z.ltb_ge in E. destruct (l !! Z.to_nat i) as [c'|].
    + split; [intros [= ->]; auto | intros [_ [= ->]]; reflexivity].
    + split; [discriminate | intros [_ [=]]].
Qed.

Lemma array_get_lt (l : list contact_t) (i : Z) :
  0 <= i < Z.of_nat (length l) -> exists c, array_get l i = Ret c.
Proof.
  intros H. destruct (lookup_lt_is_Some_2 l (Z.to_nat i)) as [c Hc]; [lia|].
  exists c. apply array_get_Ret. split; [lia | exact Hc].
Qed.

Section Find.
Context {P : Platform}.
Hypothesis HM : 5 < MAX_INT_STR.
Variable cnf : dchat_conf_t.
Variable ct : contact_t.
Hypothesis Hok : store_ok cnf.
Hypothesis Hct : valid_contact ct.

Lemma slot_lt (k : Z) (c : contact_t) :
  slot cnf k c -> 0 <= k < cl_size (cl cnf).
Proof.
  intros H. apply array_get_Ret in H as [H0 H]. destruct Hok as [-> _].
  apply lookup_lt_Some in H. lia.
Qed.

Lemma slot_same (k : Z) (c : contact_t) :
  slot cnf k c -> same_contact ct c = Ret (matches ct c).
Proof.
  intros H. apply array_get_Ret in H as [_ H].
  apply (same_contact_matches HM); [exact Hct|].
  destruct Hok as (_ & Hv & _). now apply (Hv _ _ H).
Qed.

Lemma self_same : same_contact ct (me cnf) = Ret (matches ct (me cnf)).
Proof.
  apply (same_contact_matches HM); [exact Hct|]. now destruct Hok as (_ & _ & ?).
Qed.

Lemma find_scan_hit (n : nat) :
  forall i k c, 0 <= i <= k -> i + Z.of_nat n = cl_size (cl cnf) ->
    slot cnf k c -> matches ct c = true ->
    (forall j c', i <= j < k -> slot cnf j c' -> matches ct c' = false) ->
    find_scan n i cnf ct = Ret k.
Proof.
  induction n as [|n IH]; intros i k c Hik Hn Hk Hm Hbefore.
  - apply slot_lt in Hk. lia.
  - cbn [find_scan]. destruct (Z.eq_dec i k) as [->|Hne].
    + unfold slot in Hk. rewrite Hk. cbn.
      rewrite (slot_same k c Hk), Hm. reflexivity.
    + destruct (array_get_lt (contact (cl cnf)) i) as [c' Hc'].
      { destruct Hok as [<- _]. apply slot_lt in Hk. lia. }
      rewrite Hc'. cbn. rewrite (slot_same i c' Hc').
      rewrite (Hbefore i c') by (lia || exact Hc'). cbn.
      apply (IH (i + 1) k c); try assumption; try lia.
      intros j c'' Hj. apply Hbefore. lia.
Qed.

Lemma find_scan_miss (n : nat) :
  forall i, 0 <= i -> i + Z.of_nat n = cl_size (cl cnf) ->
    (forall j c', i <= j -> slot cnf j c' -> matches ct c' = false) ->
    find_scan n i cnf ct = Ret (-2).
Proof.
  induction n as [|n IH]; intros i Hi Hn Hnone; [reflexivity|].
  cbn [find_scan].
  destruct (array_get_lt (contact (cl cnf)) i) as [c' Hc'].
  { destruct Hok as [<- _]. lia. }
  rewrite Hc'. cbn. rewrite (slot_same i c' Hc').
  rewrite (Hnone i c') by (lia || exact Hc'). cbn.
  apply IH; try lia. intros j c'' Hj. apply Hnone. lia.
Qed.

Lemma find_contact_bounds (begin : Z) :
  0 <= begin < cl_size (cl cnf) ->
  find_contact cnf ct begin =
    (hit ← same_contact ct (me cnf);
     if hit : bool then Ret (begin - 1)
     else find_scan (Z.to_nat (cl_size (cl cnf) - begin)) begin cnf ct).
Proof.
  intros H. unfold find_contact.
  replace (begin <? 0) with false by (symmetry; apply Z.ltb_ge; lia).
  replace (cl_size (cl cnf) <=? begin) with false
    by (symmetry; apply Z.leb_gt; lia).
  cbn [orb]. replace (begin - 1 + 1) with begin by lia. reflexivity.
Qed.

(** When the candidate has the identity of this process, the value returned
    is [begin - 1]: the sentinel [-1] only for [begin = 0]. *)
Lemma find_contact_self (begin : Z) :
  0 <= begin < cl_size (cl cnf) -> matches ct (me cnf) = true ->
  find_contact cnf ct begin = Ret (begin - 1).
Proof.
  intros Hb Hm. rewrite (find_contact_bounds _ Hb), self_same, Hm. reflexivity.
Qed.

Lemma find_contact_hit (begin k : Z) (c : contact_t) :
  0 <= begin <= k -> matches ct (me cnf) = false ->
  slot cnf k c -> matches ct c = true ->
  (forall j c', begin <= j < k -> slot cnf j c' -> matches ct c' = false) ->
  find_contact cnf ct begin = Ret k.
Proof.
  intros Hb Hme Hk Hm Hbefore. pose proof (slot_lt k c Hk) as Hlt.
  rewrite find_contact_bounds, self_same, Hme by lia. cbn.
  apply (find_scan_hit _ begin k c); try assumption. lia.
Qed.

Lemma find_contact_miss (begin : Z) :
  matches ct (me cnf) = false ->
  (forall j c', begin <= j -> slot cnf j c' -> matches ct c' = false) ->
  find_contact cnf ct begin = Ret (-2).
Proof.
  intros Hme Hnone.
  destruct (Z_lt_le_dec begin 0) as [Hneg|Hpos].
  { unfold find_contact. apply Z.ltb_lt in Hneg. now rewrite Hneg. }
  destruct (Z_lt_le_dec begin (cl_size (cl cnf))) as [Hlt|Hge].
  - rewrite find_contact_bounds, self_same, Hme by lia. cbn.
    apply find_scan_miss; try assumption. lia.
  - unfold find_contact. apply Z.leb_le in Hge. rewrite Hge.
    now rewrite orb_true_r.
Qed.

End Find.

(** ** check_duplicates *)

Section Duplicates.
Context {P : Platform}.
Hypothesis HM : 5 < MAX_INT_STR.

Lemma matches_confirmed (a c : contact_t) : matches a c = true -> lport c <> 0.
Proof.
  unfold matches. intros H. apply andb_prop in H as [H _].
  apply negb_true_iff, Z.eqb_neq in H. exact H.
Qed.

Lemma matches_id (a c : contact_t) : matches a c = true -> id_eqb a c = true.
Proof. unfold matches. intros H. now apply andb_prop in H as [_ H]. Qed.

Lemma spec_eviction_side (self remote : contact_t) (cs ac : Z) :
  spec_eviction self remote cs ac =
    if evicts_connect_side self remote then cs else ac.
Proof.
  unfold spec_eviction, evicts_connect_side. cbv zeta.
  destruct (0 <? strcmp _ _) eqn:E1; [reflexivity|].
  destruct (strcmp _ _ <? 0) eqn:E2.
  - apply Z.ltb_lt in E2. cbn [orb].
    replace (strcmp (onion_id self) (onion_id remote) =? 0) with false
      by (symmetry; apply Z.eqb_neq; lia).
    reflexivity.
  - apply Z.ltb_ge in E1, E2. cbn [orb].
    replace (strcmp (onion_id self) (onion_id remote) =? 0) with true
      by (symmetry; apply Z.eqb_eq; lia).
    cbn [andb]. destruct (lport remote <? lport self); [reflexivity|].
    now destruct (lport self <? lport remote).
Qed.

(** What [check_duplicates] returns on a store that holds the pair. *)
Lemma check_duplicates_pair (cnf : dchat_conf_t) (n : Z) (cn : contact_t)
    (cs ac : Z) :
  store_ok cnf -> duplicate_pair cnf n cn cs ac ->
  check_duplicates cnf n =
    Ret (if id_eqb (me cnf) cn then n else spec_eviction (me cnf) cn cs ac).
Proof.
  intros Hok (Hn & (cc & ca & Hcs & Hac & Fc & Fa & Mc & Ma) & Honly).
  assert (Hcn : valid_contact cn).
  { pose proof (matches_confirmed _ _ Mc) as Hc.
    apply matches_id, id_eqb_true in Mc as [_ Hp].
    apply array_get_Ret in Hn as [_ Hn].
    destruct Hok as (_ & Hv & _). apply (Hv _ _ Hn). congruence. }
  assert (Hne : cs <> ac).
  { intros ->. unfold slot in *. congruence. }
  pose proof (slot_lt cnf Hok _ _ Hn) as Hnlt.
  unfold check_duplicates. unfold slot in Hn. rewrite Hn. cbn.
  destruct (id_eqb (me cnf) cn) eqn:Eid.
  - assert (Hme : matches cn (me cnf) = true).
    { unfold matches. rewrite id_eqb_sym, Eid, andb_true_r.
      apply negb_true_iff, Z.eqb_neq.
      apply id_eqb_true in Eid as [_ ->]. now apply valid_contact_confirmed. }
    rewrite (find_contact_self HM cnf cn Hok Hcn 0) by (lia || exact Hme).
    reflexivity.
  - assert (Hme : matches cn (me cnf) = false).
    { unfold matches. now rewrite id_eqb_sym, Eid, andb_false_r. }
    assert (Hfind : forall lo hi clo chi,
      lo < hi -> slot cnf lo clo -> slot cnf hi chi ->
      matches cn clo = true -> matches cn chi = true ->
      (forall k c, slot cnf k c -> matches cn c = true -> k = lo \/ k = hi) ->
      find_contact cnf cn 0 = Ret lo /\ find_contact cnf cn (lo + 1) = Ret hi).
    { intros lo hi clo chi Hlt Slo Shi Mlo Mhi Only.
      pose proof (slot_lt cnf Hok _ _ Slo) as Hlo.
      split.
      - apply (find_contact_hit HM cnf cn Hok Hcn 0 lo clo); try assumption; [lia|].
        intros j c' Hj Sj. destruct (matches cn c') eqn:E; [|reflexivity].
        destruct (Only _ _ Sj E); lia.
      - apply (find_contact_hit HM cnf cn Hok Hcn (lo + 1) hi chi);
          try assumption; [lia|].
        intros j c' Hj Sj. destruct (matches cn c') eqn:E; [|reflexivity].
        destruct (Only _ _ Sj E); lia. }
    destruct (Z_lt_le_dec cs ac) as [Hlt|Hge].
    + destruct (Hfind cs ac cc ca Hlt Hcs Hac Mc Ma Honly) as [F1 F2].
      pose proof (slot_lt cnf Hok _ _ Hcs) as Hlo.
      rewrite F1. cbn.
      replace (cs =? -1) with false by (symmetry; apply Z.eqb_neq; lia).
      replace (cs =? -2) with false by (symmetry; apply Z.eqb_neq; lia).
      rewrite F2. cbn.
      replace (ac =? -2) with false by (symmetry; apply Z.eqb_neq; lia).
      unfold slot in Hcs. rewrite Hcs. cbn. rewrite Fc.
      unfold spec_eviction. cbv zeta. now repeat destruct (_ <? _).
    + assert (Hlt : ac < cs) by lia.
      assert (Honly' : forall k c, slot cnf k c -> matches cn c = true ->
                                   k = ac \/ k = cs).
      { intros k c Sk Mk. destruct (Honly k c Sk Mk); auto. }
      destruct (Hfind ac cs ca cc Hlt Hac Hcs Ma Mc Honly') as [F1 F2].
      pose proof (slot_lt cnf Hok _ _ Hac) as Hlo.
      rewrite F1. cbn.
      replace (ac =? -1) with false by (symmetry; apply Z.eqb_neq; lia).
      replace (ac =? -2) with false by (symmetry; apply Z.eqb_neq; lia).
      rewrite F2. cbn.
      replace (cs =? -2) with false by (symmetry; apply Z.eqb_neq; lia).
      unfold slot in Hac. rewrite Hac. cbn. rewrite Fa.
      unfold spec_eviction. cbv zeta. now repeat destruct (_ <? _).
Qed.

End Duplicates.

(** Stores of two slots. *)
Section Store2.
Context {P : Platform}.

Lemma store2_ok (self a b : contact_t) :
  valid_contact self -> valid_contact a -> valid_contact b ->
  store_ok (store2 self a b).
Proof.
  intros Hs Ha Hb. split; [reflexivity|]. split; [|intros _; exact Hs].
  intros [|[|k]] c; cbn; intros [= <-] _; assumption.
Qed.

Lemma store2_duplicate_pair (self a b : contact_t) (n cs ac : Z)
    (cn cc ca : contact_t) :
  store_ok (store2 self a b) ->
  slot (store2 self a b) n cn ->
  slot (store2 self a b) cs cc -> slot (store2 self a b) ac ca ->
  accepted cc = false -> accepted ca = true ->
  matches cn cc = true -> matches cn ca = true ->
  duplicate_pair (store2 self a b) n cn cs ac.
Proof.
  intros Hok Sn Scs Sac Fc Fa Mc Ma.
  split; [exact Sn|]. split; [now exists cc, ca|].
  intros k c Sk _.
  assert (cs <> ac) by (intros ->; unfold slot in *; congruence).
  apply (slot_lt _ Hok) in Sk, Scs, Sac. cbn in Sk, Scs, Sac. lia.
Qed.

End Store2.

Lemma valid_alice : @valid_contact demo_platform alice.
Proof. split; [reflexivity | cbn; lia]. Qed.

Lemma valid_bob : @valid_contact demo_platform bob.
Proof. split; [reflexivity | cbn; lia]. Qed.

Lemma valid_link (peer : contact_t) (fd' : Z) (acc : bool) :
  @valid_contact demo_platform peer ->
  @valid_contact demo_platform (link peer fd' acc).
Proof. intros H. exact H. Qed.

Lemma demo_max_int_str : 5 < @MAX_INT_STR demo_platform.
Proof. cbn. lia. Qed.

Create HintDb demo.
#[local] Hint Resolve valid_alice valid_bob valid_link store2_ok
  demo_max_int_str : demo.

Lemma alice_conf_pair (n : Z) :
  n = 0 \/ n = 1 ->
  duplicate_pair alice_conf n
    (link bob (if n =? 0 then 3 else 4) (negb (n =? 0))) 0 1.
Proof.
  intros [-> | ->];
    apply (store2_duplicate_pair (P := demo_platform) _ _ _ _ _ _ _
             (link bob 3 false) (link bob 4 true));
    auto with demo; reflexivity.
Qed.

Lemma alice_conf'_pair :
  duplicate_pair alice_conf' 0 (link bob 4 true) 1 0.
Proof.
  apply (store2_duplicate_pair (P := demo_platform) _ _ _ _ _ _ _
           (link bob 3 false) (link bob 4 true));
    auto with demo; reflexivity.
Qed.

Lemma bob_conf_pair :
  duplicate_pair bob_conf 0 (link alice 5 true) 1 0.
Proof.
  apply (store2_duplicate_pair (P := demo_platform) _ _ _ _ _ _ _
           (link alice 6 false) (link alice 5 true));
    auto with demo; reflexivity.
Qed.

Lemma self_pair_conf_pair :
  duplicate_pair self_pair_conf 0 (link alice 3 false) 0 1.
Proof.
  apply (store2_duplicate_pair (P := demo_platform) _ _ _ _ _ _ _
           (link alice 3 false) (link alice 4 true));
    auto with demo; reflexivity.
Qed.

Section Resolver.
Context {P : Platform}.
Hypothesis HM : 5 < MAX_INT_STR.

(** C1 (amended): on a well-formed store in which the contact of slot [n]
    occurs at exactly two confirmed slots, [connect_side] (not accepted) and
    [accept_side] (accepted), [check_duplicates n] returns [connect_side]
    when the own address compares greater than the duplicate's and
    [accept_side] when it compares lesser; with equal addresses,
    [connect_side] when the own port is greater and [accept_side] when it is
    lesser; and when address and port are both equal the contact is this
    process itself and the result is [n]. *)
Theorem check_duplicates_tie_break (cnf : dchat_conf_t) (n : Z)
    (cn : contact_t) (connect_side accept_side : Z) :
  store_ok cnf -> duplicate_pair cnf n cn connect_side accept_side ->
  let r := strcmp (onion_id (me cnf)) (onion_id cn) in
  (0 < r -> check_duplicates cnf n = Ret connect_side) /\
  (r < 0 -> check_duplicates cnf n = Ret accept_side) /\
  (r = 0 -> lport cn < lport (me cnf) ->
     check_duplicates cnf n = Ret connect_side) /\
  (r = 0 -> lport (me cnf) < lport cn ->
     check_duplicates cnf n = Ret accept_side) /\
  (r = 0 -> lport (me cnf) = lport cn -> check_duplicates cnf n = Ret n).
Proof.
  intros Hok Hpair r.
  rewrite (check_duplicates_pair HM cnf n cn _ _ Hok Hpair).
  assert (Hid : id_eqb (me cnf) cn = (r =? 0) && (lport (me cnf) =? lport cn)).
  { unfold id_eqb. f_equal. subst r.
    destruct (String.eqb_spec (onion_id (me cnf)) (onion_id cn)) as [E|E].
    - rewrite E, strcmp_refl. reflexivity.
    - symmetry. apply Z.eqb_neq. intros H. now apply strcmp_eq in H. }
  rewrite Hid. unfold spec_eviction. fold r. cbv zeta.
  repeat split; intros; 
    repeat match goal with
           | |- context [?a <? ?b] => destruct (Z.ltb_spec a b); try lia
           | |- context [?a =? ?b] => destruct (Z.eqb_spec a b); try lia
           end; cbn; try reflexivity; try lia.
Qed.

Lemma evicted_side_pair (cnf : dchat_conf_t) (n : Z) (cn : contact_t)
    (cs ac : Z) :
  store_ok cnf -> duplicate_pair cnf n cn cs ac ->
  id_eqb (me cnf) cn = false ->
  evicted_side cnf n = Ret (negb (evicts_connect_side (me cnf) cn)).
Proof.
  intros Hok Hpair Hid. unfold evicted_side.
  rewrite (check_duplicates_pair HM cnf n cn _ _ Hok Hpair), Hid.
  rewrite spec_eviction_side.
  destruct Hpair as (_ & (cc & ca & Scs & Sac & Fc & Fa & _) & _).
  unfold slot in Scs, Sac.
  destruct (evicts_connect_side (me cnf) cn); cbn.
  - rewrite Scs. cbn. now rewrite Fc.
  - rewrite Sac. cbn. now rewrite Fa.
Qed.

Lemma evicts_connect_side_id (a a' b b' : contact_t) :
  id_eqb a a' = true -> id_eqb b b' = true ->
  evicts_connect_side a b = evicts_connect_side a' b'.
Proof.
  intros Ha Hb. apply id_eqb_true in Ha as [Ea Ea'], Hb as [Eb Eb'].
  unfold evicts_connect_side. now rewrite Ea, Ea', Eb, Eb'.
Qed.

Lemma evicts_connect_side_swap (a b : contact_t) :
  id_eqb a b = false ->
  evicts_connect_side b a = negb (evicts_connect_side a b).
Proof.
  intros Hid. unfold evicts_connect_side. cbv zeta.
  rewrite (strcmp_antisym a.(onion_id) b.(onion_id)).
  assert (Hne : strcmp (onion_id a) (onion_id b) = 0 -> lport a <> lport b).
  { intros H Hp. apply strcmp_eq in H.
    assert (id_eqb a b = true) by (apply id_eqb_true; auto). congruence. }
  repeat match goal with
         | |- context [?x <? ?y] => destruct (Z.ltb_spec x y)
         | |- context [?x =? ?y] => destruct (Z.eqb_spec x y)
         end; cbn; try reflexivity; try lia.
Qed.

Lemma id_eqb_trans_false (a b c : contact_t) :
  id_eqb a b = false -> id_eqb c b = true -> id_eqb a c = false.
Proof.
  intros Hab Hcb. apply id_eqb_true in Hcb as [E1 E2].
  unfold id_eqb in *. now rewrite E1, E2.
Qed.

(** C4 (amended): when the identities of the two peers differ (in address or
    in port), each holding the two links to the other in a well-formed
    store, [check_duplicates] designates the same side whatever the order of
    the two entries in the store, and the remote peer designates the
    complementary side, which is the same link: both keep the same link. *)
Theorem eviction_agreement_distinct (cnfA cnfA' cnfB : dchat_conf_t)
    (nA nA' nB : Z) :
  id_eqb (me cnfA) (me cnfB) = false ->
  id_eqb (me cnfA) (me cnfA') = true ->
  holds_pair cnfA (me cnfB) nA ->
  holds_pair cnfA' (me cnfB) nA' ->
  holds_pair cnfB (me cnfA) nB ->
  eviction_agreement cnfA cnfA' cnfB nA nA' nB.
Proof.
  intros Hdiff Hsame (HokA & cnA & csA & acA & PA & IA)
         (HokA' & cnA' & csA' & acA' & PA' & IA')
         (HokB & cnB & csB & acB & PB & IB).
  exists (negb (evicts_connect_side (me cnfA) (me cnfB))).
  assert (Hrefl : forall c, id_eqb c c = true)
    by (intros c; apply id_eqb_true; auto).
  split; [|split].
  - rewrite (evicted_side_pair cnfA nA cnA csA acA HokA PA).
    + do 2 f_equal. now apply evicts_connect_side_id.
    + now apply (id_eqb_trans_false _ (me cnfB)).
  - rewrite (evicted_side_pair cnfA' nA' cnA' csA' acA' HokA' PA').
    + do 2 f_equal. apply evicts_connect_side_id; [|assumption].
      now rewrite id_eqb_sym.
    + apply (id_eqb_trans_false _ (me cnfB)); [|assumption].
      apply id_eqb_true in Hsame as [E1 E2].
      unfold id_eqb in *. now rewrite <- E1, <- E2.
  - rewrite (evicted_side_pair cnfB nB cnB csB acB HokB PB).
    + do 2 f_equal. rewrite <- (evicts_connect_side_swap _ _ Hdiff).
      now apply evicts_connect_side_id.
    + apply (id_eqb_trans_false _ (me cnfA)); [|assumption].
      now rewrite id_eqb_sym.
Qed.

End Resolver.

Lemma check_duplicates_tie_break_witness :
  5 < @MAX_INT_STR demo_platform /\
  @store_ok demo_platform alice_conf /\
  duplicate_pair alice_conf 0 (link bob 3 false) 0 1 /\
  let cnf := alice_conf in
  let check := @check_duplicates demo_platform in
  let r := strcmp (onion_id (me cnf)) (onion_id (link bob 3 false)) in
  (0 < r -> check cnf 0 = Ret 0) /\
  (r < 0 -> check cnf 0 = Ret 1) /\
  (r = 0 -> lport (link bob 3 false) < lport (me cnf) -> check cnf 0 = Ret 0) /\
  (r = 0 -> lport (me cnf) < lport (link bob 3 false) -> check cnf 0 = Ret 1) /\
  (r = 0 -> lport (me cnf) = lport (link bob 3 false) -> check cnf 0 = Ret 0).
Proof.
  split; [exact demo_max_int_str|].
  split; [apply store2_ok; auto with demo|].
  split; [exact (alice_conf_pair 0 (or_introl eq_refl))|].
  apply (@check_duplicates_tie_break demo_platform demo_max_int_str
           alice_conf 0 (link bob 3 false) 0 1).
  - apply store2_ok; auto with demo.
  - exact (alice_conf_pair 0 (or_introl eq_refl)).
Defined.

(** The rule as the specification words it fails on a store that holds two
    links to the process's own address and port: asked about the dialled
    entry (slot 0), the resolver returns slot 0, not the accepted entry. *)
Lemma tie_break_self_pair_counterexample :
  @store_ok demo_platform self_pair_conf /\
  ~ @tie_break_as_specified demo_platform self_pair_conf 0.
Proof.
  split; [apply store2_ok; auto with demo|].
  intros H. specialize (H _ 0 1 self_pair_conf_pair).
  vm_compute in H. discriminate H.
Qed.

(** C3: with a confirmed self identity and the start index 1, inside a store
    of capacity 2, [find_contact] on the self identity returns the store
    index 0, where the sentinel [-1] is promised; it returns [-1] from the
    start index 0 only. *)
Theorem find_contact_self_from_1 :
  lport (me alice_conf) <> 0 /\
  cl_size (cl alice_conf) = 2 /\
  @find_contact demo_platform alice_conf (me alice_conf) 0 = Ret (-1) /\
  @find_contact demo_platform alice_conf (me alice_conf) 1 = Ret 0.
Proof. repeat split. cbn. lia. Qed.

Lemma holds_pair_alice : @holds_pair demo_platform alice_conf bob 0.
Proof.
  split; [apply store2_ok; auto with demo|].
  exists (link bob 3 false), 0, 1.
  split; [exact (alice_conf_pair 0 (or_introl eq_refl)) | reflexivity].
Qed.

Lemma holds_pair_alice' : @holds_pair demo_platform alice_conf' bob 0.
Proof.
  split; [apply store2_ok; auto with demo|].
  exists (link bob 4 true), 1, 0.
  split; [exact alice_conf'_pair | reflexivity].
Qed.

Lemma holds_pair_bob : @holds_pair demo_platform bob_conf alice 0.
Proof.
  split; [apply store2_ok; auto with demo|].
  exists (link alice 5 true), 1, 0.
  split; [exact bob_conf_pair | reflexivity].
Qed.

Lemma holds_pair_self : @holds_pair demo_platform self_pair_conf alice 0.
Proof.
  split; [apply store2_ok; auto with demo|].
  exists (link alice 3 false), 0, 1.
  split; [exact self_pair_conf_pair | reflexivity].
Qed.

Lemma eviction_agreement_distinct_witness :
  5 < @MAX_INT_STR demo_platform /\
  id_eqb (me alice_conf) (me bob_conf) = false /\
  id_eqb (me alice_conf) (me alice_conf') = true /\
  @holds_pair demo_platform alice_conf (me bob_conf) 0 /\
  @holds_pair demo_platform alice_conf' (me bob_conf) 0 /\
  @holds_pair demo_platform bob_conf (me alice_conf) 0 /\
  @eviction_agreement demo_platform alice_conf alice_conf' bob_conf 0 0 0.
Proof.
  split; [exact demo_max_int_str|].
  split; [reflexivity|]. split; [reflexivity|].
  split; [exact holds_pair_alice|].
  split; [exact holds_pair_alice'|].
  split; [exact holds_pair_bob|].
  apply (@eviction_agreement_distinct demo_platform demo_max_int_str).
  - reflexivity.
  - reflexivity.
  - exact holds_pair_alice.
  - exact holds_pair_alice'.
  - exact holds_pair_bob.
Defined.

(** Without the condition on the identities the agreement fails: two peers
    with one and the same address and port each hold the pair; each, asked
    about its dialled entry, designates that entry, and the two dialled
    entries are the two different links. *)
Lemma agreement_same_identity_counterexample :
  ~ @agreement_as_specified demo_platform.
Proof.
  intros H.
  destruct (H self_pair_conf self_pair_conf self_pair_conf 0 0 0 eq_refl
              holds_pair_self holds_pair_self holds_pair_self)
    as (b & HA & _ & HB).
  vm_compute in HA, HB. destruct b; discriminate.
Qed.

(** ** The contact store *)

Section Resize.

(** C7: a new capacity below 1 or below the number of used slots is refused
    and nothing changes: the call returns [-1] together with the world it
    was given. *)
Theorem realloc_contactlist_refuses (w : world) (n : Z) :
  n < 1 \/ n < used_contacts (cl (_cnf w)) ->
  realloc_contactlist w n = Ret (-1, w).
Proof.
  intros H. unfold realloc_contactlist.
  destruct (n <? 1) eqn:E1; [reflexivity|].
  destruct (n <? used_contacts (cl (_cnf w))) eqn:E2; [reflexivity|].
  apply Z.ltb_ge in E1, E2. lia.
Qed.

Lemma filter_replicate_zero (m : nat) :
  filter occupied (replicate m zero_contact) = [].
Proof.
  induction m as [|m IH]; [reflexivity|]. cbn [replicate].
  rewrite filter_cons_False; [exact IH|]. intros H. now apply H.
Qed.

Lemma filter_occupied_idemp (l : list contact_t) :
  filter occupied (filter occupied l) = filter occupied l.
Proof.
  induction l as [|c l IH]; [reflexivity|].
  rewrite filter_cons. destruct (decide (occupied c)) as [Hc|Hc]; [|exact IH].
  rewrite filter_cons_True by exact Hc. now rewrite IH.
Qed.

(** The copy loop: [pre] has been read, [done] has been written, [m] zeroed
    slots are left in the new block. *)
Lemma copy_contacts_spec (rest : list contact_t) :
  forall (pre done : list contact_t) (m : nat),
    (length (filter occupied rest) <= m)%nat ->
    copy_contacts (length rest) (Z.of_nat (length pre)) (Z.of_nat (length done))
                  (pre ++ rest) (done ++ replicate m zero_contact)
    = Ret (done ++ filter occupied rest
             ++ replicate (m - length (filter occupied rest)) zero_contact).
Proof.
  induction rest as [|c rest IH]; intros pre done m Hm.
  - cbn. now rewrite Nat.sub_0_r.
  - cbn [copy_contacts length].
    assert (Hget : array_get (pre ++ c :: rest) (Z.of_nat (length pre)) = Ret c).
    { apply array_get_Ret. split; [lia|].
      rewrite Nat2Z.id. apply list_lookup_middle. reflexivity. }
    rewrite Hget. cbn [mbind result_bind].
    replace (pre ++ c :: rest) with ((pre ++ [c]) ++ rest)
      by now rewrite <- app_assoc.
    replace (Z.of_nat (length pre) + 1) with (Z.of_nat (length (pre ++ [c])))
      by (rewrite length_app; cbn; lia).
    rewrite filter_cons in *.
    destruct (decide (occupied c)) as [Hc|Hc].
    + replace (fd c =? 0) with false by (symmetry; now apply Z.eqb_neq).
      cbn [length] in Hm. destruct m as [|m]; [lia|].
      unfold array_set.
      replace (Z.of_nat (length done) <? 0) with false
        by (symmetry; apply Z.ltb_ge; lia).
      replace (Z.of_nat (length (done ++ replicate (S m) zero_contact))
                 <=? Z.of_nat (length done)) with false
        by (symmetry; apply Z.leb_gt; rewrite length_app, length_replicate; lia).
      cbn [orb mbind result_bind]. rewrite Nat2Z.id.
      replace (<[length done := c]> (done ++ replicate (S m) zero_contact))
        with ((done ++ [c]) ++ replicate m zero_contact).
      2:{ rewrite insert_app_r_alt by lia. rewrite Nat.sub_diag. cbn.
          now rewrite <- app_assoc. }
      replace (Z.of_nat (length done) + 1) with (Z.of_nat (length (done ++ [c])))
        by (rewrite length_app; cbn; lia).
      rewrite IH by lia. cbn [length]. rewrite <- app_assoc. reflexivity.
    + replace (fd c =? 0) with true
        by (symmetry; apply Z.eqb_eq; unfold occupied in Hc; lia).
      now rewrite IH.
Qed.

Lemma realloc_contactlist_spec (w : world) (n : Z) :
  store_inv (cl (_cnf w)) -> 1 <= n -> used_contacts (cl (_cnf w)) <= n ->
  realloc_contactlist w n = Ret (0, set_cl w (compacted (cl (_cnf w)) n)).
Proof.
  intros (Hlen & _ & Hused) H1 Hn. unfold realloc_contactlist.
  replace (n <? 1) with false by (symmetry; apply Z.ltb_ge; lia).
  replace (n <? used_contacts (cl (_cnf w))) with false
    by (symmetry; apply Z.ltb_ge; lia).
  cbn [orb]. rewrite Hlen, Nat2Z.id.
  pose proof (copy_contacts_spec (contact (cl (_cnf w))) [] [] (Z.to_nat n))
    as Hcopy.
  cbn [app length] in Hcopy. change (Z.of_nat 0) with 0 in Hcopy.
  rewrite Hcopy by lia. reflexivity.
Qed.

Lemma compacted_inv (l : contactlist_t) (n : Z) :
  store_inv l -> 1 <= n -> used_contacts l <= n -> store_inv (compacted l n).
Proof.
  intros (Hlen & _ & Hused) H1 Hn. unfold store_inv, compacted. cbn.
  rewrite length_app, length_replicate, filter_app, filter_replicate_zero,
    app_nil_r, filter_occupied_idemp.
  repeat split; lia.
Qed.

(** C6: on a store that satisfies the invariant, a new capacity [n >= 1]
    that is not below the number of used slots is accepted; afterwards the
    block has [n] slots, the occupied slots of the old block stand at its
    front in their old order, followed by empty slots only, and the counter
    of used slots is the same. *)
Theorem realloc_contactlist_compacts (w : world) (n : Z) :
  store_inv (cl (_cnf w)) -> 1 <= n -> used_contacts (cl (_cnf w)) <= n ->
  exists w',
    realloc_contactlist w n = Ret (0, w') /\
    cl_size (cl (_cnf w')) = n /\
    used_contacts (cl (_cnf w')) = used_contacts (cl (_cnf w)) /\
    contact (cl (_cnf w')) =
      filter occupied (contact (cl (_cnf w)))
        ++ replicate (Z.to_nat (n - used_contacts (cl (_cnf w)))) zero_contact /\
    (forall (i : nat) c, contact (cl (_cnf w)) !! i = Some c -> occupied c ->
       exists j : nat, contact (cl (_cnf w')) !! j = Some c) /\
    store_inv (cl (_cnf w')) /\
    me (_cnf w') = me (_cnf w) /\ closed w' = closed w.
Proof.
  intros Hinv H1 Hn. exists (set_cl w (compacted (cl (_cnf w)) n)).
  split; [now apply realloc_contactlist_spec|].
  pose proof Hinv as (Hlen & _ & Hused).
  split; [reflexivity|]. split; [reflexivity|].
  assert (Hnew : contact (compacted (cl (_cnf w)) n) =
    filter occupied (contact (cl (_cnf w)))
      ++ replicate (Z.to_nat (n - used_contacts (cl (_cnf w)))) zero_contact).
  { cbn. do 2 f_equal. lia. }
  split; [exact Hnew|]. split.
  - intros i c Hi Hc. cbn [set_cl _cnf cl]. rewrite Hnew.
    assert (Hin : c ∈ filter occupied (contact (cl (_cnf w)))).
    { apply list_elem_of_filter. split; [exact Hc|].
      now apply list_elem_of_lookup_2 in Hi. }
    apply list_elem_of_lookup_1 in Hin as [j Hj]. exists j.
    rewrite lookup_app_l; [exact Hj|]. now apply lookup_lt_Some in Hj.
  - split; [now apply compacted_inv|]. split; reflexivity.
Qed.

End Resize.

Lemma store_inv_three_of_four : store_inv (cl (_cnf three_of_four)).
Proof. repeat split; cbn; lia. Qed.

Lemma realloc_contactlist_refuses_witness :
  (2 < 1 \/ 2 < used_contacts (cl (_cnf three_of_four))) /\
  realloc_contactlist three_of_four 2 = Ret (-1, three_of_four).
Proof.
  split; [right; cbn; lia|].
  apply (realloc_contactlist_refuses three_of_four 2). right. cbn. lia.
Defined.

Lemma realloc_contactlist_compacts_witness :
  store_inv (cl (_cnf three_of_four)) /\ 1 <= 3 /\
  used_contacts (cl (_cnf three_of_four)) <= 3 /\
  exists w',
    realloc_contactlist three_of_four 3 = Ret (0, w') /\
    cl_size (cl (_cnf w')) = 3 /\
    used_contacts (cl (_cnf w')) = used_contacts (cl (_cnf three_of_four)) /\
    contact (cl (_cnf w')) =
      filter occupied (contact (cl (_cnf three_of_four)))
        ++ replicate
             (Z.to_nat (3 - used_contacts (cl (_cnf three_of_four))))
             zero_contact /\
    (forall (i : nat) c,
       contact (cl (_cnf three_of_four)) !! i = Some c -> occupied c ->
       exists j : nat, contact (cl (_cnf w')) !! j = Some c) /\
    store_inv (cl (_cnf w')) /\
    me (_cnf w') = me (_cnf three_of_four) /\ closed w' = closed three_of_four.
Proof.
  split; [exact store_inv_three_of_four|].
  split; [lia|]. split; [cbn; lia|].
  apply (realloc_contactlist_compacts three_of_four 3).
  - exact store_inv_three_of_four.
  - lia.
  - cbn. lia.
Defined.

Section AddDel.
Context {P : Platform}.
Hypothesis HK : 1 <= INIT_CONTACTS.

Lemma add_scan_at (l : contactlist_t) (fd' : Z) (pre : list contact_t) :
  forall pre0 c rest,
    contact l = pre0 ++ pre ++ c :: rest -> Forall occupied pre -> fd c = 0 ->
    add_scan (length (pre ++ c :: rest)) (Z.of_nat (length pre0)) fd' l =
      Ret (Z.of_nat (length (pre0 ++ pre)),
           mk_contactlist (pre0 ++ pre ++ set_fd c fd' :: rest)
                          (cl_size l) (used_contacts l + 1)).
Proof.
  induction pre as [|x pre IH]; intros pre0 c rest Hl Hocc Hc.
  - cbn [app length add_scan] in *.
    assert (Hget : array_get (contact l) (Z.of_nat (length pre0)) = Ret c).
    { apply array_get_Ret. split; [lia|].
      rewrite Nat2Z.id, Hl. now apply list_lookup_middle. }
    rewrite Hget. cbn [mbind result_bind]. rewrite Hc. cbn [Z.eqb].
    unfold array_set.
    replace (Z.of_nat (length pre0) <? 0) with false
      by (symmetry; apply Z.ltb_ge; lia).
    replace (Z.of_nat (length (contact l)) <=? Z.of_nat (length pre0)) with false
      by (symmetry; apply Z.leb_gt; rewrite Hl, length_app; cbn; lia).
    cbn [orb mbind result_bind]. rewrite Nat2Z.id, Hl, app_nil_r.
    rewrite insert_app_r_alt by lia. rewrite Nat.sub_diag. reflexivity.
  - cbn [app length add_scan] in *.
    assert (Hget : array_get (contact l) (Z.of_nat (length pre0)) = Ret x).
    { apply array_get_Ret. split; [lia|].
      rewrite Nat2Z.id, Hl. now apply list_lookup_middle. }
    rewrite Hget. cbn [mbind result_bind].
    apply Forall_cons in Hocc as [Hx Hocc].
    replace (fd x =? 0) with false by (symmetry; now apply Z.eqb_neq).
    replace (Z.of_nat (length pre0) + 1) with (Z.of_nat (length (pre0 ++ [x])))
      by (rewrite length_app; cbn; lia).
    rewrite (IH (pre0 ++ [x]) c rest); [| now rewrite <- app_assoc | | ];
      try assumption.
    now rewrite <- !app_assoc.
Qed.

Lemma first_empty_slot (l : list contact_t) :
  (length (filter occupied l) < length l)%nat ->
  exists pre c rest, l = pre ++ c :: rest /\ Forall occupied pre /\ fd c = 0.
Proof.
  induction l as [|x l IH]; cbn [length]; intros H; [lia|].
  rewrite filter_cons in H. destruct (decide (occupied x)) as [Hx|Hx].
  - cbn [length] in H. destruct IH as (pre & c & rest & -> & Hpre & Hc); [lia|].
    exists (x :: pre), c, rest. repeat split; [now constructor | exact Hc].
  - exists [], x, l. repeat split; [constructor|].
    unfold occupied in Hx. lia.
Qed.

Lemma filter_fill (pre rest : list contact_t) (c : contact_t) (fd' : Z) :
  fd c = 0 -> fd' <> 0 ->
  length (filter occupied (pre ++ set_fd c fd' :: rest)) =
    S (length (filter occupied (pre ++ c :: rest))).
Proof.
  intros Hc Hfd. rewrite !filter_app, !length_app.
  rewrite (filter_cons_True occupied (set_fd c fd')) by exact Hfd.
  rewrite (filter_cons_False occupied c) by (intros H; now apply H).
  cbn. lia.
Qed.

Lemma add_scan_spec (l : contactlist_t) (fd' : Z) :
  store_inv l -> used_contacts l < cl_size l -> fd' <> 0 ->
  exists i l',
    add_scan (Z.to_nat (cl_size l)) 0 fd' l = Ret (i, l') /\
    store_inv l' /\ used_contacts l' = used_contacts l + 1 /\
    cl_size l' = cl_size l /\ 0 <= i < cl_size l.
Proof.
  intros (Hlen & H1 & Hused) Hfree Hfd.
  destruct (first_empty_slot (contact l)) as (pre & c & rest & Hl & Hpre & Hc);
    [lia|].
  pose proof (add_scan_at l fd' pre [] c rest Hl Hpre Hc) as Hscan.
  cbn [app length] in Hscan. change (Z.of_nat 0) with 0 in Hscan.
  eexists _, _. split.
  { replace (Z.to_nat (cl_size l)) with (length (pre ++ c :: rest))
      by (rewrite Hlen, Hl; lia).
    exact Hscan. }
  assert (Hlen' : length (pre ++ set_fd c fd' :: rest)
                  = length (pre ++ c :: rest))
    by (rewrite !length_app; reflexivity).
  cbn [contact cl_size used_contacts]. rewrite Hl in Hlen, Hused.
  split; [|split; [reflexivity|split; [reflexivity|]]].
  - repeat split; cbn [contact cl_size used_contacts].
    + rewrite Hlen'. exact Hlen.
    + exact H1.
    + rewrite (filter_fill pre rest c fd' Hc Hfd). lia.
  - rewrite length_app in Hlen. cbn [length] in Hlen. lia.
Qed.

(** [add] on a store that satisfies the invariant. *)
Lemma add_contact_spec (w : world) (fd' : Z) :
  store_inv (cl (_cnf w)) -> fd' <> 0 ->
  exists i w',
    add_contact w fd' = Ret (i, w') /\
    store_inv (cl (_cnf w')) /\
    used_contacts (cl (_cnf w')) = used_contacts (cl (_cnf w)) + 1 /\
    cl_size (cl (_cnf w')) =
      (if used_contacts (cl (_cnf w)) =? cl_size (cl (_cnf w))
       then cl_size (cl (_cnf w)) + INIT_CONTACTS
       else cl_size (cl (_cnf w))) /\
    0 <= i < cl_size (cl (_cnf w')).
Proof.
  intros Hinv Hfd. pose proof Hinv as (Hlen & H1 & Hused).
  pose proof (length_filter occupied (contact (cl (_cnf w)))) as Hle.
  unfold add_contact.
  destruct (used_contacts (cl (_cnf w)) =? cl_size (cl (_cnf w))) eqn:E.
  - apply Z.eqb_eq in E.
    rewrite (realloc_contactlist_spec w _ Hinv) by lia.
    cbn [mbind result_bind]. cbn [Z.ltb Z.compare].
    assert (Hinv1 : store_inv (compacted (cl (_cnf w))
                                 (cl_size (cl (_cnf w)) + INIT_CONTACTS)))
      by (apply compacted_inv; [exact Hinv | lia | lia]).
    destruct (add_scan_spec _ fd' Hinv1) as (i & l' & Hscan & Hinv' & Hu & Hc & Hi);
      [cbn; lia | exact Hfd |].
    cbn [set_cl _cnf cl]. cbn [compacted cl_size] in Hscan |- *. rewrite Hscan.
    cbn [mbind result_bind]. exists i, (set_cl (set_cl w (compacted (cl (_cnf w)) (cl_size (cl (_cnf w)) + INIT_CONTACTS))) l').
    split; [reflexivity|]. cbn [set_cl _cnf cl]. cbn in Hu, Hc, Hi.
    split; [exact Hinv'|]. split; [exact Hu|]. split; [exact Hc|]. lia.
  - apply Z.eqb_neq in E. cbn [mbind result_bind]. cbn [Z.ltb Z.compare].
    destruct (add_scan_spec _ fd' Hinv) as (i & l' & Hscan & Hinv' & Hu & Hc & Hi);
      [lia | exact Hfd |].
    rewrite Hscan. cbn [mbind result_bind]. exists i, (set_cl w l').
    split; [reflexivity|]. cbn [set_cl _cnf cl].
    split; [exact Hinv'|]. split; [exact Hu|]. split; [exact Hc|]. lia.
Qed.

End AddDel.

Section Remove.
Context {P : Platform}.

Lemma filter_clear (pre rest : list contact_t) (c : contact_t) :
  occupied c ->
  length (filter occupied (pre ++ c :: rest)) =
    S (length (filter occupied (pre ++ zero_contact :: rest))).
Proof.
  intros Hc. rewrite !filter_app, !length_app.
  rewrite (filter_cons_True occupied c) by exact Hc.
  rewrite (filter_cons_False occupied zero_contact) by (intros H; now apply H).
  cbn. lia.
Qed.

(** The body of [del_contact] up to the test for shrinking. *)
Lemma del_contact_occupied (w : world) (n : Z) (c : contact_t) :
  slot (_cnf w) n c -> occupied c -> n < cl_size (cl (_cnf w)) ->
  let l := cl (_cnf w) in
  let l1 := mk_contactlist (<[Z.to_nat n := zero_contact]> (contact l))
                           (cl_size l) (used_contacts l - 1) in
  let w1 := mk_world (mk_conf (me (_cnf w)) l1) (fd c :: closed w) in
  del_contact w n =
    if (used_contacts l1 =? cl_size l1 - INIT_CONTACTS)
       && negb (used_contacts l1 =? 0)
    then '(r, w2) ← realloc_contactlist w1 (cl_size l1 - INIT_CONTACTS);
         if r <? 0 then Ret (-1, w2) else Ret (0, w2)
    else Ret (0, w1).
Proof.
  intros Hslot Hc Hn l l1 w1. subst l l1 w1. unfold del_contact.
  unfold slot in Hslot.
  pose proof Hslot as Hget. apply array_get_Ret in Hget as [H0 Hlook].
  replace (n <? 0) with false by (symmetry; apply Z.ltb_ge; lia).
  replace (cl_size (cl (_cnf w)) <=? n) with false
    by (symmetry; apply Z.leb_gt; lia).
  cbn [orb]. rewrite Hslot. cbn [mbind result_bind].
  replace (fd c =? 0) with false by (symmetry; now apply Z.eqb_neq).
  unfold array_set.
  replace (n <? 0) with false by (symmetry; apply Z.ltb_ge; lia).
  apply lookup_lt_Some in Hlook.
  replace (Z.of_nat (length (contact (cl (_cnf w)))) <=? n) with false
    by (symmetry; apply Z.leb_gt; lia).
  reflexivity.
Qed.

Lemma del_contact_empty (w : world) (n : Z) (c : contact_t) :
  slot (_cnf w) n c -> fd c = 0 -> n < cl_size (cl (_cnf w)) ->
  del_contact w n = Ret (0, w).
Proof.
  intros Hslot Hc Hn. unfold del_contact. unfold slot in Hslot.
  pose proof Hslot as Hget. apply array_get_Ret in Hget as [H0 _].
  replace (n <? 0) with false by (symmetry; apply Z.ltb_ge; lia).
  replace (cl_size (cl (_cnf w)) <=? n) with false
    by (symmetry; apply Z.leb_gt; lia).
  cbn [orb]. rewrite Hslot. cbn [mbind result_bind]. now rewrite Hc.
Qed.

(** C8 (amended): when the first call does not shrink the store (after it,
    the number of used slots is 0 or differs from the capacity less the
    increment), two calls of [remove] with the index of an occupied slot both
    return success: the first closes the handle, zeroes the slot and takes
    exactly one off [used]; the second finds the slot empty and changes
    nothing. *)
Theorem del_contact_twice (w : world) (n : Z) (c : contact_t) :
  slot (_cnf w) n c -> occupied c -> n < cl_size (cl (_cnf w)) ->
  ~ (used_contacts (cl (_cnf w)) - 1 = cl_size (cl (_cnf w)) - INIT_CONTACTS
     /\ used_contacts (cl (_cnf w)) - 1 <> 0) ->
  exists w1,
    del_contact w n = Ret (0, w1) /\
    used_contacts (cl (_cnf w1)) = used_contacts (cl (_cnf w)) - 1 /\
    cl_size (cl (_cnf w1)) = cl_size (cl (_cnf w)) /\
    contact (cl (_cnf w1)) =
      <[Z.to_nat n := zero_contact]> (contact (cl (_cnf w))) /\
    closed w1 = fd c :: closed w /\
    del_contact w1 n = Ret (0, w1).
Proof.
  intros Hslot Hc Hn Hkeep.
  rewrite (del_contact_occupied w n c Hslot Hc Hn). cbv zeta.
  cbn [used_contacts cl_size].
  destruct ((used_contacts (cl (_cnf w)) - 1
               =? cl_size (cl (_cnf w)) - INIT_CONTACTS)
            && negb (used_contacts (cl (_cnf w)) - 1 =? 0)) eqn:E.
  { exfalso. apply Hkeep. apply andb_prop in E as [E1 E2].
    apply Z.eqb_eq in E1. apply negb_true_iff, Z.eqb_neq in E2. auto. }
  eexists. split; [reflexivity|]. cbn [_cnf cl used_contacts cl_size contact closed].
  repeat (split; [reflexivity|]).
  apply (del_contact_empty _ n zero_contact); [|reflexivity|exact Hn].
  unfold slot in *. cbn [_cnf cl contact].
  apply array_get_Ret in Hslot as [H0 Hlook].
  apply array_get_Ret. split; [exact H0|].
  apply list_lookup_insert_eq. now apply lookup_lt_Some in Hlook.
Qed.

(** [remove] of an occupied slot on a store that satisfies the invariant. *)
Lemma del_contact_spec (w : world) (n : Z) (c : contact_t) :
  store_inv (cl (_cnf w)) -> slot (_cnf w) n c -> occupied c ->
  exists w',
    del_contact w n = Ret (0, w') /\
    store_inv (cl (_cnf w')) /\
    used_contacts (cl (_cnf w')) = used_contacts (cl (_cnf w)) - 1 /\
    cl_size (cl (_cnf w')) =
      (if (used_contacts (cl (_cnf w)) - 1
             =? cl_size (cl (_cnf w)) - INIT_CONTACTS)
          && negb (used_contacts (cl (_cnf w)) - 1 =? 0)
       then cl_size (cl (_cnf w)) - INIT_CONTACTS
       else cl_size (cl (_cnf w))).
Proof.
  intros Hinv Hslot Hc. pose proof Hinv as (Hlen & H1 & Hused).
  pose proof Hslot as Hget. apply array_get_Ret in Hget as [H0 Hlook].
  pose proof (lookup_lt_Some _ _ _ Hlook) as Hlt.
  assert (Hn : n < cl_size (cl (_cnf w))) by lia.
  rewrite (del_contact_occupied w n c Hslot Hc Hn). cbv zeta.
  cbn [used_contacts cl_size].
  set (l1 := mk_contactlist
               (<[Z.to_nat n := zero_contact]> (contact (cl (_cnf w))))
               (cl_size (cl (_cnf w))) (used_contacts (cl (_cnf w)) - 1)).
  set (w1 := mk_world (mk_conf (me (_cnf w)) l1) (fd c :: closed w)).
  assert (Hinv1 : store_inv (cl (_cnf w1))).
  { cbn. repeat split; cbn; [now rewrite length_insert | exact H1 |].
    apply list_elem_of_split_length in Hlook as (pre & rest & Hl & Hi).
    rewrite Hused, Hl, Hi, insert_app_r_alt, Nat.sub_diag by lia. cbn.
    rewrite (filter_clear pre rest c Hc). lia. }
  destruct ((used_contacts (cl (_cnf w)) - 1
               =? cl_size (cl (_cnf w)) - INIT_CONTACTS)
            && negb (used_contacts (cl (_cnf w)) - 1 =? 0)) eqn:E.
  - apply andb_prop in E as [E1 E2].
    apply Z.eqb_eq in E1. apply negb_true_iff, Z.eqb_neq in E2.
    pose proof Hinv1 as (_ & _ & Hused1). cbn in Hused1.
    rewrite (realloc_contactlist_spec w1 _ Hinv1) by (cbn; lia).
    cbn [mbind result_bind]. cbn [Z.ltb Z.compare].
    eexists. split; [reflexivity|]. cbn [set_cl _cnf cl].
    split; [apply compacted_inv; [exact Hinv1 | cbn; lia | cbn; lia]|].
    split; reflexivity.
  - exists w1. split; [reflexivity|]. split; [exact Hinv1|]. split; reflexivity.
Qed.

(** Any call of [remove] on a store that satisfies the invariant: nothing
    changes, or an occupied slot was removed. *)
Lemma del_contact_any (w : world) (n : Z) :
  store_inv (cl (_cnf w)) ->
  exists r w',
    del_contact w n = Ret (r, w') /\
    (w' = w \/
     store_inv (cl (_cnf w')) /\
     used_contacts (cl (_cnf w')) = used_contacts (cl (_cnf w)) - 1 /\
     1 <= used_contacts (cl (_cnf w)) /\
     cl_size (cl (_cnf w')) =
       (if (used_contacts (cl (_cnf w)) - 1
              =? cl_size (cl (_cnf w)) - INIT_CONTACTS)
           && negb (used_contacts (cl (_cnf w)) - 1 =? 0)
        then cl_size (cl (_cnf w)) - INIT_CONTACTS
        else cl_size (cl (_cnf w)))).
Proof.
  intros Hinv. pose proof Hinv as (Hlen & H1 & Hused).
  destruct (Z_lt_le_dec n 0) as [Hneg|Hpos].
  { exists (-1), w. split; [|now left]. unfold del_contact.
    apply Z.ltb_lt in Hneg. now rewrite Hneg. }
  destruct (Z_lt_le_dec n (cl_size (cl (_cnf w)))) as [Hlt|Hge].
  2:{ exists (-1), w. split; [|now left]. unfold del_contact.
      apply Z.leb_le in Hge. now rewrite Hge, orb_true_r. }
  destruct (array_get_lt (contact (cl (_cnf w))) n) as [c Hc]; [lia|].
  destruct (Z.eq_dec (fd c) 0) as [Hz|Hnz].
  - exists 0, w. split; [|now left]. now apply (del_contact_empty w n c).
  - destruct (del_contact_spec w n c Hinv Hc Hnz) as (w' & Hd & Hi & Hu & Hs).
    exists 0, w'. split; [exact Hd|]. right.
    split; [exact Hi|]. split; [exact Hu|]. split; [|exact Hs].
    pose proof Hi as (_ & _ & Hused'). lia.
Qed.

End Remove.

Lemma del_contact_twice_witness :
  slot (_cnf two_of_two) 0 (set_fd zero_contact 3) /\
  occupied (set_fd zero_contact 3) /\
  0 < cl_size (cl (_cnf two_of_two)) /\
  ~ (used_contacts (cl (_cnf two_of_two)) - 1
       = cl_size (cl (_cnf two_of_two)) - @INIT_CONTACTS demo_platform
     /\ used_contacts (cl (_cnf two_of_two)) - 1 <> 0) /\
  exists w1,
    @del_contact demo_platform two_of_two 0 = Ret (0, w1) /\
    used_contacts (cl (_cnf w1)) = used_contacts (cl (_cnf two_of_two)) - 1 /\
    cl_size (cl (_cnf w1)) = cl_size (cl (_cnf two_of_two)) /\
    contact (cl (_cnf w1)) =
      <[Z.to_nat 0 := zero_contact]> (contact (cl (_cnf two_of_two))) /\
    closed w1 = fd (set_fd zero_contact 3) :: closed two_of_two /\
    @del_contact demo_platform w1 0 = Ret (0, w1).
Proof.
  assert (H1 : slot (_cnf two_of_two) 0 (set_fd zero_contact 3)) by reflexivity.
  assert (H2 : occupied (set_fd zero_contact 3)) by (unfold occupied; cbn; lia).
  assert (H3 : 0 < cl_size (cl (_cnf two_of_two))) by (cbn; lia).
  assert (H4 : ~ (used_contacts (cl (_cnf two_of_two)) - 1
                    = cl_size (cl (_cnf two_of_two)) - @INIT_CONTACTS demo_platform
                  /\ used_contacts (cl (_cnf two_of_two)) - 1 <> 0))
    by (cbn; lia).
  split; [exact H1|]. split; [exact H2|]. split; [exact H3|]. split; [exact H4|].
  exact (@del_contact_twice demo_platform two_of_two 0 _ H1 H2 H3 H4).
Defined.

(** Removal as the specification words it fails when the first call shrinks
    the store: with three of four slots used and increment 2, removing slot
    0 compacts the other two contacts into a store of capacity 2, and the
    second call with index 0 removes the contact that now stands there. *)
Lemma removal_shrink_counterexample :
  store_inv (cl (_cnf three_of_four)) /\
  ~ @removal_idempotent_as_specified demo_platform three_of_four 0.
Proof.
  split; [exact store_inv_three_of_four|].
  intros H.
  destruct (H (set_fd zero_contact 3)) as (w1 & H1 & _ & H3);
    [reflexivity | unfold occupied; cbn; lia | cbn; lia |].
  vm_compute in H1. injection H1 as <-.
  vm_compute in H3. discriminate H3.
Qed.

(** ** Growth and shrinking *)

Section Hysteresis.
Context {P : Platform}.
Hypothesis HK : 1 <= INIT_CONTACTS.

Lemma empty_world_inv (self : contact_t) (k : Z) :
  1 <= k -> store_inv (cl (_cnf (empty_world self k))).
Proof.
  intros Hk. repeat split; cbn.
  - rewrite length_replicate. lia.
  - exact Hk.
  - now rewrite filter_replicate_zero.
Qed.

Lemma add_contacts_app (a b : list Z) :
  forall w, add_contacts (a ++ b) w = (w' ← add_contacts a w; add_contacts b w').
Proof.
  induction a as [|f a IH]; intros w; [reflexivity|].
  cbn [app add_contacts]. destruct (add_contact w f) as [[i w1]|]; cbn; auto.
Qed.

(** Once the capacity is the increment, no [remove] changes it. *)
Lemma del_contacts_keep (ns : list Z) :
  forall w, store_inv (cl (_cnf w)) ->
    cl_size (cl (_cnf w)) = INIT_CONTACTS ->
    exists w', del_contacts ns w = Ret w' /\
      cl_size (cl (_cnf w')) = INIT_CONTACTS /\
      0 <= used_contacts (cl (_cnf w')) <= used_contacts (cl (_cnf w)).
Proof.
  induction ns as [|n ns IH]; intros w Hinv Hcap.
  - exists w. cbn. pose proof Hinv as (_ & _ & Hu). repeat split; lia.
  - destruct (del_contact_any w n Hinv) as (r & w1 & Hd & Hcase).
    cbn [del_contacts]. rewrite Hd. cbn [mbind result_bind].
    destruct Hcase as [-> | (Hi1 & Hu1 & Hpos & Hc1)].
    + exact (IH w Hinv Hcap).
    + rewrite Hcap, Z.sub_diag in Hc1.
      destruct (used_contacts (cl (_cnf w)) - 1 =? 0); cbn in Hc1;
        destruct (IH w1 Hi1 Hc1) as (w' & Hr & Hc' & Hu');
        exists w'; repeat split; try assumption; lia.
Qed.

End Hysteresis.

(** ** Rejected lines *)

Section Rejection.
Context {P : Platform}.

(** A line without the space separator is refused. *)
Lemma string_to_contact_no_space (ct : contact_t) (s : string) :
  in_set SP s = false -> string_to_contact ct s = (-1, ct).
Proof.
  intros H. unfold string_to_contact. rewrite (strtok_r_whole SP s H).
  destruct (String.eqb s ""); [reflexivity|].
  now rewrite strtok_r_empty.
Qed.

(** A line whose address token fails the format predicate is refused. *)
Lemma string_to_contact_bad_onion (ct : contact_t) (s o rest : string) :
  strtok_r s (String SP "") = (Some o, rest) -> is_valid_onion o = false ->
  string_to_contact ct s = (-1, ct).
Proof.
  intros Htok Ho. unfold string_to_contact. rewrite Htok.
  destruct (strtok_r rest nl) as [[p|] r]; [|reflexivity].
  now rewrite Ho.
Qed.

(** A line is refused when [strtol] stops before the end of the port token
    (no digits at all, or characters after the digits), and when the value
    as an [int] is outside 1..65535. *)
Lemma string_to_contact_bad_port (ct : contact_t) (s o rest p r : string)
    (l : Z) (ptr : string) :
  strtok_r s (String SP "") = (Some o, rest) ->
  strtok_r rest nl = (Some p, r) ->
  strtol p = (l, ptr) ->
  ptr <> EmptyString \/ ~ 1 <= int_of_long l <= 65535 ->
  string_to_contact ct s = (-1, ct).
Proof.
  intros Htok Hport Hl Hbad. unfold string_to_contact.
  rewrite Htok, Hport, Hl.
  destruct (is_valid_onion o); [|reflexivity]. cbn [negb].
  destruct Hbad as [Hptr | Hrange].
  - destruct ptr; [congruence | reflexivity].
  - destruct (is_valid_port (int_of_long l)) eqn:E.
    + apply is_valid_port_true in E. contradiction.
    + now rewrite orb_true_r.
Qed.

End Rejection.

(** C5: a line whose port token is 4294967376, a port greater than 65535,
    is accepted: [strtol] returns the value as a [long], the cast to [int]
    keeps its low 32 bits, 80, and the range test is made on that. *)
Theorem string_to_contact_accepts_wrapped_port :
  strtol "4294967376" = (4294967376, EmptyString) /\
  65535 < 4294967376 /\
  @string_to_contact demo_platform zero_contact wrapped_port_line =
    (0, mk_contact 0 "" "aaaaaaaaaaaaaaaa.onion" 80 false).
Proof. split; [reflexivity|]. split; [lia | reflexivity]. Qed.

(** ** receive_contacts *)

Section Receive.
Context {P : Platform}.

(** A pass that meets a line that does not decode leaves [line_end] on the
    terminator of that line; when the part extracted from there does not
    decode either, every later pass is the same pass. *)
Lemma receive_loop_stuck (pdu : dchat_pdu_t) (e : Z) (line : string) :
  e < content_length pdu -> e <> -1 ->
  get_content_part pdu e LF = (e, line) ->
  (forall ct, string_to_contact ct line = (-1, ct)) ->
  forall fuel w ct ret new_contacts known_contacts,
    receive_loop fuel pdu w ct ret new_contacts known_contacts e = None.
Proof.
  intros He Hne Hpart Hfail fuel.
  induction fuel as [|fuel IH]; intros w ct ret nc kc; [reflexivity|].
  cbn [receive_loop].
  replace (e <? content_length pdu) with true by (symmetry; now apply Z.ltb_lt).
  rewrite Hpart.
  replace (e =? -1) with false by (symmetry; now apply Z.eqb_neq).
  rewrite Hfail. cbn [Z.eqb Pos.eqb]. apply IH.
Qed.

End Receive.

(** C10: on the message whose body is the single line ["x\n"], which has
    no separator and does not decode, [receive_contacts] does not return,
    whatever the number of passes allowed: after the failure the next pass
    starts on the terminator of the same line, extracts ["\n"], fails again,
    and so on. *)
Theorem receive_contacts_bad_line_diverges (fuel : nat) (w : world) :
  @receive_contacts demo_platform fuel w bad_line_pdu = None.
Proof.
  unfold receive_contacts. destruct fuel as [|fuel]; [reflexivity|].
  cbn [receive_loop].
  change (0 <? content_length bad_line_pdu) with true. cbv iota.
  change (get_content_part bad_line_pdu 0 LF) with (1, "x" +:+ nl).
  cbv iota. change (1 =? -1) with false. cbv iota.
  rewrite (string_to_contact_no_space zero_contact ("x" +:+ nl)) by reflexivity.
  cbn [Z.eqb Pos.eqb].
  apply (receive_loop_stuck bad_line_pdu 1 nl); try reflexivity; lia.
Qed.

(** On a message of two lines that decode the loop ends after two passes:
    received by Alice with an empty store, the first line is her own
    identity and counts as known, the second is the one new contact. *)
Lemma receive_contacts_two_lines :
  @receive_contacts demo_platform 3 (empty_world alice 2) two_lines_pdu
    = Some (Ret (1, empty_world alice 2)).
Proof. vm_compute. reflexivity. Qed.

(** * Further properties of the wire codec *)

Section CodecMore.
Context {P : Platform}.

Lemma strn_length (n : nat) (s : string) : (String.length (strn n s) <= n)%nat.
Proof.
  revert s. induction n as [|n IH]; intros [|c s]; simpl; try lia.
  specialize (IH s). lia.
Qed.

(** X1: two contacts with a valid address and port have the same wire form
    exactly when they have the same address and the same port. *)
Theorem wire_identity (a b : contact_t) :
  5 < MAX_INT_STR -> valid_contact a -> valid_contact b ->
  (contact_to_string a = contact_to_string b <->
   onion_id a = onion_id b /\ lport a = lport b).
Proof.
  intros HM Ha Hb. rewrite (wire_form a HM Ha), (wire_form b HM Hb).
  destruct Ha as [_ Hpa], Hb as [_ Hpb]. split.
  - intros [= E]. apply wire_inj in E as [Eo Ed];
      try (apply decimal_digits; lia).
    split; [exact Eo|]. apply decimal_inj in Ed; lia.
  - intros [-> ->]. reflexivity.
Qed.

Lemma string_to_contact_cases (ct : contact_t) (s : string) :
  let r := fst (string_to_contact ct s) in
  let ct' := snd (string_to_contact ct s) in
  (r = -1 /\ ct' = ct) \/
  (r = 0 /\ fd ct' = fd ct /\ name ct' = name ct /\
   accepted ct' = accepted ct /\ 1 <= lport ct' <= 65535 /\
   (String.length (onion_id ct') <= ONION_ADDRLEN)%nat /\
   exists tok, is_valid_onion tok = true /\
               onion_id ct' = strn ONION_ADDRLEN tok).
Proof.
  cbv zeta. unfold string_to_contact.
  destruct (strtok_r s (String SP "")) as [[o|] rest]; [|now left].
  destruct (strtok_r rest nl) as [[p|] r']; [|now left].
  destruct (is_valid_onion o) eqn:Ho; [|now left]. cbn [negb].
  destruct (strtol p) as [l ptr].
  destruct (String.eqb ptr ""); [|now left]. cbn [negb orb].
  destruct (is_valid_port (int_of_long l)) eqn:Hp; [|now left].
  right. cbn. apply is_valid_port_true in Hp.
  repeat split; try lia; [apply strn_length|]. now exists o.
Qed.

(** X2: [string_to_contact] either fails, returning [-1] and leaving the
    contact as it was, or succeeds, returning [0]; then it has written the
    address and the port only: the descriptor, the name and the accepted flag
    are untouched, the port is in 1..65535, and the address is the leading
    [ONION_ADDRLEN] characters of a token that passed the format predicate. *)
Theorem string_to_contact_frame (ct : contact_t) (s : string) :
  let r := fst (string_to_contact ct s) in
  let ct' := snd (string_to_contact ct s) in
  (r = -1 /\ ct' = ct) \/
  (r = 0 /\ fd ct' = fd ct /\ name ct' = name ct /\
   accepted ct' = accepted ct /\ 1 <= lport ct' <= 65535 /\
   (String.length (onion_id ct') <= ONION_ADDRLEN)%nat /\
   exists tok, is_valid_onion tok = true /\
               onion_id ct' = strn ONION_ADDRLEN tok).
Proof. exact (string_to_contact_cases ct s). Qed.

(** X3: a contact that [string_to_contact] has accepted can be printed, and
    parsing what is printed gives the same contact again: the decoded form
    is a fixed point of encode-then-decode. *)
Theorem string_to_contact_normal_form (ct ct' : contact_t) (s : string) :
  onion_wire_safe -> 5 < MAX_INT_STR ->
  string_to_contact ct s = (0, ct') ->
  exists line,
    contact_to_string ct' = Some line /\
    line = onion_id ct' +:+ String SP (decimal (lport ct') +:+ nl) /\
    string_to_contact ct line = (0, ct').
Proof.
  intros Hsafe HM Hs.
  pose proof (string_to_contact_cases ct s) as Hf. rewrite Hs in Hf.
  cbn in Hf. destruct Hf as [[Hr _] | (_ & Hfd & Hname & Hacc & Hp & _ & tok & Htok & Ho)];
    [lia|].
  destruct (Hsafe tok Htok) as (_ & _ & Hlen).
  rewrite strn_all in Ho by exact Hlen.
  assert (Hv : is_valid_onion (onion_id ct') = true) by now rewrite Ho.
  eexists. split; [apply wire_form; [exact HM | split; assumption]|].
  split; [reflexivity|].
  rewrite (string_to_contact_wire ct _ _ Hsafe Hv Hp).
  f_equal. destruct ct'. cbn in *. congruence.
Qed.

Lemma skip_set_spaces (k : nat) (s : string) :
  skip_set (String SP "") (spaces k +:+ s) = skip_set (String SP "") s.
Proof. induction k as [|k IH]; [reflexivity | exact IH]. Qed.

Lemma skip_space_spaces (k : nat) (s : string) :
  skip_space (spaces k +:+ s) = skip_space s.
Proof. induction k as [|k IH]; [reflexivity | exact IH]. Qed.

Lemma in_set_spaces (c : ascii) (k : nat) :
  Ascii.eqb c SP = false -> in_set c (spaces k) = false.
Proof.
  intros H. induction k as [|k IH]; [reflexivity|].
  cbn [spaces in_set]. now rewrite H, IH.
Qed.

Lemma strtol_padded (m : nat) (plus : bool) (d : string) :
  d <> EmptyString -> digits_only d = true ->
  strtol (spaces m +:+ plus_sign plus +:+ d) =
    (Z.min LONG_MAX (fst (scan_digits 0 d)), snd (scan_digits 0 d)).
Proof.
  intros Hne Hd. destruct d as [|c d]; [congruence|].
  pose proof Hd as Hd'. cbn [digits_only] in Hd'.
  apply andb_prop in Hd' as [Hc _].
  destruct (isdigit_plain c Hc) as (Hsp & Hm & Hp).
  unfold strtol. rewrite skip_space_spaces.
  destruct plus.
  - change (plus_sign true +:+ String c d) with (String "+"%char (String c d)).
    cbn [skip_space]. change (isspace "+") with false. cbv iota.
    change (Ascii.eqb "+" "-") with false.
    change (Ascii.eqb "+" "+") with true. cbv iota. rewrite Hc.
    destruct (scan_digits 0 (String c d)). reflexivity.
  - change (plus_sign false +:+ String c d) with (String c d).
    cbn [skip_space]. rewrite Hsp, Hm, Hp, Hc.
    destruct (scan_digits 0 (String c d)). reflexivity.
Qed.

(** X4: [string_to_contact] is lenient around a well-formed line: spaces in
    front of the address, spaces and a plus sign in front of the port digits,
    and any text after the terminating newline are all ignored. *)
Theorem string_to_contact_lenient (ct : contact_t) (o junk : string) (p : Z)
    (k m : nat) (plus : bool) :
  onion_wire_safe -> is_valid_onion o = true -> 1 <= p <= 65535 ->
  string_to_contact ct
    (spaces k +:+ o +:+ String SP
       (spaces m +:+ plus_sign plus +:+ decimal p +:+ nl +:+ junk))
  = (0, mk_contact (fd ct) (name ct) o p (accepted ct)).
Proof.
  intros Hsafe Ho Hp. destruct (Hsafe o Ho) as (Hne & Hsp & Hlen).
  set (sign := plus_sign plus).
  set (tok := spaces m +:+ sign +:+ decimal p).
  assert (Hrest : spaces m +:+ sign +:+ decimal p +:+ nl +:+ junk
                  = tok +:+ String LF junk).
  { unfold tok, nl. now rewrite !app_assoc_str. }
  rewrite Hrest. unfold string_to_contact.
  assert (Htok1 : strtok_r (spaces k +:+ o +:+ String SP (tok +:+ String LF junk))
                           (String SP "") = (Some o, tok +:+ String LF junk)).
  { unfold strtok_r. rewrite skip_set_spaces.
    exact (strtok_r_stop SP o _ Hne Hsp). }
  rewrite Htok1.
  assert (Hdig : digits_only (decimal p) = true) by (apply decimal_digits; lia).
  assert (Htok2 : strtok_r (tok +:+ String LF junk) nl = (Some tok, junk)).
  { apply (strtok_r_stop LF tok junk).
    - unfold tok. destruct m; [|discriminate].
      destruct plus; [discriminate|]. cbn. apply decimal_nonempty.
    - unfold tok. rewrite !in_set_app, in_set_spaces by reflexivity.
      rewrite (digits_only_no_char LF (decimal p)) by (reflexivity || exact Hdig).
      now destruct plus. }
  rewrite Htok2, Ho. cbn [negb].
  unfold tok, sign. rewrite strtol_padded by (apply decimal_nonempty || exact Hdig).
  rewrite decimal_scan by lia. cbn [fst snd].
  replace (Z.min LONG_MAX p) with p by (unfold LONG_MAX; lia).
  rewrite int_of_long_small by lia.
  apply is_valid_port_true in Hp. rewrite Hp. cbn.
  now rewrite strn_all.
Qed.

End CodecMore.

Lemma string_to_contact_normal_form_witness :
  @onion_wire_safe demo_platform /\
  5 < @MAX_INT_STR demo_platform /\
  @string_to_contact demo_platform zero_contact wrapped_port_line
    = (0, mk_contact 0 "" "aaaaaaaaaaaaaaaa.onion" 80 false) /\
  exists line,
    @contact_to_string demo_platform
      (mk_contact 0 "" "aaaaaaaaaaaaaaaa.onion" 80 false) = Some line /\
    line = "aaaaaaaaaaaaaaaa.onion" +:+ String SP (decimal 80 +:+ nl) /\
    @string_to_contact demo_platform zero_contact line
      = (0, mk_contact 0 "" "aaaaaaaaaaaaaaaa.onion" 80 false).
Proof.
  split; [exact demo_wire_safe|]. split; [exact demo_max_int_str|].
  split; [reflexivity|].
  exact (@string_to_contact_normal_form demo_platform zero_contact _
           wrapped_port_line demo_wire_safe demo_max_int_str eq_refl).
Defined.

Lemma wire_identity_witness :
  5 < @MAX_INT_STR demo_platform /\
  @valid_contact demo_platform (link bob 3 false) /\
  @valid_contact demo_platform (link bob 4 true) /\
  (@contact_to_string demo_platform (link bob 3 false)
     = @contact_to_string demo_platform (link bob 4 true) <->
   onion_id (link bob 3 false) = onion_id (link bob 4 true) /\
   lport (link bob 3 false) = lport (link bob 4 true)).
Proof.
  split; [exact demo_max_int_str|].
  split; [exact (valid_link bob 3 false valid_bob)|].
  split; [exact (valid_link bob 4 true valid_bob)|].
  exact (@wire_identity demo_platform (link bob 3 false) (link bob 4 true)
           demo_max_int_str (valid_link bob 3 false valid_bob)
           (valid_link bob 4 true valid_bob)).
Defined.

Lemma string_to_contact_lenient_witness :
  @onion_wire_safe demo_platform /\
  @is_valid_onion demo_platform "bbbbbbbbbbbbbbbb.onion" = true /\
  1 <= 9002 <= 65535 /\
  @string_to_contact demo_platform zero_contact
    (spaces 2 +:+ "bbbbbbbbbbbbbbbb.onion" +:+ String SP
       (spaces 1 +:+ plus_sign true +:+ decimal 9002 +:+ nl +:+ "rest"))
  = (0, mk_contact 0 "" "bbbbbbbbbbbbbbbb.onion" 9002 false).
Proof.
  assert (H : 1 <= 9002 <= 65535) by lia.
  split; [exact demo_wire_safe|]. split; [reflexivity|]. split; [exact H|].
  exact (@string_to_contact_lenient demo_platform zero_contact
           "bbbbbbbbbbbbbbbb.onion" "rest" 9002 2 1 true
           demo_wire_safe eq_refl H).
Defined.

(** * Further properties of the search and of the resolver *)

Section FindMore.
Context {P : Platform}.
Hypothesis HM : 5 < MAX_INT_STR.

Lemma find_scan_result (cnf : dchat_conf_t) (ct : contact_t) (n : nat) :
  store_ok cnf -> valid_contact ct ->
  forall i, 0 <= i -> i + Z.of_nat n = cl_size (cl cnf) ->
    exists r, find_scan n i cnf ct = Ret r /\
      ((r = -2 /\
        forall j c, i <= j -> slot cnf j c -> matches ct c = false) \/
       (i <= r /\ exists c, slot cnf r c /\ matches ct c = true /\
        forall j c', i <= j < r -> slot cnf j c' -> matches ct c' = false)).
Proof.
  intros Hok Hct. induction n as [|n IH]; intros i Hi Hn.
  - exists (-2). split; [reflexivity|]. left. split; [reflexivity|].
    intros j c Hj Hs. apply (slot_lt cnf Hok) in Hs. lia.
  - destruct (array_get_lt (contact (cl cnf)) i) as [c Hc].
    { destruct Hok as [<- _]. lia. }
    cbn [find_scan]. rewrite Hc. cbn.
    rewrite (slot_same HM cnf ct Hok Hct i c Hc).
    destruct (matches ct c) eqn:Em; cbn.
    + exists i. split; [reflexivity|]. right. split; [lia|].
      exists c. split; [exact Hc|]. split; [exact Em|]. intros j c' Hj. lia.
    + destruct (IH (i + 1)) as (r & Hr & Hcase); [lia | lia |].
      exists r. split; [exact Hr|].
      assert (Hfirst : forall j c', i <= j < i + 1 -> slot cnf j c' ->
                                    matches ct c' = false).
      { intros j c' Hj Hs. assert (j = i) by lia. subst j.
        unfold slot in Hs. congruence. }
      destruct Hcase as [[-> Hnone] | (Hle & c1 & Hs1 & Hm1 & Hbefore)].
      * left. split; [reflexivity|]. intros j c' Hj Hs.
        destruct (Z.eq_dec j i) as [->|]; [apply (Hfirst i); [lia|exact Hs]|].
        apply (Hnone j); [lia | exact Hs].
      * right. split; [lia|]. exists c1. split; [exact Hs1|].
        split; [exact Hm1|]. intros j c' Hj Hs.
        destruct (Z.eq_dec j i) as [->|]; [apply (Hfirst i); [lia|exact Hs]|].
        apply (Hbefore j); [lia | exact Hs].
Qed.

(** The search from [begin] when this process does not match. *)
Lemma find_contact_result (cnf : dchat_conf_t) (ct : contact_t) (begin : Z) :
  store_ok cnf -> valid_contact ct -> matches ct (me cnf) = false ->
  exists r, find_contact cnf ct begin = Ret r /\
    ((r = -2 /\
      (begin < 0 \/
       forall j c, begin <= j -> slot cnf j c -> matches ct c = false)) \/
     (0 <= begin <= r /\ exists c, slot cnf r c /\ matches ct c = true /\
      forall j c', begin <= j < r -> slot cnf j c' -> matches ct c' = false)).
Proof.
  intros Hok Hct Hme.
  destruct (Z_lt_le_dec begin 0) as [Hneg|Hpos].
  { exists (-2). split; [|left; split; [reflexivity | now left]].
    unfold find_contact. apply Z.ltb_lt in Hneg. now rewrite Hneg. }
  destruct (Z_lt_le_dec begin (cl_size (cl cnf))) as [Hlt|Hge].
  - rewrite (find_contact_bounds cnf ct begin) by lia.
    rewrite (self_same HM cnf ct Hok Hct), Hme. cbn.
    destruct (find_scan_result cnf ct (Z.to_nat (cl_size (cl cnf) - begin))
                Hok Hct begin) as (r & Hr & Hcase); [lia | lia |].
    exists r. split; [exact Hr|].
    destruct Hcase as [[-> Hnone] | (Hle & Hrest)].
    + left. split; [reflexivity | now right].
    + right. split; [lia | exact Hrest].
  - exists (-2). split.
    + unfold find_contact. apply Z.leb_le in Hge.
      now rewrite Hge, orb_true_r.
    + left. split; [reflexivity|]. right. intros j c Hj Hs.
      apply (slot_lt cnf Hok) in Hs. lia.
Qed.

(** X5: on a well-formed store, for a valid candidate that is not this
    process, [find_contact] returns without fault; the result is [-2]
    exactly when [begin] is negative or no confirmed slot from [begin] on has
    the candidate's address and port, and otherwise the least index from
    [begin] on of such a slot. *)
Theorem find_contact_first_match (cnf : dchat_conf_t) (ct : contact_t)
    (begin : Z) :
  store_ok cnf -> valid_contact ct -> matches ct (me cnf) = false ->
  exists r, find_contact cnf ct begin = Ret r /\
    ((r = -2 /\
      (begin < 0 \/
       forall j c, begin <= j -> slot cnf j c -> matches ct c = false)) \/
     (0 <= begin <= r /\ r < cl_size (cl cnf) /\
      exists c, slot cnf r c /\ lport c <> 0 /\
        onion_id c = onion_id ct /\ lport c = lport ct /\
        forall j c', begin <= j < r -> slot cnf j c' -> matches ct c' = false)).
Proof.
  intros Hok Hct Hme.
  destruct (find_contact_result cnf ct begin Hok Hct Hme) as (r & Hr & Hcase).
  exists r. split; [exact Hr|].
  destruct Hcase as [Hnone | (Hb & c & Hs & Hm & Hbefore)]; [now left|].
  right. split; [exact Hb|].
  split; [apply (slot_lt cnf Hok r c Hs)|].
  exists c. split; [exact Hs|].
  split; [exact (matches_confirmed _ _ Hm)|].
  apply matches_id, id_eqb_true in Hm as [Eo Ep]. auto.
Qed.

(** X6: when the contact of slot [n] cannot be printed (a pending slot, whose
    port is 0, or an invalid address) and this process is confirmed,
    [check_duplicates n] passes the null pointer that [contact_to_string]
    returns to [strcmp]. *)
Theorem check_duplicates_null_candidate (cnf : dchat_conf_t) (n : Z)
    (cn : contact_t) :
  slot cnf n cn -> contact_to_string cn = None ->
  lport (me cnf) <> 0 -> 0 < cl_size (cl cnf) ->
  check_duplicates cnf n = Fault.
Proof.
  intros Hs Hnull Hme Hsize. unfold check_duplicates.
  unfold slot in Hs. rewrite Hs. cbn.
  rewrite (find_contact_bounds cnf cn 0) by lia.
  unfold same_contact. apply Z.eqb_neq in Hme. rewrite Hme, Hnull.
  reflexivity.
Qed.

Lemma matches_self_id (cnf : dchat_conf_t) (cn : contact_t) :
  valid_contact cn -> matches cn (me cnf) = id_eqb (me cnf) cn.
Proof.
  intros Hcn. unfold matches. rewrite (id_eqb_sym cn).
  destruct (id_eqb (me cnf) cn) eqn:E; [|now rewrite andb_false_r].
  rewrite andb_true_r. apply negb_true_iff, Z.eqb_neq.
  apply id_eqb_true in E as [_ ->]. now apply valid_contact_confirmed.
Qed.

Lemma matches_refl (cn : contact_t) : valid_contact cn -> matches cn cn = true.
Proof.
  intros Hcn. unfold matches. apply andb_true_intro. split.
  - apply negb_true_iff, Z.eqb_neq. now apply valid_contact_confirmed.
  - apply id_eqb_true. auto.
Qed.

Lemma check_duplicates_own_id (cnf : dchat_conf_t) (n : Z) (cn : contact_t) :
  store_ok cnf -> slot cnf n cn -> valid_contact cn ->
  id_eqb (me cnf) cn = true ->
  check_duplicates cnf n = Ret n.
Proof.
  intros Hok Hs Hcn Hid. pose proof (slot_lt cnf Hok n cn Hs) as Hn.
  unfold check_duplicates. unfold slot in Hs. rewrite Hs. cbn.
  rewrite (find_contact_self HM cnf cn Hok Hcn 0); [reflexivity | lia |].
  now rewrite (matches_self_id cnf cn Hcn).
Qed.

(** X7: a slot whose contact has the address and port of this process is
    its own eviction choice, whatever else the store holds. *)
Theorem check_duplicates_self (cnf : dchat_conf_t) (n : Z) (cn : contact_t) :
  store_ok cnf -> slot cnf n cn -> valid_contact cn ->
  onion_id cn = onion_id (me cnf) -> lport cn = lport (me cnf) ->
  check_duplicates cnf n = Ret n.
Proof.
  intros Hok Hs Hcn Eo Ep. apply (check_duplicates_own_id cnf n cn Hok Hs Hcn).
  apply id_eqb_true. auto.
Qed.

(** X8: a valid confirmed contact that is not this process and stands in
    one slot only has no duplicate: the result is [-1]. *)
Theorem check_duplicates_unique (cnf : dchat_conf_t) (n : Z) (cn : contact_t) :
  store_ok cnf -> slot cnf n cn -> valid_contact cn ->
  id_eqb (me cnf) cn = false ->
  (forall k c, slot cnf k c -> matches cn c = true -> k = n) ->
  check_duplicates cnf n = Ret (-1).
Proof.
  intros Hok Hs Hcn Hid Honly.
  pose proof (slot_lt cnf Hok n cn Hs) as Hn.
  assert (Hme : matches cn (me cnf) = false)
    by now rewrite (matches_self_id cnf cn Hcn).
  unfold check_duplicates. pose proof Hs as Hs'. unfold slot in Hs'.
  rewrite Hs'. cbn.
  rewrite (find_contact_hit HM cnf cn Hok Hcn 0 n cn); try assumption;
    [| lia | now apply matches_refl |].
  2:{ intros j c' Hj Hsj. destruct (matches cn c') eqn:E; [|reflexivity].
      specialize (Honly j c' Hsj E). lia. }
  cbn.
  replace (n =? -1) with false by (symmetry; apply Z.eqb_neq; lia).
  replace (n =? -2) with false by (symmetry; apply Z.eqb_neq; lia).
  rewrite (find_contact_miss HM cnf cn Hok Hcn (n + 1) Hme); [reflexivity|].
  intros j c' Hj Hsj. destruct (matches cn c') eqn:E; [|reflexivity].
  specialize (Honly j c' Hsj E). lia.
Qed.

(** X9: on a well-formed store and a valid contact in slot [n],
    [check_duplicates] returns without fault, and the result is [-1] or the
    index of a confirmed slot with the address and port of slot [n]: it never
    designates another peer's entry. *)
Theorem check_duplicates_sound (cnf : dchat_conf_t) (n : Z) (cn : contact_t) :
  store_ok cnf -> slot cnf n cn -> valid_contact cn ->
  exists r, check_duplicates cnf n = Ret r /\
    (r = -1 \/
     exists c, slot cnf r c /\ lport c <> 0 /\
               onion_id c = onion_id cn /\ lport c = lport cn).
Proof.
  intros Hok Hs Hcn.
  assert (Hdesc : forall r c, slot cnf r c -> matches cn c = true ->
    exists c, slot cnf r c /\ lport c <> 0 /\
              onion_id c = onion_id cn /\ lport c = lport cn).
  { intros r c Hsr Hm. exists c. split; [exact Hsr|].
    split; [exact (matches_confirmed _ _ Hm)|].
    apply matches_id, id_eqb_true in Hm as [Eo Ep]. auto. }
  destruct (id_eqb (me cnf) cn) eqn:Hid.
  { exists n. split.
    - exact (check_duplicates_own_id cnf n cn Hok Hs Hcn Hid).
    - right. apply (Hdesc n cn Hs). now apply matches_refl. }
  assert (Hme : matches cn (me cnf) = false)
    by now rewrite (matches_self_id cnf cn Hcn).
  unfold check_duplicates. pose proof Hs as Hs'. unfold slot in Hs'.
  rewrite Hs'. cbn.
  destruct (find_contact_result cnf cn 0 Hok Hcn Hme)
    as (r1 & Hr1 & [[-> _] | (Hb1 & c1 & Hs1 & Hm1 & _)]); rewrite Hr1; cbn.
  { exists (-1). split; [reflexivity | now left]. }
  replace (r1 =? -1) with false by (symmetry; apply Z.eqb_neq; lia).
  replace (r1 =? -2) with false by (symmetry; apply Z.eqb_neq; lia).
  destruct (find_contact_result cnf cn (r1 + 1) Hok Hcn Hme)
    as (r2 & Hr2 & [[-> _] | (Hb2 & c2 & Hs2 & Hm2 & _)]); rewrite Hr2; cbn.
  { exists (-1). split; [reflexivity | now left]. }
  replace (r2 =? -2) with false by (symmetry; apply Z.eqb_neq; lia).
  unfold slot in Hs1. rewrite Hs1. cbn.
  assert (H1 := Hdesc r1 c1 Hs1 Hm1). assert (H2 := Hdesc r2 c2 Hs2 Hm2).
  destruct (accepted c1);
    repeat match goal with
           | |- context [if ?b then _ else _] => destruct b
           end; eauto.
Qed.

End FindMore.

Lemma store2_ok_pending (self a b : contact_t) :
  @valid_contact demo_platform self -> @valid_contact demo_platform a ->
  lport b = 0 -> @store_ok demo_platform (store2 self a b).
Proof.
  intros Hs Ha Hb. split; [reflexivity|]. split; [|intros _; exact Hs].
  intros [|[|k]] c; cbn; intros [= <-] Hc; [assumption | congruence].
Qed.

Lemma store_ok_bob_once : @store_ok demo_platform bob_once_conf.
Proof. apply store2_ok_pending; auto with demo. Qed.

Lemma store_ok_alice_conf : @store_ok demo_platform alice_conf.
Proof. apply store2_ok; auto with demo. Qed.

Lemma find_contact_first_match_witness :
  5 < @MAX_INT_STR demo_platform /\
  @store_ok demo_platform alice_conf /\
  @valid_contact demo_platform (link bob 9 false) /\
  matches (link bob 9 false) (me alice_conf) = false /\
  exists r, @find_contact demo_platform alice_conf (link bob 9 false) 1 = Ret r /\
    ((r = -2 /\
      (1 < 0 \/
       forall j c, 1 <= j -> slot alice_conf j c ->
                   matches (link bob 9 false) c = false)) \/
     (0 <= 1 <= r /\ r < cl_size (cl alice_conf) /\
      exists c, slot alice_conf r c /\ lport c <> 0 /\
        onion_id c = onion_id (link bob 9 false) /\
        lport c = lport (link bob 9 false) /\
        forall j c', 1 <= j < r -> slot alice_conf j c' ->
                     matches (link bob 9 false) c' = false)).
Proof.
  split; [exact demo_max_int_str|]. split; [exact store_ok_alice_conf|].
  split; [exact (valid_link bob 9 false valid_bob)|]. split; [reflexivity|].
  exact (@find_contact_first_match demo_platform demo_max_int_str alice_conf
           (link bob 9 false) 1 store_ok_alice_conf
           (valid_link bob 9 false valid_bob) eq_refl).
Defined.

Lemma check_duplicates_null_candidate_witness :
  slot bob_once_conf 1 (set_fd zero_contact 4) /\
  @contact_to_string demo_platform (set_fd zero_contact 4) = None /\
  lport (me bob_once_conf) <> 0 /\ 0 < cl_size (cl bob_once_conf) /\
  @check_duplicates demo_platform bob_once_conf 1 = Fault.
Proof.
  assert (H3 : lport (me bob_once_conf) <> 0) by (cbn; lia).
  assert (H4 : 0 < cl_size (cl bob_once_conf)) by (cbn; lia).
  split; [reflexivity|]. split; [reflexivity|]. split; [exact H3|].
  split; [exact H4|].
  exact (@check_duplicates_null_candidate demo_platform bob_once_conf 1
           (set_fd zero_contact 4) eq_refl eq_refl H3 H4).
Defined.

Lemma check_duplicates_self_witness :
  5 < @MAX_INT_STR demo_platform /\
  @store_ok demo_platform self_pair_conf /\
  slot self_pair_conf 1 (link alice 4 true) /\
  @valid_contact demo_platform (link alice 4 true) /\
  onion_id (link alice 4 true) = onion_id (me self_pair_conf) /\
  lport (link alice 4 true) = lport (me self_pair_conf) /\
  @check_duplicates demo_platform self_pair_conf 1 = Ret 1.
Proof.
  assert (Hok : @store_ok demo_platform self_pair_conf)
    by (apply store2_ok; auto with demo).
  split; [exact demo_max_int_str|]. split; [exact Hok|].
  split; [reflexivity|]. split; [exact (valid_link alice 4 true valid_alice)|].
  split; [reflexivity|]. split; [reflexivity|].
  exact (@check_duplicates_self demo_platform demo_max_int_str self_pair_conf 1
           (link alice 4 true) Hok eq_refl (valid_link alice 4 true valid_alice)
           eq_refl eq_refl).
Defined.

Lemma bob_once_only (k : Z) (c : contact_t) :
  slot bob_once_conf k c -> matches (link bob 3 false) c = true -> k = 0.
Proof.
  intros Hs Hm. pose proof (slot_lt bob_once_conf store_ok_bob_once k c Hs) as Hk.
  cbn in Hk. assert (Hk' : k = 0 \/ k = 1) by lia.
  destruct Hk' as [-> | ->]; [reflexivity|].
  unfold slot in Hs. cbn in Hs. injection Hs as <-. discriminate Hm.
Qed.

Lemma check_duplicates_unique_witness :
  5 < @MAX_INT_STR demo_platform /\
  @store_ok demo_platform bob_once_conf /\
  slot bob_once_conf 0 (link bob 3 false) /\
  @valid_contact demo_platform (link bob 3 false) /\
  id_eqb (me bob_once_conf) (link bob 3 false) = false /\
  (forall k c, slot bob_once_conf k c ->
     matches (link bob 3 false) c = true -> k = 0) /\
  @check_duplicates demo_platform bob_once_conf 0 = Ret (-1).
Proof.
  split; [exact demo_max_int_str|]. split; [exact store_ok_bob_once|].
  split; [reflexivity|]. split; [exact (valid_link bob 3 false valid_bob)|].
  split; [reflexivity|]. split; [exact bob_once_only|].
  exact (@check_duplicates_unique demo_platform demo_max_int_str bob_once_conf 0
           (link bob 3 false) store_ok_bob_once eq_refl
           (valid_link bob 3 false valid_bob) eq_refl bob_once_only).
Defined.

Lemma check_duplicates_sound_witness :
  5 < @MAX_INT_STR demo_platform /\
  @store_ok demo_platform alice_conf /\
  slot alice_conf 1 (link bob 4 true) /\
  @valid_contact demo_platform (link bob 4 true) /\
  exists r, @check_duplicates demo_platform alice_conf 1 = Ret r /\
    (r = -1 \/
     exists c, slot alice_conf r c /\ lport c <> 0 /\
               onion_id c = onion_id (link bob 4 true) /\
               lport c = lport (link bob 4 true)).
Proof.
  split; [exact demo_max_int_str|]. split; [exact store_ok_alice_conf|].
  split; [reflexivity|]. split; [exact (valid_link bob 4 true valid_bob)|].
  exact (@check_duplicates_sound demo_platform demo_max_int_str alice_conf 1
           (link bob 4 true) store_ok_alice_conf eq_refl
           (valid_link bob 4 true valid_bob)).
Defined.

(** * Further properties of the contact store *)

Lemma filter_occupied_all (l : list contact_t) :
  length (filter occupied l) = length l ->
  filter occupied l = l /\ Forall occupied l.
Proof.
  induction l as [|x l IH]; [now split|].
  rewrite filter_cons. pose proof (length_filter occupied l) as Hle.
  destruct (decide (occupied x)) as [Hx|Hx]; cbn [length]; intros H; [|lia].
  destruct IH as [Hf Ha]; [lia|]. rewrite Hf. split; [reflexivity|].
  now constructor.
Qed.

Lemma filter_occupied_Forall (l : list contact_t) :
  Forall occupied l -> filter occupied l = l.
Proof.
  induction 1 as [|x l Hx _ IH]; [reflexivity|].
  now rewrite filter_cons_True, IH.
Qed.

Lemma compacted_compacted (l : contactlist_t) (n m : Z) :
  compacted (compacted l n) m = compacted l m.
Proof.
  unfold compacted. cbn [contact used_contacts].
  now rewrite filter_app, filter_replicate_zero, app_nil_r,
    filter_occupied_idemp.
Qed.

(** X10: resizing twice is resizing once to the last capacity: after an
    accepted [resize(n)], [resize(m)] gives what [resize(m)] gives on the
    original store. *)
Theorem realloc_contactlist_twice (w : world) (n m : Z) :
  store_inv (cl (_cnf w)) ->
  1 <= n -> used_contacts (cl (_cnf w)) <= n ->
  1 <= m -> used_contacts (cl (_cnf w)) <= m ->
  exists w1,
    realloc_contactlist w n = Ret (0, w1) /\
    realloc_contactlist w1 m = realloc_contactlist w m.
Proof.
  intros Hinv Hn1 Hn Hm1 Hm.
  exists (set_cl w (compacted (cl (_cnf w)) n)).
  split; [now apply realloc_contactlist_spec|].
  rewrite (realloc_contactlist_spec w m Hinv Hm1 Hm).
  rewrite realloc_contactlist_spec;
    [| now apply compacted_inv | exact Hm1 | exact Hm].
  cbn [set_cl _cnf cl me closed]. now rewrite compacted_compacted.
Qed.

Section StoreMore.
Context {P : Platform}.

(** [add] on a store with a free slot. *)
Lemma add_contact_free (w : world) (fd' : Z) :
  store_inv (cl (_cnf w)) ->
  used_contacts (cl (_cnf w)) < cl_size (cl (_cnf w)) ->
  exists pre c rest,
    contact (cl (_cnf w)) = pre ++ c :: rest /\
    Forall occupied pre /\ fd c = 0 /\
    add_contact w fd' =
      Ret (Z.of_nat (length pre),
           set_cl w (mk_contactlist (pre ++ set_fd c fd' :: rest)
                       (cl_size (cl (_cnf w)))
                       (used_contacts (cl (_cnf w)) + 1))).
Proof.
  intros (Hlen & H1 & Hused) Hfree.
  destruct (first_empty_slot (contact (cl (_cnf w))))
    as (pre & c & rest & Hl & Hpre & Hc); [lia|].
  exists pre, c, rest. split; [exact Hl|]. split; [exact Hpre|].
  split; [exact Hc|]. unfold add_contact.
  replace (used_contacts (cl (_cnf w)) =? cl_size (cl (_cnf w))) with false
    by (symmetry; apply Z.eqb_neq; lia).
  cbn [mbind result_bind]. cbn [Z.ltb Z.compare].
  pose proof (add_scan_at (cl (_cnf w)) fd' pre [] c rest Hl Hpre Hc) as Hscan.
  cbn [app length] in Hscan. change (Z.of_nat 0) with 0 in Hscan.
  replace (Z.to_nat (cl_size (cl (_cnf w)))) with (length (pre ++ c :: rest))
    by (rewrite Hlen, Hl; lia).
  rewrite Hscan. reflexivity.
Qed.

(** [add] on a full store. *)
Lemma add_contact_full (w : world) (fd' : Z) :
  1 <= INIT_CONTACTS ->
  store_inv (cl (_cnf w)) ->
  used_contacts (cl (_cnf w)) = cl_size (cl (_cnf w)) ->
  Forall occupied (contact (cl (_cnf w))) /\
  add_contact w fd' =
    Ret (cl_size (cl (_cnf w)),
         set_cl w (mk_contactlist
                     (contact (cl (_cnf w)) ++ set_fd zero_contact fd'
                        :: replicate (Z.to_nat INIT_CONTACTS - 1) zero_contact)
                     (cl_size (cl (_cnf w)) + INIT_CONTACTS)
                     (used_contacts (cl (_cnf w)) + 1))).
Proof.
  intros HK Hinv Hfull. pose proof Hinv as (Hlen & H1 & Hused).
  destruct (filter_occupied_all (contact (cl (_cnf w)))) as [Hf Hall]; [lia|].
  split; [exact Hall|]. unfold add_contact.
  replace (used_contacts (cl (_cnf w)) =? cl_size (cl (_cnf w))) with true
    by (symmetry; apply Z.eqb_eq; lia).
  rewrite (realloc_contactlist_spec w _ Hinv) by lia.
  cbn [mbind result_bind]. cbn [Z.ltb Z.compare].
  set (l1 := mk_contactlist
               (contact (cl (_cnf w)) ++ zero_contact
                  :: replicate (Z.to_nat INIT_CONTACTS - 1) zero_contact)
               (cl_size (cl (_cnf w)) + INIT_CONTACTS)
               (used_contacts (cl (_cnf w)))).
  assert (Hcomp : compacted (cl (_cnf w))
                    (cl_size (cl (_cnf w)) + INIT_CONTACTS) = l1).
  { unfold compacted, l1. rewrite Hf.
    replace (Z.to_nat (cl_size (cl (_cnf w)) + INIT_CONTACTS)
               - length (contact (cl (_cnf w))))%nat
      with (S (Z.to_nat INIT_CONTACTS - 1)) by lia.
    reflexivity. }
  rewrite Hcomp. cbn [set_cl _cnf cl]. cbn [l1 cl_size].
  pose proof (add_scan_at l1 fd' (contact (cl (_cnf w))) [] zero_contact
                (replicate (Z.to_nat INIT_CONTACTS - 1) zero_contact)
                eq_refl Hall eq_refl) as Hscan.
  cbn [app length] in Hscan. change (Z.of_nat 0) with 0 in Hscan.
  replace (Z.to_nat (cl_size (cl (_cnf w)) + INIT_CONTACTS))
    with (length (contact (cl (_cnf w)) ++ zero_contact
                    :: replicate (Z.to_nat INIT_CONTACTS - 1) zero_contact))
    by (rewrite length_app; cbn [length]; rewrite length_replicate; lia).
  rewrite Hscan. cbn [mbind result_bind]. unfold l1. cbn.
  rewrite <- Hlen. reflexivity.
Qed.

(** X11: with a free slot in the store, [add] takes the first slot whose
    descriptor is 0: every slot before the returned index is occupied, only
    the descriptor of that slot is written, and the capacity and all other
    slots stay as they are. *)
Theorem add_contact_first_free (w : world) (fd' : Z) :
  store_inv (cl (_cnf w)) ->
  used_contacts (cl (_cnf w)) < cl_size (cl (_cnf w)) ->
  exists i c w',
    add_contact w fd' = Ret (i, w') /\
    slot (_cnf w) i c /\ fd c = 0 /\
    (forall j cj, 0 <= j < i -> slot (_cnf w) j cj -> occupied cj) /\
    contact (cl (_cnf w')) =
      <[Z.to_nat i := set_fd c fd']> (contact (cl (_cnf w))) /\
    cl_size (cl (_cnf w')) = cl_size (cl (_cnf w)) /\
    used_contacts (cl (_cnf w')) = used_contacts (cl (_cnf w)) + 1 /\
    me (_cnf w') = me (_cnf w) /\ closed w' = closed w.
Proof.
  intros Hinv Hfree.
  destruct (add_contact_free w fd' Hinv Hfree)
    as (pre & c & rest & Hl & Hpre & Hc & Hadd).
  eexists _, c, _. split; [exact Hadd|].
  split.
  { apply array_get_Ret. split; [lia|]. rewrite Nat2Z.id, Hl.
    now apply list_lookup_middle. }
  split; [exact Hc|]. split.
  { intros j cj Hj Hs. apply array_get_Ret in Hs as [_ Hs].
    rewrite Hl, lookup_app_l in Hs by lia.
    rewrite Forall_lookup in Hpre. exact (Hpre _ _ Hs). }
  cbn [set_cl _cnf cl contact cl_size used_contacts me closed].
  split; [|repeat split].
  rewrite Nat2Z.id, Hl, insert_app_r_alt, Nat.sub_diag by lia. reflexivity.
Qed.

(** X12: on a full store [add] first grows the block by the increment:
    every contact keeps its index, the new contact gets the index that was the
    capacity, and the slots after it are empty. *)
Theorem add_contact_when_full (w : world) (fd' : Z) :
  1 <= INIT_CONTACTS ->
  store_inv (cl (_cnf w)) ->
  used_contacts (cl (_cnf w)) = cl_size (cl (_cnf w)) ->
  exists w',
    add_contact w fd' = Ret (cl_size (cl (_cnf w)), w') /\
    contact (cl (_cnf w')) =
      contact (cl (_cnf w)) ++ set_fd zero_contact fd'
        :: replicate (Z.to_nat INIT_CONTACTS - 1) zero_contact /\
    cl_size (cl (_cnf w')) = cl_size (cl (_cnf w)) + INIT_CONTACTS /\
    used_contacts (cl (_cnf w')) = used_contacts (cl (_cnf w)) + 1.
Proof.
  intros HK Hinv Hfull.
  destruct (add_contact_full w fd' HK Hinv Hfull) as [_ Hadd].
  eexists. split; [exact Hadd|]. repeat split.
Qed.

(** [remove] of an occupied slot, written out. *)
Lemma del_contact_explicit (w : world) (n : Z) (c : contact_t) :
  store_inv (cl (_cnf w)) -> slot (_cnf w) n c -> occupied c ->
  let l := cl (_cnf w) in
  let l1 := mk_contactlist (<[Z.to_nat n := zero_contact]> (contact l))
                           (cl_size l) (used_contacts l - 1) in
  store_inv l1 /\
  del_contact w n =
    Ret (0, mk_world
              (mk_conf (me (_cnf w))
                 (if (used_contacts l - 1 =? cl_size l - INIT_CONTACTS)
                     && negb (used_contacts l - 1 =? 0)
                  then compacted l1 (cl_size l - INIT_CONTACTS)
                  else l1))
              (fd c :: closed w)).
Proof.
  intros Hinv Hslot Hc l l1. subst l.
  pose proof Hinv as (Hlen & H1 & Hused).
  pose proof Hslot as Hget. apply array_get_Ret in Hget as [H0 Hlook].
  pose proof (lookup_lt_Some _ _ _ Hlook) as Hlt.
  assert (Hn : n < cl_size (cl (_cnf w))) by lia.
  assert (Hinv1 : store_inv l1).
  { subst l1. repeat split; cbn; [now rewrite length_insert | exact H1 |].
    apply list_elem_of_split_length in Hlook as (pre & rest & Hl & Hi).
    rewrite Hused, Hl, Hi, insert_app_r_alt, Nat.sub_diag by lia. cbn.
    rewrite (filter_clear pre rest c Hc). lia. }
  split; [exact Hinv1|].
  rewrite (del_contact_occupied w n c Hslot Hc Hn). cbv zeta.
  cbn [used_contacts cl_size]. fold l1.
  destruct ((used_contacts (cl (_cnf w)) - 1
               =? cl_size (cl (_cnf w)) - INIT_CONTACTS)
            && negb (used_contacts (cl (_cnf w)) - 1 =? 0)) eqn:E;
    [|reflexivity].
  apply andb_prop in E as [E1 E2].
  apply Z.eqb_eq in E1. apply negb_true_iff, Z.eqb_neq in E2.
  pose proof Hinv1 as (_ & _ & Hused1). cbn in Hused1.
  set (w1 := mk_world (mk_conf (me (_cnf w)) l1) (fd c :: closed w)).
  rewrite (realloc_contactlist_spec w1 _ Hinv1) by (cbn; lia).
  reflexivity.
Qed.

(** X13: [remove] of an occupied slot never loses another contact: with or
    without shrinking, the occupied slots afterwards are, in the same order,
    those before the removed slot followed by those after it. *)
Theorem del_contact_keeps_others (w : world) (n : Z) (c : contact_t) :
  store_inv (cl (_cnf w)) -> slot (_cnf w) n c -> occupied c ->
  exists w',
    del_contact w n = Ret (0, w') /\
    filter occupied (contact (cl (_cnf w'))) =
      filter occupied (take (Z.to_nat n) (contact (cl (_cnf w))))
        ++ filter occupied (drop (S (Z.to_nat n)) (contact (cl (_cnf w)))) /\
    closed w' = fd c :: closed w.
Proof.
  intros Hinv Hslot Hc.
  destruct (del_contact_explicit w n c Hinv Hslot Hc) as [_ Hdel].
  cbv zeta in Hdel. eexists. split; [exact Hdel|]. split; [|reflexivity].
  apply array_get_Ret in Hslot as [_ Hlook].
  assert (Hins : filter occupied
                   (<[Z.to_nat n := zero_contact]> (contact (cl (_cnf w)))) =
                 filter occupied (take (Z.to_nat n) (contact (cl (_cnf w))))
                 ++ filter occupied
                      (drop (S (Z.to_nat n)) (contact (cl (_cnf w))))).
  { rewrite insert_take_drop by (now apply lookup_lt_Some in Hlook).
    rewrite filter_app, filter_cons_False; [reflexivity|].
    intros H. now apply H. }
  cbn [_cnf cl].
  destruct (_ && _); cbn [compacted contact]; [|exact Hins].
  now rewrite filter_app, filter_replicate_zero, app_nil_r,
    filter_occupied_idemp.
Qed.

End StoreMore.

Section StoreInvariant.
Context {P : Platform}.
Hypothesis HK : 1 <= INIT_CONTACTS.

Lemma store_clean_compacted (l : contactlist_t) (n : Z) :
  store_clean (compacted l n).
Proof.
  unfold store_clean, compacted. cbn [contact]. apply Forall_app. split.
  - apply Forall_forall. intros c Hc Hfd.
    apply list_elem_of_filter in Hc as [Hocc _]. contradiction.
  - apply Forall_forall. intros c Hc _.
    now apply elem_of_replicate in Hc as [-> _].
Qed.

Lemma store_wf_add (w : world) (fd' : Z) :
  store_wf (cl (_cnf w)) -> fd' <> 0 ->
  exists i w', add_contact w fd' = Ret (i, w') /\ store_wf (cl (_cnf w')).
Proof.
  intros (Hinv & Hclean & Hdiv & Hslack) Hfd.
  destruct (add_contact_spec HK w fd' Hinv Hfd)
    as (i & w' & Ha & Hinv' & Hu & Hc & _).
  exists i, w'. split; [exact Ha|].
  pose proof Hinv as (Hlen & H1 & Hused).
  pose proof (length_filter occupied (contact (cl (_cnf w)))) as Hle.
  destruct (Z.eqb_spec (used_contacts (cl (_cnf w))) (cl_size (cl (_cnf w))))
    as [Hfull|Hfree].
  - destruct (add_contact_full w fd' HK Hinv Hfull) as [_ Ha2].
    rewrite Ha in Ha2. injection Ha2 as _ ->.
    cbn [set_cl _cnf cl] in *. split; [exact Hinv'|]. split; [|split].
    + unfold store_clean in *. cbn [contact]. apply Forall_app.
      split; [exact Hclean|]. constructor.
      * cbn. intros ->. contradiction.
      * apply Forall_forall. intros c Hin _.
        now apply elem_of_replicate in Hin as [-> _].
    + cbn [cl_size]. apply Z.divide_add_r; [exact Hdiv | apply Z.divide_refl].
    + right. cbn [cl_size used_contacts]. lia.
  - destruct (add_contact_free w fd' Hinv) as (pre & c & rest & Hl & _ & _ & Ha2);
      [lia|].
    rewrite Ha in Ha2. injection Ha2 as _ ->.
    cbn [set_cl _cnf cl] in *. split; [exact Hinv'|]. split; [|split].
    + unfold store_clean in *. cbn [contact]. rewrite Hl in Hclean.
      apply Forall_app in Hclean as [Hpre Hrest].
      apply Forall_cons in Hrest as [_ Hrest].
      apply Forall_app. split; [exact Hpre|]. constructor; [|exact Hrest].
      cbn. intros ->. contradiction.
    + exact Hdiv.
    + cbn [cl_size used_contacts]. lia.
Qed.

Lemma store_wf_del (w : world) (n : Z) :
  store_wf (cl (_cnf w)) ->
  exists r w', del_contact w n = Ret (r, w') /\ store_wf (cl (_cnf w')).
Proof.
  intros Hwf. pose proof Hwf as (Hinv & Hclean & Hdiv & Hslack).
  pose proof Hinv as (Hlen & H1 & Hused).
  destruct (Z_lt_le_dec n 0) as [Hneg|Hpos].
  { exists (-1), w. split; [|exact Hwf]. unfold del_contact.
    apply Z.ltb_lt in Hneg. now rewrite Hneg. }
  destruct (Z_lt_le_dec n (cl_size (cl (_cnf w)))) as [Hlt|Hge].
  2:{ exists (-1), w. split; [|exact Hwf]. unfold del_contact.
      apply Z.leb_le in Hge. now rewrite Hge, orb_true_r. }
  destruct (array_get_lt (contact (cl (_cnf w))) n) as [c Hc]; [lia|].
  destruct (Z.eq_dec (fd c) 0) as [Hz|Hnz].
  { exists 0, w. split; [|exact Hwf]. now apply (del_contact_empty w n c). }
  destruct (del_contact_explicit w n c Hinv Hc Hnz) as [Hinv1 Hdel].
  cbv zeta in Hdel. eexists _, _. split; [exact Hdel|].
  cbn [_cnf cl].
  pose proof Hinv1 as (_ & _ & Hused1). cbn in Hused1.
  destruct ((used_contacts (cl (_cnf w)) - 1
               =? cl_size (cl (_cnf w)) - INIT_CONTACTS)
            && negb (used_contacts (cl (_cnf w)) - 1 =? 0)) eqn:E.
  - apply andb_prop in E as [E1 E2].
    apply Z.eqb_eq in E1. apply negb_true_iff, Z.eqb_neq in E2.
    split; [apply compacted_inv; [exact Hinv1 | cbn; lia | cbn; lia]|].
    split; [apply store_clean_compacted|]. cbn [compacted cl_size used_contacts].
    split; [|lia].
    apply Z.divide_sub_r; [exact Hdiv | apply Z.divide_refl].
  - split; [exact Hinv1|]. split; [|split].
    + unfold store_clean in *. cbn [contact].
      apply Forall_insert; [exact Hclean | reflexivity].
    + exact Hdiv.
    + cbn [cl_size used_contacts].
      apply andb_false_iff in E as [E|E].
      * apply Z.eqb_neq in E. lia.
      * apply negb_false_iff, Z.eqb_eq in E. lia.
Qed.

Lemma empty_world_wf (self : contact_t) :
  store_wf (cl (_cnf (empty_world self INIT_CONTACTS))).
Proof.
  split; [now apply empty_world_inv|]. split; [|split].
  - unfold store_clean. cbn. apply Forall_forall. intros c Hc _.
    now apply elem_of_replicate in Hc as [-> _].
  - apply Z.divide_refl.
  - now left.
Qed.

(** X14: whatever sequence of [add]s (of non-zero descriptors) and
    [remove]s (of any index) runs on the empty store of capacity [K], the
    increment, no call faults, and afterwards the counter of used slots
    counts the occupied slots, every free slot is zeroed, the capacity is a
    multiple of [K] not below [K], and it is [K] or exceeds the number of
    contacts by less than [K]. *)
Theorem run_ops_store_wf (self : contact_t) (ops : list store_op) :
  Forall op_ok ops ->
  exists w',
    run_ops ops (empty_world self INIT_CONTACTS) = Ret w' /\
    store_wf (cl (_cnf w')) /\
    INIT_CONTACTS <= cl_size (cl (_cnf w')) /\
    0 <= used_contacts (cl (_cnf w')) <= cl_size (cl (_cnf w')).
Proof.
  intros Hops.
  assert (Hrun : forall w, store_wf (cl (_cnf w)) ->
            exists w', run_ops ops w = Ret w' /\ store_wf (cl (_cnf w'))).
  { induction Hops as [|o ops Ho _ IH]; intros w Hwf.
    - exists w. split; [reflexivity | exact Hwf].
    - destruct o as [fd'|n]; cbn [run_ops].
      + destruct (store_wf_add w fd' Hwf Ho) as (i & w1 & Ha & Hwf1).
        rewrite Ha. cbn. exact (IH w1 Hwf1).
      + destruct (store_wf_del w n Hwf) as (r & w1 & Hd & Hwf1).
        rewrite Hd. cbn. exact (IH w1 Hwf1). }
  destruct (Hrun _ (empty_world_wf self)) as (w' & Hr & Hwf).
  exists w'. split; [exact Hr|]. split; [exact Hwf|].
  destruct Hwf as ((Hlen & H1 & Hused) & _ & Hdiv & _).
  pose proof (length_filter occupied (contact (cl (_cnf w')))) as Hle.
  split; [apply Z.divide_pos_le; [lia | exact Hdiv] | lia].
Qed.

Lemma conf_eta (cnf : dchat_conf_t) :
  mk_conf (me cnf)
    (mk_contactlist (contact (cl cnf)) (cl_size (cl cnf))
                    (used_contacts (cl cnf))) = cnf.
Proof. now destruct cnf as [m [c s u]]. Qed.

(** X15: on a store kept by [add] and [remove], adding a connection and
    removing it again with the index that [add] returned restores the
    configuration exactly, the contents and the order of the slots, the
    capacity and the counter, also when [add] had to grow the store; the
    descriptor has been closed. *)
Theorem add_del_roundtrip (w : world) (fd' : Z) :
  store_wf (cl (_cnf w)) -> fd' <> 0 ->
  exists i w1 w2,
    add_contact w fd' = Ret (i, w1) /\
    del_contact w1 i = Ret (0, w2) /\
    _cnf w2 = _cnf w /\ closed w2 = fd' :: closed w.
Proof.
  intros (Hinv & Hclean & Hdiv & Hslack) Hfd.
  destruct (add_contact_spec HK w fd' Hinv Hfd)
    as (i & w1 & Ha & Hinv1 & _).
  exists i, w1.
  pose proof Hinv as (Hlen & H1 & Hused).
  pose proof (length_filter occupied (contact (cl (_cnf w)))) as Hle.
  destruct (Z.eqb_spec (used_contacts (cl (_cnf w))) (cl_size (cl (_cnf w))))
    as [Hfull|Hfree].
  - destruct (add_contact_full w fd' HK Hinv Hfull) as [Hall Ha2].
    rewrite Ha in Ha2. injection Ha2 as -> ->.
    assert (Hs : slot (_cnf (set_cl w
                   (mk_contactlist
                      (contact (cl (_cnf w)) ++ set_fd zero_contact fd'
                         :: replicate (Z.to_nat INIT_CONTACTS - 1) zero_contact)
                      (cl_size (cl (_cnf w)) + INIT_CONTACTS)
                      (used_contacts (cl (_cnf w)) + 1))))
                (cl_size (cl (_cnf w))) (set_fd zero_contact fd')).
    { apply array_get_Ret. split; [lia|]. cbn [set_cl _cnf cl contact].
      rewrite Hlen, Nat2Z.id. now apply list_lookup_middle. }
    destruct (del_contact_explicit _ _ _ Hinv1 Hs Hfd) as [_ Hdel].
    cbv zeta in Hdel. cbn [set_cl _cnf cl contact cl_size used_contacts me closed]
      in Hdel.
    eexists. split; [exact Ha|]. split; [exact Hdel|]. split; [|reflexivity].
    cbn [_cnf].
    replace ((used_contacts (cl (_cnf w)) + 1 - 1
                =? cl_size (cl (_cnf w)) + INIT_CONTACTS - INIT_CONTACTS)
             && negb (used_contacts (cl (_cnf w)) + 1 - 1 =? 0)) with true.
    2:{ symmetry. apply andb_true_intro. split;
          [apply Z.eqb_eq; lia | apply negb_true_iff, Z.eqb_neq; lia]. }
    assert (Hfilt : filter occupied
              (<[Z.to_nat (cl_size (cl (_cnf w))) := zero_contact]>
                 (contact (cl (_cnf w)) ++ set_fd zero_contact fd'
                    :: replicate (Z.to_nat INIT_CONTACTS - 1) zero_contact))
            = contact (cl (_cnf w))).
    { rewrite Hlen, Nat2Z.id, insert_app_r_alt, Nat.sub_diag by lia.
      change (<[0%nat := zero_contact]>
                (set_fd zero_contact fd'
                   :: replicate (Z.to_nat INIT_CONTACTS - 1) zero_contact))
        with (replicate (S (Z.to_nat INIT_CONTACTS - 1)) zero_contact).
      now rewrite filter_app, (filter_occupied_Forall _ Hall),
        filter_replicate_zero, app_nil_r. }
    unfold compacted. cbn [contact used_contacts]. rewrite Hfilt.
    replace (Z.to_nat (cl_size (cl (_cnf w)) + INIT_CONTACTS - INIT_CONTACTS)
               - length (contact (cl (_cnf w))))%nat with 0%nat by lia.
    cbn [replicate]. rewrite app_nil_r.
    replace (cl_size (cl (_cnf w)) + INIT_CONTACTS - INIT_CONTACTS)
      with (cl_size (cl (_cnf w))) by lia.
    replace (used_contacts (cl (_cnf w)) + 1 - 1)
      with (used_contacts (cl (_cnf w))) by lia.
    apply conf_eta.
  - destruct (add_contact_free w fd' Hinv) as (pre & c & rest & Hl & _ & Hc & Ha2);
      [lia|].
    rewrite Ha in Ha2. injection Ha2 as -> ->.
    assert (Hzero : c = zero_contact).
    { unfold store_clean in Hclean. rewrite Hl in Hclean.
      apply Forall_app in Hclean as [_ Hrest].
      apply Forall_cons in Hrest as [Hz _]. exact (Hz Hc). }
    subst c.
    assert (Hs : slot (_cnf (set_cl w
                   (mk_contactlist (pre ++ set_fd zero_contact fd' :: rest)
                      (cl_size (cl (_cnf w)))
                      (used_contacts (cl (_cnf w)) + 1))))
                (Z.of_nat (length pre)) (set_fd zero_contact fd')).
    { apply array_get_Ret. split; [lia|]. cbn [set_cl _cnf cl contact].
      rewrite Nat2Z.id. now apply list_lookup_middle. }
    destruct (del_contact_explicit _ _ _ Hinv1 Hs Hfd) as [_ Hdel].
    cbv zeta in Hdel. cbn [set_cl _cnf cl contact cl_size used_contacts me closed]
      in Hdel.
    eexists. split; [exact Ha|]. split; [exact Hdel|]. split; [|reflexivity].
    cbn [_cnf].
    replace ((used_contacts (cl (_cnf w)) + 1 - 1
                =? cl_size (cl (_cnf w)) - INIT_CONTACTS)
             && negb (used_contacts (cl (_cnf w)) + 1 - 1 =? 0)) with false.
    2:{ symmetry. apply andb_false_iff.
        destruct (Z.eq_dec (used_contacts (cl (_cnf w))) 0) as [E|E].
        - right. apply negb_false_iff, Z.eqb_eq. lia.
        - left. apply Z.eqb_neq. lia. }
    rewrite Nat2Z.id, insert_app_r_alt, Nat.sub_diag by lia.
    change (<[0%nat := zero_contact]> (set_fd zero_contact fd' :: rest))
      with (zero_contact :: rest).
    rewrite <- Hl.
    replace (used_contacts (cl (_cnf w)) + 1 - 1)
      with (used_contacts (cl (_cnf w))) by lia.
    apply conf_eta.
Qed.

End StoreInvariant.

Lemma demo_increment : 1 <= @INIT_CONTACTS demo_platform.
Proof. cbn. lia. Qed.

Lemma store_inv_two_of_two : store_inv (cl (_cnf two_of_two)).
Proof. repeat split; cbn; lia. Qed.

Lemma occupied_fd3 : occupied (set_fd zero_contact 3).
Proof. unfold occupied. cbn. lia. Qed.

Lemma realloc_contactlist_twice_witness :
  store_inv (cl (_cnf three_of_four)) /\
  1 <= 5 /\ used_contacts (cl (_cnf three_of_four)) <= 5 /\
  1 <= 3 /\ used_contacts (cl (_cnf three_of_four)) <= 3 /\
  exists w1,
    realloc_contactlist three_of_four 5 = Ret (0, w1) /\
    realloc_contactlist w1 3 = realloc_contactlist three_of_four 3.
Proof.
  assert (H5 : used_contacts (cl (_cnf three_of_four)) <= 5) by (cbn; lia).
  assert (H3 : used_contacts (cl (_cnf three_of_four)) <= 3) by (cbn; lia).
  assert (Ha : 1 <= 5) by lia. assert (Hb : 1 <= 3) by lia.
  split; [exact store_inv_three_of_four|]. split; [exact Ha|].
  split; [exact H5|]. split; [exact Hb|]. split; [exact H3|].
  exact (realloc_contactlist_twice three_of_four 5 3 store_inv_three_of_four
           Ha H5 Hb H3).
Defined.

Lemma add_contact_first_free_witness :
  store_inv (cl (_cnf three_of_four)) /\
  used_contacts (cl (_cnf three_of_four)) < cl_size (cl (_cnf three_of_four)) /\
  exists i c w',
    @add_contact demo_platform three_of_four 9 = Ret (i, w') /\
    slot (_cnf three_of_four) i c /\ fd c = 0 /\
    (forall j cj, 0 <= j < i -> slot (_cnf three_of_four) j cj -> occupied cj) /\
    contact (cl (_cnf w')) =
      <[Z.to_nat i := set_fd c 9]> (contact (cl (_cnf three_of_four))) /\
    cl_size (cl (_cnf w')) = cl_size (cl (_cnf three_of_four)) /\
    used_contacts (cl (_cnf w')) = used_contacts (cl (_cnf three_of_four)) + 1 /\
    me (_cnf w') = me (_cnf three_of_four) /\ closed w' = closed three_of_four.
Proof.
  assert (H : used_contacts (cl (_cnf three_of_four))
              < cl_size (cl (_cnf three_of_four))) by (cbn; lia).
  split; [exact store_inv_three_of_four|]. split; [exact H|].
  exact (@add_contact_first_free demo_platform three_of_four 9
           store_inv_three_of_four H).
Defined.

Lemma add_contact_when_full_witness :
  1 <= @INIT_CONTACTS demo_platform /\
  store_inv (cl (_cnf two_of_two)) /\
  used_contacts (cl (_cnf two_of_two)) = cl_size (cl (_cnf two_of_two)) /\
  exists w',
    @add_contact demo_platform two_of_two 9
      = Ret (cl_size (cl (_cnf two_of_two)), w') /\
    contact (cl (_cnf w')) =
      contact (cl (_cnf two_of_two)) ++ set_fd zero_contact 9
        :: replicate (Z.to_nat (@INIT_CONTACTS demo_platform) - 1) zero_contact /\
    cl_size (cl (_cnf w'))
      = cl_size (cl (_cnf two_of_two)) + @INIT_CONTACTS demo_platform /\
    used_contacts (cl (_cnf w')) = used_contacts (cl (_cnf two_of_two)) + 1.
Proof.
  split; [exact demo_increment|]. split; [exact store_inv_two_of_two|].
  split; [reflexivity|].
  exact (@add_contact_when_full demo_platform two_of_two 9 demo_increment
           store_inv_two_of_two eq_refl).
Defined.

Lemma del_contact_keeps_others_witness :
  store_inv (cl (_cnf three_of_four)) /\
  slot (_cnf three_of_four) 0 (set_fd zero_contact 3) /\
  occupied (set_fd zero_contact 3) /\
  exists w',
    @del_contact demo_platform three_of_four 0 = Ret (0, w') /\
    filter occupied (contact (cl (_cnf w'))) =
      filter occupied (take (Z.to_nat 0) (contact (cl (_cnf three_of_four))))
        ++ filter occupied
             (drop (S (Z.to_nat 0)) (contact (cl (_cnf three_of_four)))) /\
    closed w' = fd (set_fd zero_contact 3) :: closed three_of_four.
Proof.
  split; [exact store_inv_three_of_four|]. split; [reflexivity|].
  split; [exact occupied_fd3|].
  exact (@del_contact_keeps_others demo_platform three_of_four 0
           (set_fd zero_contact 3) store_inv_three_of_four eq_refl occupied_fd3).
Defined.

Lemma ops_ok_demo : Forall op_ok [Add 3; Add 4; Add 5; Del 0; Del 7].
Proof. repeat constructor; cbn; lia. Qed.

Lemma run_ops_store_wf_witness :
  1 <= @INIT_CONTACTS demo_platform /\
  Forall op_ok [Add 3; Add 4; Add 5; Del 0; Del 7] /\
  exists w',
    @run_ops demo_platform [Add 3; Add 4; Add 5; Del 0; Del 7]
      (empty_world alice (@INIT_CONTACTS demo_platform)) = Ret w' /\
    @store_wf demo_platform (cl (_cnf w')) /\
    @INIT_CONTACTS demo_platform <= cl_size (cl (_cnf w')) /\
    0 <= used_contacts (cl (_cnf w')) <= cl_size (cl (_cnf w')).
Proof.
  split; [exact demo_increment|]. split; [exact ops_ok_demo|].
  exact (@run_ops_store_wf demo_platform demo_increment alice _ ops_ok_demo).
Defined.

Lemma add_del_roundtrip_witness :
  1 <= @INIT_CONTACTS demo_platform /\
  @store_wf demo_platform
    (cl (_cnf (empty_world alice (@INIT_CONTACTS demo_platform)))) /\
  9 <> 0 /\
  exists i w1 w2,
    @add_contact demo_platform
      (empty_world alice (@INIT_CONTACTS demo_platform)) 9 = Ret (i, w1) /\
    @del_contact demo_platform w1 i = Ret (0, w2) /\
    _cnf w2 = _cnf (empty_world alice (@INIT_CONTACTS demo_platform)) /\
    closed w2 = 9 :: closed (empty_world alice (@INIT_CONTACTS demo_platform)).
Proof.
  assert (H9 : 9 <> 0) by lia.
  split; [exact demo_increment|].
  split; [exact (@empty_world_wf demo_platform demo_increment alice)|].
  split; [exact H9|].
  exact (@add_del_roundtrip demo_platform demo_increment _ 9
           (@empty_world_wf demo_platform demo_increment alice) H9).
Defined.

(** * Growth and shrinking, slot by slot *)

Lemma first_free_unique (pre pre' rest rest' : list contact_t)
    (c c' : contact_t) :
  pre ++ c :: rest = pre' ++ c' :: rest' ->
  Forall occupied pre -> Forall occupied pre' -> fd c = 0 -> fd c' = 0 ->
  pre = pre' /\ c = c' /\ rest = rest'.
Proof.
  revert pre'. induction pre as [|x pre IH]; intros [|y pre'] E Hp Hp' Hc Hc'.
  - now injection E as -> ->.
  - injection E as -> _. apply Forall_cons in Hp' as [Hy _]. now elim Hy.
  - injection E as -> _. apply Forall_cons in Hp as [Hx _]. now elim Hx.
  - injection E as -> E. apply Forall_cons in Hp as [_ Hp].
    apply Forall_cons in Hp' as [_ Hp'].
    destruct (IH pre' E Hp Hp' Hc Hc') as (-> & -> & ->). auto.
Qed.

Lemma occupied_new (fds : list Z) :
  Forall (fun f => f <> 0) fds ->
  Forall occupied (map (set_fd zero_contact) fds).
Proof.
  intros H. apply Forall_map. eapply Forall_impl; [exact H|].
  intros f Hf. exact Hf.
Qed.

Section HysteresisSlots.
Context {P : Platform}.
Hypothesis HK : 1 <= INIT_CONTACTS.

(** While free slots follow the occupied ones, [add] fills them in turn. *)
Lemma add_contacts_contents (fds : list Z) :
  forall (pre : list contact_t) (m : nat) (w : world),
    store_inv (cl (_cnf w)) ->
    contact (cl (_cnf w)) = pre ++ replicate m zero_contact ->
    Forall occupied pre -> Forall (fun f => f <> 0) fds ->
    (length fds <= m)%nat ->
    exists w',
      add_contacts fds w = Ret w' /\ store_inv (cl (_cnf w')) /\
      contact (cl (_cnf w')) =
        pre ++ map (set_fd zero_contact) fds
            ++ replicate (m - length fds) zero_contact /\
      cl_size (cl (_cnf w')) = cl_size (cl (_cnf w)) /\
      used_contacts (cl (_cnf w')) =
        used_contacts (cl (_cnf w)) + Z.of_nat (length fds).
Proof.
  induction fds as [|f fds IH]; intros pre m w Hinv Hct Hpre Hfds Hm.
  - exists w. cbn. rewrite Nat.sub_0_r.
    split; [reflexivity|]. split; [exact Hinv|]. split; [exact Hct|].
    split; lia.
  - apply Forall_cons in Hfds as [Hf Hfds]. cbn [length] in Hm.
    destruct m as [|m]; [lia|].
    pose proof Hinv as (Hlen & _ & Hused).
    assert (Hroom : used_contacts (cl (_cnf w)) < cl_size (cl (_cnf w))).
    { rewrite Hused, Hlen, Hct, filter_app, filter_occupied_Forall by exact Hpre.
      rewrite filter_replicate_zero, app_nil_r, length_app, length_replicate.
      lia. }
    destruct (add_contact_free w f Hinv Hroom)
      as (pre' & c & rest & Hsplit & Hpre' & Hc & Hadd).
    rewrite Hct in Hsplit. cbn [replicate] in Hsplit.
    destruct (first_free_unique _ _ _ _ _ _ Hsplit Hpre Hpre' eq_refl Hc)
      as (<- & <- & <-).
    destruct (add_contact_spec HK w f Hinv Hf) as (i & w1 & Ha & Hi1 & _).
    rewrite Hadd in Ha. injection Ha as _ Hw1.
    destruct (IH (pre ++ [set_fd zero_contact f]) m w1) as
      (w' & Hr & Hi' & Hc' & Hs' & Hu'); try assumption.
    + rewrite <- Hw1. cbn. now rewrite <- app_assoc.
    + apply Forall_app. split; [exact Hpre|]. constructor; [exact Hf|constructor].
    + lia.
    + exists w'. cbn [add_contacts]. rewrite Hadd. cbn [mbind result_bind].
      rewrite Hw1. split; [exact Hr|]. split; [exact Hi'|].
      rewrite <- Hw1 in Hs', Hu'. cbn in Hs', Hu'.
      split; [|split; [exact Hs'|cbn [length]; lia]].
      rewrite Hc'. cbn [map length]. rewrite <- app_assoc. reflexivity.
Qed.

(** At capacity [K] the removal of occupied slots, each once, zeroes them
    in place. *)
Lemma del_contacts_distinct (ns : list Z) :
  forall w, store_inv (cl (_cnf w)) ->
    cl_size (cl (_cnf w)) = INIT_CONTACTS ->
    NoDup ns ->
    Forall (fun m => exists c, slot (_cnf w) m c /\ occupied c) ns ->
    exists w',
      del_contacts ns w = Ret w' /\
      cl_size (cl (_cnf w')) = INIT_CONTACTS /\
      used_contacts (cl (_cnf w')) =
        used_contacts (cl (_cnf w)) - Z.of_nat (length ns) /\
      contact (cl (_cnf w')) = clear_slots ns (contact (cl (_cnf w))).
Proof.
  induction ns as [|n ns IH]; intros w Hinv Hcap Hnd Hocc.
  - exists w. cbn. repeat split; lia.
  - apply NoDup_cons in Hnd as [Hn Hnd].
    apply Forall_cons in Hocc as [(c & Hslot & Hc) Hocc].
    destruct (del_contact_explicit w n c Hinv Hslot Hc) as [Hi1 Hd].
    rewrite Hcap, Z.sub_diag in Hd.
    replace ((used_contacts (cl (_cnf w)) - 1 =? 0)
             && negb (used_contacts (cl (_cnf w)) - 1 =? 0)) with false in Hd
      by (destruct (used_contacts (cl (_cnf w)) - 1 =? 0); reflexivity).
    cbn [del_contacts]. rewrite Hd. cbn [mbind result_bind].
    match type of Hd with _ = Ret (0, ?x) => set (w1 := x) in * end.
    destruct (IH w1) as (w' & Hr & Hc' & Hu' & Hct'); try assumption.
    + subst w1. cbn. rewrite <- Hcap. exact Hi1.
    + reflexivity.
    + rewrite Forall_forall in Hocc |- *. intros m Hm.
      destruct (Hocc m Hm) as (cm & Hsm & Hcm). exists cm. split; [|exact Hcm].
      unfold slot, array_get in Hsm, Hslot |- *. cbn.
      destruct (m <? 0) eqn:Em; [discriminate|].
      destruct (n <? 0) eqn:En; [discriminate|].
      rewrite list_lookup_insert_ne; [exact Hsm|].
      apply Z.ltb_ge in Em, En. intros E. apply Z2Nat.inj in E; try lia.
      subst m. contradiction.
    + exists w'. split; [exact Hr|]. split; [exact Hc'|].
      split; [|exact Hct']. rewrite Hu'. cbn. cbn [length]. lia.
Qed.

(** C9: from the empty store of capacity [K], the increment, [K + 1] calls
    of [add] store the descriptors in the slots 0, 1, ... in turn; the first
    [K] leave the capacity at [K] and the last raises it to [2K], the only
    growth.  The removal of any one of the [K + 1] contacts (slot [n]) then
    brings the capacity back to [K], the other [K] contacts filling the
    block in their order, the only shrink: removing further contacts (the
    distinct slots [ns]) zeroes them in place and leaves the capacity at
    [K] down to an empty store, and no sequence of removals whatever changes
    the capacity again. *)
Theorem growth_shrink_hysteresis (self : contact_t) (fds : list Z) (n : Z)
    (ns : list Z) :
  Forall (fun f => f <> 0) fds ->
  Z.of_nat (length fds) = INIT_CONTACTS + 1 ->
  0 <= n <= INIT_CONTACTS ->
  NoDup ns -> Forall (fun m => 0 <= m < INIT_CONTACTS) ns ->
  let w0 := empty_world self INIT_CONTACTS in
  (forall j : nat, Z.of_nat j <= INIT_CONTACTS ->
     exists w, add_contacts (take j fds) w0 = Ret w /\
       cl_size (cl (_cnf w)) = INIT_CONTACTS /\
       used_contacts (cl (_cnf w)) = Z.of_nat j /\
       contact (cl (_cnf w)) =
         map (set_fd zero_contact) (take j fds)
           ++ replicate (Z.to_nat INIT_CONTACTS - j) zero_contact) /\
  exists w1 w2 w3,
    add_contacts fds w0 = Ret w1 /\
    cl_size (cl (_cnf w1)) = 2 * INIT_CONTACTS /\
    used_contacts (cl (_cnf w1)) = INIT_CONTACTS + 1 /\
    contact (cl (_cnf w1)) =
      map (set_fd zero_contact) fds
        ++ replicate (Z.to_nat INIT_CONTACTS - 1) zero_contact /\
    del_contact w1 n = Ret (0, w2) /\
    cl_size (cl (_cnf w2)) = INIT_CONTACTS /\
    used_contacts (cl (_cnf w2)) = INIT_CONTACTS /\
    contact (cl (_cnf w2)) =
      map (set_fd zero_contact)
          (take (Z.to_nat n) fds ++ drop (S (Z.to_nat n)) fds) /\
    del_contacts ns w2 = Ret w3 /\
    cl_size (cl (_cnf w3)) = INIT_CONTACTS /\
    used_contacts (cl (_cnf w3)) = INIT_CONTACTS - Z.of_nat (length ns) /\
    contact (cl (_cnf w3)) = clear_slots ns (contact (cl (_cnf w2))) /\
    forall ms, exists w4,
      del_contacts ms w2 = Ret w4 /\
      cl_size (cl (_cnf w4)) = INIT_CONTACTS /\
      0 <= used_contacts (cl (_cnf w4)) <= INIT_CONTACTS.
Proof.
  intros Hfds Hlen Hn Hnd Hns w0.
  set (k := Z.to_nat INIT_CONTACTS).
  pose proof (empty_world_inv self INIT_CONTACTS HK) as Hinv0. fold w0 in Hinv0.
  assert (Hfill : forall j : nat, Z.of_nat j <= INIT_CONTACTS ->
    exists w, add_contacts (take j fds) w0 = Ret w /\ store_inv (cl (_cnf w)) /\
      cl_size (cl (_cnf w)) = INIT_CONTACTS /\
      used_contacts (cl (_cnf w)) = Z.of_nat j /\
      contact (cl (_cnf w)) =
        map (set_fd zero_contact) (take j fds) ++ replicate (k - j) zero_contact).
  { intros j Hj.
    assert (Hlj : length (take j fds) = j) by (rewrite length_take; lia).
    destruct (add_contacts_contents (take j fds) [] k w0 Hinv0)
      as (w & Hr & Hi & Hct & Hc & Hu).
    - reflexivity.
    - constructor.
    - now apply Forall_take.
    - rewrite Hlj. lia.
    - exists w. rewrite Hlj in Hu, Hct. cbn in Hc, Hu, Hct.
      split; [exact Hr|]. split; [exact Hi|]. split; [exact Hc|].
      split; [lia | exact Hct]. }
  split.
  { intros j Hj. destruct (Hfill j Hj) as (w & Hr & _ & Hc & Hu & Hct). eauto. }
  destruct (Hfill k) as (wk & Hrk & Hik & Hck & Huk & Hctk); [lia|].
  rewrite Nat.sub_diag in Hctk. cbn [replicate] in Hctk.
  rewrite app_nil_r in Hctk.
  assert (Hlast : exists f, drop k fds = [f]).
  { pose proof (length_drop fds k) as Hd.
    destruct (drop k fds) as [|f [|g rest]] eqn:E; cbn in Hd; try lia.
    now exists f. }
  destruct Hlast as (f & Hdrop).
  destruct (add_contact_full wk f HK Hik) as [_ Ha]; [lia|].
  match type of Ha with _ = Ret (_, ?x) => set (w1 := x) in * end.
  assert (Hct1 : contact (cl (_cnf w1)) =
            map (set_fd zero_contact) fds ++ replicate (k - 1) zero_contact).
  { subst w1. cbn. rewrite Hctk.
    rewrite <- (take_drop k fds) at 2. rewrite Hdrop, map_app. cbn [map].
    now rewrite <- app_assoc. }
  assert (Hr1 : add_contacts fds w0 = Ret w1).
  { rewrite <- (take_drop k fds), add_contacts_app, Hrk, Hdrop.
    cbn. rewrite Ha. reflexivity. }
  assert (Hfn : exists fn, fds !! Z.to_nat n = Some fn /\ fn <> 0).
  { destruct (lookup_lt_is_Some_2 fds (Z.to_nat n)) as [fn Hfn]; [lia|].
    exists fn. split; [exact Hfn|].
    rewrite Forall_lookup in Hfds. exact (Hfds _ _ Hfn). }
  destruct Hfn as (fn & Hfn & Hfn0).
  assert (Hi1 : store_inv (cl (_cnf w1))).
  { destruct (add_contact_spec HK wk f Hik) as (i & w1' & Ha' & Hi1 & _).
    - assert (Hin : Forall (fun f => f <> 0) (drop k fds)) by now apply Forall_drop.
      rewrite Hdrop in Hin. now apply Forall_cons in Hin as [Hf _].
    - rewrite Ha in Ha'. injection Ha' as _ <-. exact Hi1. }
  assert (Hslot : slot (_cnf w1) n (set_fd zero_contact fn)).
  { unfold slot, array_get. replace (n <? 0) with false
      by (symmetry; apply Z.ltb_ge; lia).
    rewrite Hct1, lookup_app_l by (rewrite length_map; lia).
    now rewrite list_lookup_fmap, Hfn. }
  destruct (del_contact_explicit w1 n _ Hi1 Hslot Hfn0) as [Hi2 Hd].
  assert (Hu1 : used_contacts (cl (_cnf w1)) = INIT_CONTACTS + 1)
    by (subst w1; cbn; lia).
  assert (Hc1 : cl_size (cl (_cnf w1)) = 2 * INIT_CONTACTS)
    by (subst w1; cbn; lia).
  rewrite Hu1, Hc1 in Hd.
  replace ((INIT_CONTACTS + 1 - 1 =? 2 * INIT_CONTACTS - INIT_CONTACTS)
           && negb (INIT_CONTACTS + 1 - 1 =? 0)) with true in Hd.
  2:{ symmetry. apply andb_true_intro. split.
      - apply Z.eqb_eq. lia.
      - apply negb_true_iff, Z.eqb_neq. lia. }
  match type of Hd with _ = Ret (0, ?x) => set (w2 := x) in * end.
  assert (Hct2 : contact (cl (_cnf w2)) =
            map (set_fd zero_contact)
                (take (Z.to_nat n) fds ++ drop (S (Z.to_nat n)) fds)).
  { subst w2. cbn [_cnf cl contact compacted]. rewrite Hct1.
    rewrite insert_app_l by (rewrite length_map; lia).
    rewrite (insert_take_drop (map (set_fd zero_contact) fds))
      by (rewrite length_map; lia).
    rewrite <- !fmap_take, <- !fmap_drop.
    rewrite !filter_app, filter_cons_False by (unfold occupied; cbn; lia).
    rewrite filter_replicate_zero, app_nil_r.
    rewrite !filter_occupied_Forall
      by (apply occupied_new; auto using Forall_take, Forall_drop).
    rewrite <- map_app.
    replace (Z.to_nat (2 * INIT_CONTACTS - INIT_CONTACTS)
             - length (map (set_fd zero_contact)
                 (take (Z.to_nat n) fds ++ drop (S (Z.to_nat n)) fds)))%nat
      with 0%nat.
    - cbn [replicate]. now rewrite app_nil_r.
    - rewrite length_map, length_app, length_take, length_drop. lia. }
  assert (Hc2 : cl_size (cl (_cnf w2)) = INIT_CONTACTS) by (subst w2; cbn; lia).
  assert (Hu2 : used_contacts (cl (_cnf w2)) = INIT_CONTACTS)
    by (subst w2; cbn; lia).
  assert (Hinv2 : store_inv (cl (_cnf w2))).
  { destruct (del_contact_spec w1 n _ Hi1 Hslot Hfn0) as (w2' & Hd' & Hi2' & _).
    rewrite Hd in Hd'. injection Hd' as <-. exact Hi2'. }
  destruct (del_contacts_distinct ns w2 Hinv2 Hc2 Hnd)
    as (w3 & Hr3 & Hc3 & Hu3 & Hct3).
  { rewrite Forall_forall in Hns |- *. intros m Hm. specialize (Hns m Hm).
    destruct (lookup_lt_is_Some_2 (contact (cl (_cnf w2))) (Z.to_nat m))
      as [cm Hcm].
    { rewrite Hct2, length_map, length_app, length_take, length_drop. lia. }
    exists cm. split.
    - unfold slot, array_get. replace (m <? 0) with false
        by (symmetry; apply Z.ltb_ge; lia).
      now rewrite Hcm.
    - assert (Hall : Forall occupied (contact (cl (_cnf w2)))).
      { rewrite Hct2. apply occupied_new. apply Forall_app.
        auto using Forall_take, Forall_drop. }
      rewrite Forall_lookup in Hall. exact (Hall _ _ Hcm). }
  exists w1, w2, w3.
  split; [exact Hr1|]. split; [exact Hc1|]. split; [exact Hu1|].
  split; [exact Hct1|]. split; [exact Hd|]. split; [exact Hc2|].
  split; [exact Hu2|]. split; [exact Hct2|]. split; [exact Hr3|].
  split; [exact Hc3|]. split; [lia|]. split; [exact Hct3|].
  intros ms.
  destruct (del_contacts_keep ms w2 Hinv2 Hc2) as (w4 & Hr4 & Hc4 & Hu4).
  exists w4. split; [exact Hr4|]. split; [exact Hc4 | lia].
Qed.

End HysteresisSlots.

Lemma growth_shrink_hysteresis_witness :
  1 <= @INIT_CONTACTS demo_platform /\
  Forall (fun f => f <> 0) [3; 4; 5] /\
  Z.of_nat (length [3; 4; 5]) = @INIT_CONTACTS demo_platform + 1 /\
  0 <= 1 <= @INIT_CONTACTS demo_platform /\
  NoDup [1; 0] /\
  Forall (fun m => 0 <= m < @INIT_CONTACTS demo_platform) [1; 0] /\
  let K := @INIT_CONTACTS demo_platform in
  let w0 := empty_world alice K in
  (forall j : nat, Z.of_nat j <= K ->
     exists w, @add_contacts demo_platform (take j [3; 4; 5]) w0 = Ret w /\
       cl_size (cl (_cnf w)) = K /\
       used_contacts (cl (_cnf w)) = Z.of_nat j /\
       contact (cl (_cnf w)) =
         map (set_fd zero_contact) (take j [3; 4; 5])
           ++ replicate (Z.to_nat K - j) zero_contact) /\
  exists w1 w2 w3,
    @add_contacts demo_platform [3; 4; 5] w0 = Ret w1 /\
    cl_size (cl (_cnf w1)) = 2 * K /\
    used_contacts (cl (_cnf w1)) = K + 1 /\
    contact (cl (_cnf w1)) =
      map (set_fd zero_contact) [3; 4; 5]
        ++ replicate (Z.to_nat K - 1) zero_contact /\
    @del_contact demo_platform w1 1 = Ret (0, w2) /\
    cl_size (cl (_cnf w2)) = K /\
    used_contacts (cl (_cnf w2)) = K /\
    contact (cl (_cnf w2)) =
      map (set_fd zero_contact)
          (take (Z.to_nat 1) [3; 4; 5] ++ drop (S (Z.to_nat 1)) [3; 4; 5]) /\
    @del_contacts demo_platform [1; 0] w2 = Ret w3 /\
    cl_size (cl (_cnf w3)) = K /\
    used_contacts (cl (_cnf w3)) = K - Z.of_nat (length [1; 0]) /\
    contact (cl (_cnf w3)) = clear_slots [1; 0] (contact (cl (_cnf w2))) /\
    forall ms, exists w4,
      @del_contacts demo_platform ms w2 = Ret w4 /\
      cl_size (cl (_cnf w4)) = K /\
      0 <= used_contacts (cl (_cnf w4)) <= K.
Proof.
  assert (H1 : 1 <= @INIT_CONTACTS demo_platform) by (cbn; lia).
  assert (H2 : Forall (fun f => f <> 0) [3; 4; 5])
    by (repeat constructor; lia).
  assert (H3 : Z.of_nat (length [3; 4; 5]) = @INIT_CONTACTS demo_platform + 1)
    by reflexivity.
  assert (H4 : 0 <= 1 <= @INIT_CONTACTS demo_platform) by (cbn; lia).
  assert (H5 : NoDup [1; 0]).
  { apply NoDup_cons. split; [|apply NoDup_singleton].
    intros H. inversion H as [|? ? ? H']. inversion H'. }
  assert (H6 : Forall (fun m => 0 <= m < @INIT_CONTACTS demo_platform) [1; 0])
    by (repeat constructor; cbn; lia).
  split; [exact H1|]. split; [exact H2|]. split; [exact H3|].
  split; [exact H4|]. split; [exact H5|]. split; [exact H6|].
  exact (@growth_shrink_hysteresis demo_platform H1 alice [3; 4; 5] 1 [1; 0]
           H2 H3 H4 H5 H6).
Defined.

(** * Discovery protocol *)

Section SendContacts.
Context {P : Platform}.
Variable header : Type.
Variable init_dchat_pdu : string -> Z -> string -> header.
Variable write_pdu : Z -> header -> dchat_pdu_t -> world -> Z * world.

Lemma send_loop_spec (n : Z) (rest : list contact_t) :
  forall pre content len,
    send_loop (length rest) (Z.of_nat (length pre)) n (pre ++ rest) content len
    = Ret (content +:+ discovery_body (Z.of_nat (length pre)) n rest,
           len + Z.of_nat
                   (String.length
                      (discovery_body (Z.of_nat (length pre)) n rest))).
Proof.
  induction rest as [|c rest IH]; intros pre content len.
  - cbn. rewrite append_nil_r. f_equal. f_equal. lia.
  - cbn [length send_loop discovery_body].
    assert (Hnext : forall content' len',
      send_loop (length rest) (Z.of_nat (length pre) + 1) n (pre ++ c :: rest)
                content' len'
      = Ret (content' +:+ discovery_body (Z.of_nat (length pre) + 1) n rest,
             len' + Z.of_nat
                      (String.length
                         (discovery_body (Z.of_nat (length pre) + 1) n rest)))).
    { intros content' len'.
      replace (pre ++ c :: rest) with ((pre ++ [c]) ++ rest)
        by now rewrite <- app_assoc.
      replace (Z.of_nat (length pre) + 1) with (Z.of_nat (length (pre ++ [c])))
        by (rewrite length_app; cbn; lia).
      apply IH. }
    destruct (n =? Z.of_nat (length pre)) eqn:En; cbn [orb].
    { rewrite Hnext. reflexivity. }
    assert (Hget : array_get (pre ++ c :: rest) (Z.of_nat (length pre)) = Ret c).
    { apply array_get_Ret. split; [lia|].
      rewrite Nat2Z.id. now apply list_lookup_middle. }
    rewrite Hget. cbn [mbind result_bind].
    destruct (lport c =? 0); [rewrite Hnext; reflexivity|].
    destruct (contact_to_string c) as [s|]; rewrite Hnext; [|reflexivity].
    rewrite app_assoc_str, length_app_str. f_equal. f_equal. lia.
Qed.

Lemma discovery_body_others (n : Z) (a : list contact_t) :
  5 < MAX_INT_STR ->
  (forall c, c ∈ a -> lport c <> 0 -> valid_contact c) ->
  forall i, discovery_body i n a = wire_lines (others i n a).
Proof.
  intros HM. induction a as [|c a IH]; intros Hv i; [reflexivity|].
  cbn [discovery_body others].
  rewrite IH by (intros c' Hc'; apply Hv; now right).
  destruct ((n =? i) || (lport c =? 0)) eqn:E; [reflexivity|].
  apply orb_false_elim in E as [_ E]. apply Z.eqb_neq in E.
  rewrite (wire_form c HM); [reflexivity|]. apply Hv; [now left | exact E].
Qed.

(** X16: on a well-formed store [send_contacts n] hands to [write_pdu],
    for the descriptor of slot [n], a body that is the wire lines of the
    confirmed contacts of all other slots, in slot order and with nothing in
    between, and a content length that is the length of that body; it returns
    what [write_pdu] returns. *)
Theorem send_contacts_body (w : world) (n : Z) (dest : contact_t) :
  5 < MAX_INT_STR -> store_ok (_cnf w) -> slot (_cnf w) n dest ->
  let body := wire_lines (others 0 n (contact (cl (_cnf w)))) in
  send_contacts header init_dchat_pdu write_pdu w n =
    Ret (write_pdu (fd dest)
           (init_dchat_pdu (onion_id (me (_cnf w))) (lport (me (_cnf w)))
                           (name (me (_cnf w))))
           (mk_pdu body (Z.of_nat (String.length body))) w).
Proof.
  intros HM (Hlen & Hv & _) Hdest body. unfold send_contacts.
  pose proof (send_loop_spec n (contact (cl (_cnf w))) [] "" 0) as Hloop.
  cbn [app length] in Hloop. change (Z.of_nat 0) with 0 in Hloop.
  rewrite Hlen, Nat2Z.id, Hloop. cbn [mbind result_bind].
  unfold slot in Hdest. rewrite Hdest. cbn [mbind result_bind].
  rewrite discovery_body_others; [reflexivity | exact HM |].
  intros c Hc. apply list_elem_of_lookup_1 in Hc as [k Hk]. exact (Hv k c Hk).
Qed.

(** X17: [send_contacts] with an index outside the store reads the
    descriptor of the destination outside the block. *)
Theorem send_contacts_out_of_bounds (w : world) (n : Z) :
  cl_size (cl (_cnf w)) = Z.of_nat (length (contact (cl (_cnf w)))) ->
  n < 0 \/ cl_size (cl (_cnf w)) <= n ->
  send_contacts header init_dchat_pdu write_pdu w n = Fault.
Proof.
  intros Hlen Hn. unfold send_contacts.
  pose proof (send_loop_spec n (contact (cl (_cnf w))) [] "" 0) as Hloop.
  cbn [app length] in Hloop. change (Z.of_nat 0) with 0 in Hloop.
  rewrite Hlen, Nat2Z.id, Hloop. cbn [mbind result_bind].
  unfold array_get. destruct (n <? 0) eqn:E; [reflexivity|].
  apply Z.ltb_ge in E.
  rewrite (lookup_ge_None_2 (contact (cl (_cnf w))) (Z.to_nat n)) by lia.
  reflexivity.
Qed.

End SendContacts.

Section Lines.

Lemma str_drop_app (a b : string) : str_drop (String.length a) (a +:+ b) = b.
Proof. induction a as [|x a IH]; [now destruct b | exact IH]. Qed.

Lemma strn_app (a b : string) : strn (String.length a) (a +:+ b) = a.
Proof.
  induction a as [|x a IH]; [now destruct b|]. cbn. now rewrite IH.
Qed.

Lemma find_term_stop (t : ascii) (l r : string) :
  in_set t l = false ->
  find_term t (l +:+ String t r) = Some (String.length l).
Proof.
  induction l as [|c l IH]; cbn [in_set]; intros H.
  - cbn. now rewrite Ascii.eqb_refl.
  - apply orb_false_elim in H as [Hc Hl].
    cbn. rewrite Ascii.eqb_sym, Hc, (IH Hl). reflexivity.
Qed.

(** The part that [get_content_part] extracts at the start of a line. *)
Lemma get_content_part_line (pdu : dchat_pdu_t) (done l rest : string) :
  in_set LF l = false ->
  content pdu = done +:+ l +:+ String LF rest ->
  content_length pdu = Z.of_nat (String.length (content pdu)) ->
  get_content_part pdu (Z.of_nat (String.length done)) LF =
    (Z.of_nat (String.length done) + Z.of_nat (String.length l), l +:+ nl).
Proof.
  intros Hl Hc Hlen. unfold get_content_part.
  assert (Hsize : String.length (content pdu) =
                  (String.length done + (String.length l
                                           + S (String.length rest)))%nat).
  { rewrite Hc, !length_app_str. reflexivity. }
  replace (Z.of_nat (String.length done) <? 0) with false
    by (symmetry; apply Z.ltb_ge; lia).
  replace (content_length pdu <=? Z.of_nat (String.length done)) with false
    by (symmetry; apply Z.leb_gt; lia).
  cbn [orb]. rewrite Hlen, !Nat2Z.id, strn_all by lia.
  rewrite Hc, str_drop_app, (find_term_stop LF l rest Hl).
  f_equal.
  change (l +:+ String LF rest) with (l +:+ (nl +:+ rest)).
  rewrite <- app_assoc_str.
  replace (S (String.length l)) with (String.length (l +:+ nl))
    by (rewrite length_app_str; cbn; lia).
  apply strn_app.
Qed.

End Lines.

Section ReceiveLines.
Context {P : Platform}.
Hypothesis HM : 5 < MAX_INT_STR.
Hypothesis Hsafe : onion_wire_safe.
Hypothesis Hnl : onion_no_newline.

Lemma wire_line_split (c : contact_t) :
  valid_contact c ->
  exists l, wire_line c = l +:+ nl /\ in_set LF l = false /\
            String.length (wire_line c) = S (String.length l).
Proof.
  intros [Ho Hp]. exists (onion_id c +:+ String SP (decimal (lport c))).
  split; [|split].
  - unfold wire_line. change (String SP (decimal (lport c) +:+ nl))
      with (String SP (decimal (lport c)) +:+ nl).
    now rewrite app_assoc_str.
  - rewrite in_set_app, (Hnl _ Ho). cbn [in_set orb].
    change (Ascii.eqb LF SP) with false. cbn [orb].
    apply digits_only_no_char; [reflexivity | apply decimal_digits; lia].
  - unfold wire_line. rewrite !length_app_str. cbn [String.length].
    rewrite length_app_str. cbn. lia.
Qed.

Lemma string_to_contact_wire_line (ct c : contact_t) :
  valid_contact c -> string_to_contact ct (wire_line c) = (0, decoded ct c).
Proof.
  intros [Ho Hp]. unfold wire_line, decoded.
  now apply string_to_contact_wire.
Qed.

(** On a body of well-formed lines the loop of [receive_contacts] is the
    fold over the contacts of the lines. *)
Lemma receive_loop_lines (pdu : dchat_pdu_t) (cs : list contact_t) :
  content_length pdu = Z.of_nat (String.length (content pdu)) ->
  Forall valid_contact cs ->
  forall done w ct ret nc kc fuel,
    content pdu = done +:+ wire_lines cs ->
    (length cs < fuel)%nat ->
    receive_loop fuel pdu w ct ret nc kc (Z.of_nat (String.length done))
      = Some (receive_fold cs w ct ret nc).
Proof.
  intros Hlen Hcs. induction Hcs as [|c cs Hc _ IH];
    intros done w ct ret nc kc fuel Hcontent Hfuel.
  - destruct fuel as [|fuel]; [lia|]. cbn [receive_loop receive_fold].
    cbn [wire_lines] in Hcontent. rewrite append_nil_r in Hcontent.
    rewrite Hlen, Hcontent, Z.ltb_irrefl. reflexivity.
  - destruct fuel as [|fuel]; [cbn in Hfuel; lia|].
    cbn [length] in Hfuel.
    destruct (wire_line_split c Hc) as (l & Hline & Hl & Hsize).
    cbn [wire_lines] in Hcontent.
    assert (Hcontent' : content pdu = done +:+ l +:+ String LF (wire_lines cs)).
    { rewrite Hcontent, Hline. unfold nl. now rewrite app_assoc_str. }
    cbn [receive_loop receive_fold].
    replace (Z.of_nat (String.length done) <? content_length pdu) with true.
    2:{ symmetry. apply Z.ltb_lt. rewrite Hlen, Hcontent', !length_app_str.
        cbn [String.length]. lia. }
    rewrite (get_content_part_line pdu done l (wire_lines cs) Hl Hcontent' Hlen).
    replace (Z.of_nat (String.length done) + Z.of_nat (String.length l) =? -1)
      with false by (symmetry; apply Z.eqb_neq; lia).
    rewrite <- Hline, (string_to_contact_wire_line ct c Hc).
    change (0 =? -1) with false. cbv iota.
    assert (Hnext : Z.of_nat (String.length done) + Z.of_nat (String.length l) + 1
                    = Z.of_nat (String.length (done +:+ wire_line c))).
    { rewrite length_app_str, Hsize. lia. }
    rewrite Hnext.
    assert (Hcontent2 : content pdu = (done +:+ wire_line c) +:+ wire_lines cs)
      by now rewrite app_assoc_str.
    destruct (find_contact (_cnf w) (decoded ct c) 0) as [found|];
      [|reflexivity].
    cbn [mbind result_bind]. destruct (found =? -2).
    + change (onion_id (decoded ct c)) with (onion_id c).
      change (lport (decoded ct c)) with (lport c).
      destruct (handle_local_conn_request (onion_id c) (lport c) w) as [rc w'].
      apply IH; [exact Hcontent2 | lia].
    + apply IH; [exact Hcontent2 | lia].
Qed.

Lemma find_contact_total (cnf : dchat_conf_t) (ct : contact_t) :
  store_ok cnf -> valid_contact ct ->
  exists r, find_contact cnf ct 0 = Ret r.
Proof.
  intros Hok Hct. destruct (matches ct (me cnf)) eqn:Hme.
  - destruct (Z_lt_le_dec 0 (cl_size (cl cnf))) as [Hpos|Hle].
    + exists (0 - 1). apply (find_contact_self HM cnf ct Hok Hct 0); [lia|exact Hme].
    + exists (-2). unfold find_contact. apply Z.leb_le in Hle.
      now rewrite Hle, orb_true_r.
  - destruct (find_contact_result HM cnf ct 0 Hok Hct Hme) as (r & Hr & _).
    now exists r.
Qed.

Lemma find_contact_known (cnf : dchat_conf_t) (ct : contact_t) :
  store_ok cnf -> 1 <= cl_size (cl cnf) -> valid_contact ct -> known cnf ct ->
  exists r, find_contact cnf ct 0 = Ret r /\ r <> -2.
Proof.
  intros Hok Hsize Hct Hknown. destruct (matches ct (me cnf)) eqn:Hme.
  - exists (0 - 1). split; [|lia].
    apply (find_contact_self HM cnf ct Hok Hct 0); [lia | exact Hme].
  - destruct Hknown as [Hself | (k & c' & Hs & Hm)]; [congruence|].
    destruct (find_contact_result HM cnf ct 0 Hok Hct Hme)
      as (r & Hr & [[-> [Hneg | Hnone]] | (Hb & _)]).
    + lia.
    + pose proof Hs as Hs'. apply array_get_Ret in Hs' as [Hk _].
      rewrite (Hnone k c' Hk Hs) in Hm. discriminate.
    + exists r. split; [exact Hr | lia].
Qed.

Lemma valid_decoded (ct c : contact_t) :
  valid_contact c -> valid_contact (decoded ct c).
Proof. intros H. exact H. Qed.

Lemma receive_fold_total (cs : list contact_t) :
  (forall a p w, store_ok (_cnf w) ->
     store_ok (_cnf (snd (handle_local_conn_request a p w)))) ->
  Forall valid_contact cs ->
  forall w ct ret nc, store_ok (_cnf w) ->
    exists r w', receive_fold cs w ct ret nc = Ret (r, w') /\
      store_ok (_cnf w') /\
      (r = -1 \/ nc <= r <= nc + Z.of_nat (length cs)).
Proof.
  intros Hh Hcs. induction Hcs as [|c cs Hc _ IH]; intros w ct ret nc Hok.
  - exists (if ret =? -1 then -1 else nc), w. split; [reflexivity|].
    split; [exact Hok|]. destruct (ret =? -1); [now left|right; cbn; lia].
  - cbn [receive_fold].
    destruct (find_contact_total (_cnf w) (decoded ct c) Hok
                (valid_decoded ct c Hc)) as [found Hf].
    rewrite Hf. cbn [mbind result_bind]. destruct (found =? -2).
    + pose proof (Hh (onion_id c) (lport c) w Hok) as Hok'.
      destruct (handle_local_conn_request (onion_id c) (lport c) w) as [rc w1].
      cbn [snd] in Hok'.
      destruct (IH w1 (decoded ct c) (if rc =? -1 then -1 else ret) (nc + 1) Hok')
        as (r & w' & Hr & Hok2 & Hrange).
      exists r, w'. split; [exact Hr|]. split; [exact Hok2|].
      cbn [length]. lia.
    + destruct (IH w (decoded ct c) ret nc Hok) as (r & w' & Hr & Hok2 & Hrange).
      exists r, w'. split; [exact Hr|]. split; [exact Hok2|].
      cbn [length]. lia.
Qed.

Lemma receive_fold_known (cs : list contact_t) (w : world) :
  store_ok (_cnf w) -> 1 <= cl_size (cl (_cnf w)) ->
  Forall valid_contact cs -> Forall (known (_cnf w)) cs ->
  forall ct ret nc,
    receive_fold cs w ct ret nc = Ret (if ret =? -1 then -1 else nc, w).
Proof.
  intros Hok Hsize Hcs. induction Hcs as [|c cs Hc _ IH];
    intros Hk ct ret nc; [reflexivity|].
  apply Forall_cons in Hk as [Hkc Hk]. cbn [receive_fold].
  assert (Hkd : known (_cnf w) (decoded ct c)) by exact Hkc.
  destruct (find_contact_known (_cnf w) (decoded ct c) Hok Hsize
              (valid_decoded ct c Hc) Hkd) as (r & Hr & Hne).
  rewrite Hr. cbn [mbind result_bind].
  replace (r =? -2) with false by (symmetry; now apply Z.eqb_neq).
  now apply IH.
Qed.

(** X18: a message whose body is made of well-formed lines (valid address,
    one space, the port in decimal, newline) is processed to its end without
    fault: with more passes allowed than the body has lines,
    [receive_contacts] returns, and the result is [-1] or a count of new
    contacts between 0 and the number of lines.  The store is required to be
    well formed, and the connection request to keep it so. *)
Theorem receive_contacts_well_formed (cs : list contact_t) (w : world)
    (fuel : nat) :
  (forall a p w, store_ok (_cnf w) ->
     store_ok (_cnf (snd (handle_local_conn_request a p w)))) ->
  Forall valid_contact cs -> store_ok (_cnf w) ->
  (length cs < fuel)%nat ->
  exists r w',
    receive_contacts fuel w
      (mk_pdu (wire_lines cs) (Z.of_nat (String.length (wire_lines cs))))
      = Some (Ret (r, w')) /\
    store_ok (_cnf w') /\
    (r = -1 \/ 0 <= r <= Z.of_nat (length cs)).
Proof.
  intros Hh Hcs Hok Hfuel. unfold receive_contacts.
  pose proof (receive_loop_lines
                (mk_pdu (wire_lines cs) (Z.of_nat (String.length (wire_lines cs))))
                cs eq_refl Hcs "" w zero_contact 0 0 0 fuel eq_refl Hfuel)
    as Hloop.
  cbn [String.length] in Hloop. change (Z.of_nat 0) with 0 in Hloop.
  rewrite Hloop.
  destruct (receive_fold_total cs Hh Hcs w zero_contact 0 0 Hok)
    as (r & w' & Hr & Hok' & Hrange).
  exists r, w'. rewrite Hr. split; [reflexivity|]. split; [exact Hok'|]. lia.
Qed.

(** X19: when every contact of a well-formed message is this process or a
    confirmed contact of the store, [receive_contacts] returns 0, requests no
    connection and leaves the world as it was. *)
Theorem receive_contacts_all_known (cs : list contact_t) (w : world)
    (fuel : nat) :
  store_ok (_cnf w) -> 1 <= cl_size (cl (_cnf w)) ->
  Forall valid_contact cs -> Forall (known (_cnf w)) cs ->
  (length cs < fuel)%nat ->
  receive_contacts fuel w
    (mk_pdu (wire_lines cs) (Z.of_nat (String.length (wire_lines cs))))
    = Some (Ret (0, w)).
Proof.
  intros Hok Hsize Hcs Hk Hfuel. unfold receive_contacts.
  pose proof (receive_loop_lines
                (mk_pdu (wire_lines cs) (Z.of_nat (String.length (wire_lines cs))))
                cs eq_refl Hcs "" w zero_contact 0 0 0 fuel eq_refl Hfuel)
    as Hloop.
  cbn [String.length] in Hloop. change (Z.of_nat 0) with 0 in Hloop.
  rewrite Hloop, (receive_fold_known cs w Hok Hsize Hcs Hk). reflexivity.
Qed.

End ReceiveLines.

Section Exchange.
Context {P : Platform}.
Hypothesis HM : 5 < MAX_INT_STR.
Hypothesis Hsafe : onion_wire_safe.
Hypothesis Hnl : onion_no_newline.
Variable header : Type.
Variable init_dchat_pdu : string -> Z -> string -> header.
Variable write_pdu : Z -> header -> dchat_pdu_t -> world -> Z * world.

Lemma others_elem (n : Z) (a : list contact_t) :
  forall i c, c ∈ others i n a -> c ∈ a /\ lport c <> 0.
Proof.
  induction a as [|x a IH]; intros i c Hc; [now apply elem_of_nil in Hc|].
  cbn [others] in Hc. destruct ((n =? i) || (lport x =? 0)) eqn:E.
  - destruct (IH _ _ Hc) as [Hin Hp]. split; [now right | exact Hp].
  - apply elem_of_cons in Hc as [-> | Hc].
    + apply orb_false_elim in E as [_ E]. apply Z.eqb_neq in E.
      split; [now left | exact E].
    + destruct (IH _ _ Hc) as [Hin Hp]. split; [now right | exact Hp].
Qed.

Lemma others_length (n : Z) (a : list contact_t) :
  forall i, (length (others i n a) <= length a)%nat.
Proof.
  induction a as [|x a IH]; intros i; [reflexivity|].
  cbn [others length]. specialize (IH (i + 1)).
  destruct ((n =? i) || (lport x =? 0)); cbn [length]; lia.
Qed.

Lemma others_valid (cnf : dchat_conf_t) (n : Z) :
  store_ok cnf -> Forall valid_contact (others 0 n (contact (cl cnf))).
Proof.
  intros (_ & Hv & _). apply Forall_forall. intros c Hc.
  apply others_elem in Hc as [Hin Hp].
  apply list_elem_of_lookup_1 in Hin as [k Hk]. exact (Hv k c Hk Hp).
Qed.

Lemma others_known (cnf : dchat_conf_t) (n : Z) :
  store_ok cnf -> Forall (known cnf) (others 0 n (contact (cl cnf))).
Proof.
  intros Hok. pose proof Hok as (_ & Hv & _). apply Forall_forall. intros c Hc.
  apply others_elem in Hc as [Hin Hp].
  apply list_elem_of_lookup_1 in Hin as [k Hk].
  right. exists (Z.of_nat k), c. split.
  - apply array_get_Ret. split; [lia|]. now rewrite Nat2Z.id.
  - apply matches_refl. exact (Hv k c Hk Hp).
Qed.

Lemma send_contacts_pdu (w : world) (n : Z) (dest : contact_t) :
  store_ok (_cnf w) -> slot (_cnf w) n dest ->
  send_contacts header init_dchat_pdu write_pdu w n =
    Ret (write_pdu (fd dest)
           (init_dchat_pdu (onion_id (me (_cnf w))) (lport (me (_cnf w)))
                           (name (me (_cnf w))))
           (mk_pdu (wire_lines (others 0 n (contact (cl (_cnf w)))))
              (Z.of_nat
                 (String.length
                    (wire_lines (others 0 n (contact (cl (_cnf w))))))))
           w).
Proof.
  intros (Hlen & Hv & _) Hdest. unfold send_contacts.
  pose proof (send_loop_spec n (contact (cl (_cnf w))) [] "" 0) as Hloop.
  cbn [app length] in Hloop. change (Z.of_nat 0) with 0 in Hloop.
  rewrite Hlen, Nat2Z.id, Hloop. cbn [mbind result_bind].
  unfold slot in Hdest. rewrite Hdest. cbn [mbind result_bind].
  rewrite discovery_body_others; [reflexivity | exact HM |].
  intros c Hc. apply list_elem_of_lookup_1 in Hc as [k Hk]. exact (Hv k c Hk).
Qed.

(** X20: the message that [send_contacts] builds on a well-formed store is
    one that [receive_contacts] processes to its end on any well-formed
    store: with more passes allowed than the sender's store has slots, the
    receiver returns without fault, with [-1] or a count of new contacts not
    above the sender's capacity. *)
Theorem discovery_exchange (wa wb : world) (n : Z) (dest : contact_t)
    (fuel : nat) :
  (forall a p w, store_ok (_cnf w) ->
     store_ok (_cnf (snd (handle_local_conn_request a p w)))) ->
  store_ok (_cnf wa) -> slot (_cnf wa) n dest -> store_ok (_cnf wb) ->
  (length (contact (cl (_cnf wa))) < fuel)%nat ->
  exists pdu,
    send_contacts header init_dchat_pdu write_pdu wa n =
      Ret (write_pdu (fd dest)
             (init_dchat_pdu (onion_id (me (_cnf wa))) (lport (me (_cnf wa)))
                             (name (me (_cnf wa)))) pdu wa) /\
    exists r wb',
      receive_contacts fuel wb pdu = Some (Ret (r, wb')) /\
      store_ok (_cnf wb') /\
      (r = -1 \/ 0 <= r <= cl_size (cl (_cnf wa))).
Proof.
  intros Hh Hoka Hdest Hokb Hfuel.
  set (cs := others 0 n (contact (cl (_cnf wa)))).
  exists (mk_pdu (wire_lines cs) (Z.of_nat (String.length (wire_lines cs)))).
  split; [now apply send_contacts_pdu|].
  pose proof (others_valid (_cnf wa) n Hoka) as Hcs. fold cs in Hcs.
  pose proof (others_length n (contact (cl (_cnf wa))) 0) as Hle. fold cs in Hle.
  unfold receive_contacts.
  pose proof (receive_loop_lines Hsafe Hnl
                (mk_pdu (wire_lines cs) (Z.of_nat (String.length (wire_lines cs))))
                cs eq_refl Hcs "" wb zero_contact 0 0 0 fuel eq_refl) as Hloop.
  cbn [String.length] in Hloop. change (Z.of_nat 0) with 0 in Hloop.
  rewrite Hloop by lia.
  destruct (receive_fold_total HM cs Hh Hcs wb zero_contact 0 0 Hokb)
    as (r & wb' & Hr & Hok' & Hrange).
  exists r, wb'. rewrite Hr. split; [reflexivity|]. split; [exact Hok'|].
  destruct Hoka as (Hlen & _). lia.
Qed.

(** X21: a process that receives the very message it would send (its own
    contacts, whatever slot is left out) learns nothing: [receive_contacts]
    returns 0, requests no connection and leaves the world as it was. *)
Theorem receive_own_contacts (w : world) (n : Z) (fuel : nat) :
  store_ok (_cnf w) -> 1 <= cl_size (cl (_cnf w)) ->
  (length (contact (cl (_cnf w))) < fuel)%nat ->
  let body := wire_lines (others 0 n (contact (cl (_cnf w)))) in
  receive_contacts fuel w (mk_pdu body (Z.of_nat (String.length body)))
    = Some (Ret (0, w)).
Proof.
  intros Hok Hsize Hfuel body.
  set (cs := others 0 n (contact (cl (_cnf w)))). fold cs in body.
  pose proof (others_valid (_cnf w) n Hok) as Hcs. fold cs in Hcs.
  pose proof (others_known (_cnf w) n Hok) as Hk. fold cs in Hk.
  pose proof (others_length n (contact (cl (_cnf w))) 0) as Hle. fold cs in Hle.
  unfold receive_contacts, body.
  pose proof (receive_loop_lines Hsafe Hnl
                (mk_pdu (wire_lines cs) (Z.of_nat (String.length (wire_lines cs))))
                cs eq_refl Hcs "" w zero_contact 0 0 0 fuel eq_refl) as Hloop.
  cbn [String.length] in Hloop. change (Z.of_nat 0) with 0 in Hloop.
  rewrite Hloop by lia.
  now rewrite (receive_fold_known HM cs w Hok Hsize Hcs Hk).
Qed.

End Exchange.

(** The demonstration platform for the discovery protocol. *)
Lemma all_base32_not (c : ascii) (s : string) :
  is_base32 c = false -> all_base32 s = true -> in_set c s = false.
Proof.
  intros Hc. induction s as [|x s IH]; cbn [all_base32 in_set]; [reflexivity|].
  intros H. apply andb_prop in H as [Hx Hs]. rewrite (IH Hs), orb_false_r.
  destruct (Ascii.eqb_spec c x) as [<-|]; [congruence | reflexivity].
Qed.

Lemma demo_no_newline : @onion_no_newline demo_platform.
Proof.
  intros s H. cbn in H. unfold onion_v2 in H.
  apply andb_prop in H as [H Hsuf]. apply andb_prop in H as [_ Hpre].
  apply String.eqb_eq in Hsuf.
  rewrite <- (strn_str_drop 16 s), in_set_app, Hsuf.
  now rewrite (all_base32_not LF _ eq_refl Hpre).
Qed.

Lemma demo_handler_ok (a : string) (p : Z) (w : world) :
  @store_ok demo_platform (_cnf w) ->
  @store_ok demo_platform
    (_cnf (snd (@handle_local_conn_request demo_platform a p w))).
Proof. intros H. exact H. Qed.

Lemma store_ok_bob_conf : @store_ok demo_platform bob_conf.
Proof. apply store2_ok; auto with demo. Qed.

Lemma send_contacts_body_witness :
  5 < @MAX_INT_STR demo_platform /\
  @store_ok demo_platform (_cnf alice_world) /\
  slot (_cnf alice_world) 1 (link bob 4 true) /\
  let body := wire_lines (others 0 1 (contact (cl (_cnf alice_world)))) in
  @send_contacts demo_platform (string * Z) demo_init_pdu demo_write_pdu
    alice_world 1 =
    Ret (demo_write_pdu (fd (link bob 4 true))
           (demo_init_pdu (onion_id (me (_cnf alice_world)))
                          (lport (me (_cnf alice_world)))
                          (name (me (_cnf alice_world))))
           (mk_pdu body (Z.of_nat (String.length body))) alice_world).
Proof.
  split; [exact demo_max_int_str|]. split; [exact store_ok_alice_conf|].
  split; [reflexivity|].
  exact (@send_contacts_body demo_platform (string * Z) demo_init_pdu
           demo_write_pdu alice_world 1 (link bob 4 true) demo_max_int_str
           store_ok_alice_conf eq_refl).
Defined.

Lemma send_contacts_out_of_bounds_witness :
  cl_size (cl (_cnf alice_world))
    = Z.of_nat (length (contact (cl (_cnf alice_world)))) /\
  (2 < 0 \/ cl_size (cl (_cnf alice_world)) <= 2) /\
  @send_contacts demo_platform (string * Z) demo_init_pdu demo_write_pdu
    alice_world 2 = Fault.
Proof.
  assert (H : 2 < 0 \/ cl_size (cl (_cnf alice_world)) <= 2)
    by (right; cbn; lia).
  split; [reflexivity|]. split; [exact H|].
  exact (@send_contacts_out_of_bounds demo_platform (string * Z) demo_init_pdu
           demo_write_pdu alice_world 2 eq_refl H).
Defined.

Lemma valid_pair_alice_bob :
  Forall (@valid_contact demo_platform) [alice; bob].
Proof.
  constructor; [exact valid_alice|]. constructor; [exact valid_bob|].
  constructor.
Qed.

Lemma receive_contacts_well_formed_witness :
  5 < @MAX_INT_STR demo_platform /\
  @onion_wire_safe demo_platform /\ @onion_no_newline demo_platform /\
  (forall a p w, @store_ok demo_platform (_cnf w) ->
     @store_ok demo_platform
       (_cnf (snd (@handle_local_conn_request demo_platform a p w)))) /\
  Forall (@valid_contact demo_platform) [alice; bob] /\
  @store_ok demo_platform (_cnf alice_world) /\
  (length [alice; bob] < 3)%nat /\
  exists r w',
    @receive_contacts demo_platform 3 alice_world
      (mk_pdu (wire_lines [alice; bob])
              (Z.of_nat (String.length (wire_lines [alice; bob]))))
      = Some (Ret (r, w')) /\
    @store_ok demo_platform (_cnf w') /\
    (r = -1 \/ 0 <= r <= Z.of_nat (length [alice; bob])).
Proof.
  assert (Hf : (length [alice; bob] < 3)%nat) by (cbn; lia).
  split; [exact demo_max_int_str|]. split; [exact demo_wire_safe|].
  split; [exact demo_no_newline|]. split; [exact demo_handler_ok|].
  split; [exact valid_pair_alice_bob|]. split; [exact store_ok_alice_conf|].
  split; [exact Hf|].
  exact (@receive_contacts_well_formed demo_platform demo_max_int_str
           demo_wire_safe demo_no_newline [alice; bob] alice_world 3
           demo_handler_ok valid_pair_alice_bob store_ok_alice_conf Hf).
Defined.

Lemma known_pair_alice_bob :
  Forall (known (_cnf alice_world)) [alice; bob].
Proof.
  constructor; [now left|]. constructor; [|constructor].
  right. exists 0, (link bob 3 false). split; reflexivity.
Qed.

Lemma receive_contacts_all_known_witness :
  5 < @MAX_INT_STR demo_platform /\
  @onion_wire_safe demo_platform /\ @onion_no_newline demo_platform /\
  @store_ok demo_platform (_cnf alice_world) /\
  1 <= cl_size (cl (_cnf alice_world)) /\
  Forall (@valid_contact demo_platform) [alice; bob] /\
  Forall (known (_cnf alice_world)) [alice; bob] /\
  (length [alice; bob] < 3)%nat /\
  @receive_contacts demo_platform 3 alice_world
    (mk_pdu (wire_lines [alice; bob])
            (Z.of_nat (String.length (wire_lines [alice; bob]))))
    = Some (Ret (0, alice_world)).
Proof.
  assert (Hf : (length [alice; bob] < 3)%nat) by (cbn; lia).
  assert (Hs : 1 <= cl_size (cl (_cnf alice_world))) by (cbn; lia).
  split; [exact demo_max_int_str|]. split; [exact demo_wire_safe|].
  split; [exact demo_no_newline|]. split; [exact store_ok_alice_conf|].
  split; [exact Hs|]. split; [exact valid_pair_alice_bob|].
  split; [exact known_pair_alice_bob|]. split; [exact Hf|].
  exact (@receive_contacts_all_known demo_platform demo_max_int_str
           demo_wire_safe demo_no_newline [alice; bob] alice_world 3
           store_ok_alice_conf Hs valid_pair_alice_bob known_pair_alice_bob Hf).
Defined.

Lemma discovery_exchange_witness :
  5 < @MAX_INT_STR demo_platform /\
  @onion_wire_safe demo_platform /\ @onion_no_newline demo_platform /\
  (forall a p w, @store_ok demo_platform (_cnf w) ->
     @store_ok demo_platform
       (_cnf (snd (@handle_local_conn_request demo_platform a p w)))) /\
  @store_ok demo_platform (_cnf alice_world) /\
  slot (_cnf alice_world) 1 (link bob 4 true) /\
  @store_ok demo_platform (_cnf bob_world) /\
  (length (contact (cl (_cnf alice_world))) < 3)%nat /\
  exists pdu,
    @send_contacts demo_platform (string * Z) demo_init_pdu demo_write_pdu
      alice_world 1 =
      Ret (demo_write_pdu (fd (link bob 4 true))
             (demo_init_pdu (onion_id (me (_cnf alice_world)))
                            (lport (me (_cnf alice_world)))
                            (name (me (_cnf alice_world)))) pdu alice_world) /\
    exists r wb',
      @receive_contacts demo_platform 3 bob_world pdu = Some (Ret (r, wb')) /\
      @store_ok demo_platform (_cnf wb') /\
      (r = -1 \/ 0 <= r <= cl_size (cl (_cnf alice_world))).
Proof.
  assert (Hf : (length (contact (cl (_cnf alice_world))) < 3)%nat)
    by (cbn; lia).
  split; [exact demo_max_int_str|]. split; [exact demo_wire_safe|].
  split; [exact demo_no_newline|]. split; [exact demo_handler_ok|].
  split; [exact store_ok_alice_conf|]. split; [reflexivity|].
  split; [exact store_ok_bob_conf|]. split; [exact Hf|].
  exact (@discovery_exchange demo_platform demo_max_int_str demo_wire_safe
           demo_no_newline (string * Z) demo_init_pdu demo_write_pdu
           alice_world bob_world 1 (link bob 4 true) 3 demo_handler_ok
           store_ok_alice_conf eq_refl store_ok_bob_conf Hf).
Defined.

Lemma receive_own_contacts_witness :
  5 < @MAX_INT_STR demo_platform /\
  @onion_wire_safe demo_platform /\ @onion_no_newline demo_platform /\
  @store_ok demo_platform (_cnf alice_world) /\
  1 <= cl_size (cl (_cnf alice_world)) /\
  (length (contact (cl (_cnf alice_world))) < 3)%nat /\
  let body := wire_lines (others 0 5 (contact (cl (_cnf alice_world)))) in
  @receive_contacts demo_platform 3 alice_world
    (mk_pdu body (Z.of_nat (String.length body)))
    = Some (Ret (0, alice_world)).
Proof.
  assert (Hf : (length (contact (cl (_cnf alice_world))) < 3)%nat)
    by (cbn; lia).
  assert (Hs : 1 <= cl_size (cl (_cnf alice_world))) by (cbn; lia).
  split; [exact demo_max_int_str|]. split; [exact demo_wire_safe|].
  split; [exact demo_no_newline|]. split; [exact store_ok_alice_conf|].
  split; [exact Hs|]. split; [exact Hf|].
  exact (@receive_own_contacts demo_platform demo_max_int_str demo_wire_safe
           demo_no_newline alice_world 5 3 store_ok_alice_conf Hs Hf).
Defined.

(** * log.c *)

Section LogHex.

Lemma land_15 (i : Z) : Z.land i 15 = i mod 16.
Proof. change 15 with (Z.ones 4). now rewrite Z.land_ones. Qed.

Lemma hex_text_app (a b : list Z) :
  hex_text (a ++ b) = hex_text a +:+ hex_text b.
Proof.
  induction a as [|c a IH]; [reflexivity|].
  cbn [app hex_text]. now rewrite IH, app_assoc_str.
Qed.

Lemma hex_text_length (a : list Z) :
  String.length (hex_text a) = (3 * length a)%nat.
Proof.
  induction a as [|c a IH]; [reflexivity|].
  cbn [hex_text length]. rewrite length_app_str, IH. cbn. lia.
Qed.

Lemma length_concat_rows (full : list (list Z)) :
  Forall (fun r => length r = 16%nat) full ->
  length (concat full) = (16 * length full)%nat.
Proof.
  induction 1 as [|r full Hr _ IH]; [reflexivity|].
  cbn [concat length]. rewrite length_app, Hr, IH. lia.
Qed.

Lemma emit_rows_app (lf : Z) (a b : list (list Z)) (st : log_world) :
  emit_rows lf (a ++ b) st = emit_rows lf b (emit_rows lf a st).
Proof. unfold emit_rows. apply fold_left_app. Qed.

(** The loop, with the bytes read so far cut into full rows and the row in
    progress. *)
Lemma log_hex_loop_spec (lf : Z) (tail : list Z) (st0 : log_world)
    (rest : list Z) :
  forall full cur tbuf,
    Forall (fun r => length r = 16%nat) full -> (length cur < 16)%nat ->
    (cur <> [] -> tbuf = hex_text cur) ->
    exists full' cur' tbuf',
      log_hex_loop (length rest) (Z.of_nat (length (concat full ++ cur))) lf
                   ((concat full ++ cur) ++ rest ++ tail) tbuf
                   (emit_rows lf full st0)
      = Ret (Z.of_nat (length ((concat full ++ cur) ++ rest)), tbuf',
             emit_rows lf full' st0) /\
      concat full' ++ cur' = (concat full ++ cur) ++ rest /\
      Forall (fun r => length r = 16%nat) full' /\ (length cur' < 16)%nat /\
      (cur' <> [] -> tbuf' = hex_text cur').
Proof.
  induction rest as [|c rest IH]; intros full cur tbuf Hfull Hcur Htbuf.
  - exists full, cur, tbuf. rewrite !app_nil_r. cbn [length log_hex_loop].
    repeat split; assumption.
  - cbn [length log_hex_loop].
    set (pre := concat full ++ cur).
    assert (Hget : byte_get (pre ++ (c :: rest) ++ tail)
                            (Z.of_nat (length pre)) = Ret c).
    { unfold byte_get.
      replace (Z.of_nat (length pre) <? 0) with false
        by (symmetry; apply Z.ltb_ge; lia).
      rewrite Nat2Z.id. cbn [app].
      now rewrite (list_lookup_middle pre (rest ++ tail) c (length pre) eq_refl). }
    rewrite Hget. cbn [mbind result_bind]. cbv zeta.
    assert (Hmod : Z.land (Z.of_nat (length pre)) 15 = Z.of_nat (length cur)).
    { rewrite land_15. unfold pre.
      rewrite length_app, (length_concat_rows full Hfull).
      replace (Z.of_nat (16 * length full + length cur))
        with (Z.of_nat (length cur) + Z.of_nat (length full) * 16) by lia.
      rewrite Z.mod_add by lia. apply Z.mod_small. lia. }
    rewrite Hmod.
    assert (Hnew : strn (Z.to_nat (Z.of_nat (length cur) * 3)) tbuf +:+ hex3 c
                   = hex_text (cur ++ [c])).
    { rewrite hex_text_app. cbn [hex_text]. rewrite (append_nil_r (hex3 c)).
      f_equal. destruct cur as [|x cur']; [reflexivity|].
      rewrite Htbuf by discriminate. apply strn_all.
      rewrite hex_text_length. lia. }
    rewrite Hnew.
    assert (Hshift : (pre ++ (c :: rest) ++ tail) = ((pre ++ [c]) ++ rest ++ tail))
      by (now rewrite <- app_assoc).
    assert (Hidx : Z.of_nat (length pre) + 1 = Z.of_nat (length (pre ++ [c])))
      by (rewrite length_app; cbn; lia).
    rewrite Hshift, Hidx.
    destruct (Z.eqb_spec (Z.of_nat (length cur)) 15) as [E|E].
    + assert (Hrow : length (cur ++ [c]) = 16%nat)
        by (rewrite length_app; cbn; lia).
      assert (Hfull' : Forall (fun r => length r = 16%nat) (full ++ [cur ++ [c]])).
      { apply Forall_app. split; [exact Hfull|]. now constructor. }
      assert (Hpre : pre ++ [c] = concat (full ++ [cur ++ [c]]) ++ []).
      { unfold pre. rewrite concat_app. cbn [concat].
        now rewrite !app_nil_r, <- app_assoc. }
      replace (log_msg lf (hex_text (cur ++ [c])) (emit_rows lf full st0))
        with (emit_rows lf (full ++ [cur ++ [c]]) st0)
        by (now rewrite emit_rows_app).
      rewrite Hpre.
      destruct (IH (full ++ [cur ++ [c]]) [] (hex_text (cur ++ [c])) Hfull')
        as (full' & cur' & tbuf' & Hrun & Hcat & Hf' & Hc' & Ht');
        [cbn; lia | congruence |].
      exists full', cur', tbuf'. rewrite Hrun, Hcat.
      split; [|split; [|auto]].
      * do 3 f_equal. rewrite <- Hpre, <- app_assoc. reflexivity.
      * rewrite <- Hpre, <- app_assoc. reflexivity.
    + assert (Hpre : pre ++ [c] = concat full ++ (cur ++ [c]))
        by (unfold pre; now rewrite <- app_assoc).
      rewrite Hpre.
      destruct (IH full (cur ++ [c]) (hex_text (cur ++ [c])) Hfull)
        as (full' & cur' & tbuf' & Hrun & Hcat & Hf' & Hc' & Ht');
        [rewrite length_app; cbn; lia | reflexivity |].
      exists full', cur', tbuf'. rewrite Hrun, Hcat.
      split; [|split; [|auto]].
      * do 3 f_equal. rewrite <- Hpre, <- app_assoc. reflexivity.
      * rewrite <- Hpre, <- app_assoc. reflexivity.
Qed.

(** [log_hex] as one [log_msg] for each row of sixteen bytes and one for
    the bytes left over. *)
Lemma log_hex_emit (lf : Z) (buf : list Z) (len : Z) (st : log_world) :
  0 <= len <= Z.of_nat (length buf) ->
  exists full cur,
    take (Z.to_nat len) buf = concat full ++ cur /\
    Forall (fun r => length r = 16%nat) full /\ (length cur < 16)%nat /\
    log_hex lf buf len st = Ret (emit_rows lf (full ++ last_row cur) st).
Proof.
  intros Hlen.
  destruct (log_hex_loop_spec lf (drop (Z.to_nat len) buf) st
              (take (Z.to_nat len) buf) [] [] "")
    as (full & cur & tbuf & Hrun & Hcat & Hfull & Hcur & Htbuf);
    [constructor | cbn; lia | congruence |].
  cbn [concat app length] in Hrun, Hcat. change (Z.of_nat 0) with 0 in Hrun.
  rewrite take_drop, length_take in Hrun.
  replace (Z.to_nat len `min` length buf)%nat with (Z.to_nat len) in Hrun by lia.
  exists full, cur. split; [now rewrite Hcat|]. split; [exact Hfull|].
  split; [exact Hcur|]. unfold log_hex. change (emit_rows lf [] st) with st in Hrun.
  rewrite Hrun. cbn [mbind result_bind].
  assert (Hmod : Z.land (Z.of_nat (Z.to_nat len)) 15 = Z.of_nat (length cur)).
  { rewrite land_15.
    assert (Hl : length (take (Z.to_nat len) buf) = Z.to_nat len)
      by (rewrite length_take; lia).
    rewrite <- Hl, <- Hcat, length_app, (length_concat_rows full Hfull).
    replace (Z.of_nat (16 * length full + length cur))
      with (Z.of_nat (length cur) + Z.of_nat (length full) * 16) by lia.
    rewrite Z.mod_add by lia. apply Z.mod_small. lia. }
  rewrite Hmod. f_equal. rewrite emit_rows_app.
  destruct cur as [|x cur']; [reflexivity|].
  rewrite Htbuf by discriminate. reflexivity.
Qed.

Lemma emit_rows_cons (lf : Z) (row : list Z) (rows : list (list Z))
    (st : log_world) :
  emit_rows lf (row :: rows) st = emit_rows lf rows (log_msg lf (hex_text row) st).
Proof. reflexivity. Qed.

Lemma emit_rows_stream (lf : Z) (rows : list (list Z)) :
  forall st, log_ st = true -> LOG_PRI lf <= level_ st ->
    emit_rows lf rows st =
      mk_log true (level_ st) (stream st +:+ hex_lines lf rows)
             (syslog_calls st).
Proof.
  induction rows as [|row rows IH]; intros st Hlog Hlev.
  - cbn. rewrite append_nil_r. destruct st. cbn in *. now subst.
  - rewrite emit_rows_cons. cbn [hex_lines].
    assert (Hstep : log_msg lf (hex_text row) st =
              mk_log true (level_ st)
                (stream st +:+ "[" +:+ pad7 (nth (Z.to_nat (LOG_PRI lf)) flty_
                                               EmptyString)
                   +:+ "] " +:+ hex_text row +:+ nl)
                (syslog_calls st)).
    { unfold log_msg, vlog_msgf. rewrite Hlog.
      replace (level_ st <? LOG_PRI lf) with false
        by (symmetry; apply Z.ltb_ge; lia).
      reflexivity. }
    rewrite Hstep, IH by (cbn; auto).
    cbn [level_ stream syslog_calls]. f_equal.
    now rewrite !app_assoc_str.
Qed.

Lemma emit_rows_syslog (lf : Z) (rows : list (list Z)) :
  Forall (fun r => (length r <= 16)%nat) rows ->
  forall st, log_ st = false -> LOG_PRI lf <= level_ st ->
    emit_rows lf rows st =
      mk_log false (level_ st) (stream st)
             (syslog_calls st ++ syslog_rows lf rows).
Proof.
  induction 1 as [|row rows Hrow _ IH]; intros st Hlog Hlev.
  - cbn. rewrite app_nil_r. destruct st. cbn in *. now subst.
  - rewrite emit_rows_cons. cbn [syslog_rows].
    assert (Hstep : log_msg lf (hex_text row) st =
              mk_log false (level_ st) (stream st)
                (syslog_calls st
                   ++ [(Z.lor (LOG_PRI lf) LOG_DAEMON, hex_text row)])).
    { unfold log_msg, vlog_msgf. rewrite Hlog.
      replace (level_ st <? LOG_PRI lf) with false
        by (symmetry; apply Z.ltb_ge; lia).
      rewrite strn_all by (rewrite hex_text_length; lia). reflexivity. }
    rewrite Hstep, IH by (cbn; auto).
    cbn [level_ stream syslog_calls]. now rewrite <- app_assoc.
Qed.

Lemma emit_rows_filtered (lf : Z) (rows : list (list Z)) (st : log_world) :
  level_ st < LOG_PRI lf -> emit_rows lf rows st = st.
Proof.
  intros Hlev. induction rows as [|row rows IH]; [reflexivity|].
  rewrite emit_rows_cons.
  replace (log_msg lf (hex_text row) st) with st; [exact IH|].
  unfold log_msg, vlog_msgf. apply Z.ltb_lt in Hlev. now rewrite Hlev.
Qed.

Lemma rows_bounded (full : list (list Z)) (cur : list Z) :
  Forall (fun r => length r = 16%nat) full -> (length cur < 16)%nat ->
  Forall (fun r => (length r <= 16)%nat) (full ++ last_row cur).
Proof.
  intros Hfull Hcur. apply Forall_app. split.
  - eapply Forall_impl; [exact Hfull|]. cbn. intros r Hr. lia.
  - destruct cur; constructor; [lia | constructor].
Qed.

Lemma LOG_PRI_range (lf : Z) : 0 <= LOG_PRI lf <= 7.
Proof.
  unfold LOG_PRI, LOG_PRIMASK.
  replace (Z.land lf 7) with (lf mod 8)
    by (symmetry; apply (Z.land_ones lf 3); lia).
  pose proof (Z.mod_pos_bound lf 8). lia.
Qed.

(** X22: with the stream set and the priority within the threshold,
    [log_hex] on [len] bytes (at most the size of the buffer) appends to the
    stream one line for every sixteen bytes and one for the bytes left over,
    none for [len = 0]; a line is the priority name right-justified in
    brackets, then each byte as two lower-case hexadecimal digits and a
    space, then a newline.  Nothing goes to [syslog]. *)
Theorem log_hex_stream (lf : Z) (buf : list Z) (len : Z) (st : log_world) :
  log_ st = true -> LOG_PRI lf <= level_ st ->
  0 <= len <= Z.of_nat (length buf) ->
  exists full cur,
    take (Z.to_nat len) buf = concat full ++ cur /\
    Forall (fun r => length r = 16%nat) full /\ (length cur < 16)%nat /\
    log_hex lf buf len st =
      Ret (mk_log true (level_ st)
             (stream st +:+ hex_lines lf (full ++ last_row cur))
             (syslog_calls st)).
Proof.
  intros Hlog Hlev Hlen.
  destruct (log_hex_emit lf buf len st Hlen) as (full & cur & Hcat & Hfull & Hcur & Hrun).
  exists full, cur. split; [exact Hcat|]. split; [exact Hfull|].
  split; [exact Hcur|]. now rewrite Hrun, emit_rows_stream.
Qed.

(** X23: without a stream ([log_] is not set) the rows of [log_hex] go to
    [syslog] instead, one call for each row, with the priority of the message
    combined with [LOG_DAEMON] and the text of the row in full. *)
Theorem log_hex_syslog (lf : Z) (buf : list Z) (len : Z) (st : log_world) :
  log_ st = false -> LOG_PRI lf <= level_ st ->
  0 <= len <= Z.of_nat (length buf) ->
  exists full cur,
    take (Z.to_nat len) buf = concat full ++ cur /\
    Forall (fun r => length r = 16%nat) full /\ (length cur < 16)%nat /\
    log_hex lf buf len st =
      Ret (mk_log false (level_ st) (stream st)
             (syslog_calls st ++ syslog_rows lf (full ++ last_row cur))).
Proof.
  intros Hlog Hlev Hlen.
  destruct (log_hex_emit lf buf len st Hlen) as (full & cur & Hcat & Hfull & Hcur & Hrun).
  exists full, cur. split; [exact Hcat|]. split; [exact Hfull|].
  split; [exact Hcur|].
  rewrite Hrun, emit_rows_syslog; auto using rows_bounded.
Qed.

(** X24: a priority above the threshold [level_] is dropped: [log_hex]
    then reads the bytes and leaves the stream and [syslog] untouched. *)
Theorem log_hex_filtered (lf : Z) (buf : list Z) (len : Z) (st : log_world) :
  level_ st < LOG_PRI lf -> 0 <= len <= Z.of_nat (length buf) ->
  log_hex lf buf len st = Ret st.
Proof.
  intros Hlev Hlen.
  destruct (log_hex_emit lf buf len st Hlen) as (full & cur & _ & _ & _ & Hrun).
  now rewrite Hrun, emit_rows_filtered.
Qed.

(** X25: with the threshold that log.c sets ([level_ = LOG_DEBUG], which
    nothing in the file changes) no priority value is ever dropped: every
    [log_msg] writes its line, and the name printed is one of the eight of
    [flty_]. *)
Theorem log_msg_at_debug (lf : Z) (msg : string) (st : log_world) :
  log_ st = true -> level_ st = LOG_DEBUG ->
  exists label, flty_ !! Z.to_nat (LOG_PRI lf) = Some label /\
    log_msg lf msg st =
      mk_log true LOG_DEBUG
        (stream st +:+ "[" +:+ pad7 label +:+ "] " +:+ msg +:+ nl)
        (syslog_calls st).
Proof.
  intros Hlog Hlev. pose proof (LOG_PRI_range lf) as Hr.
  destruct (lookup_lt_is_Some_2 flty_ (Z.to_nat (LOG_PRI lf))) as [label Hl];
    [cbn; lia|].
  exists label. split; [exact Hl|].
  unfold log_msg, vlog_msgf. rewrite Hlog, Hlev.
  replace (LOG_DEBUG <? LOG_PRI lf) with false
    by (symmetry; apply Z.ltb_ge; unfold LOG_DEBUG; lia).
  now rewrite (nth_lookup_Some _ _ _ _ Hl).
Qed.

End LogHex.

Lemma log_hex_stream_witness :
  log_ log_start = true /\ LOG_PRI 3 <= level_ log_start /\
  0 <= 18 <= Z.of_nat (length (map Z.of_nat (seq 0 20))) /\
  exists full cur,
    take (Z.to_nat 18) (map Z.of_nat (seq 0 20)) = concat full ++ cur /\
    Forall (fun r => length r = 16%nat) full /\ (length cur < 16)%nat /\
    log_hex 3 (map Z.of_nat (seq 0 20)) 18 log_start =
      Ret (mk_log true (level_ log_start)
             (stream log_start +:+ hex_lines 3 (full ++ last_row cur))
             (syslog_calls log_start)).
Proof.
  assert (H2 : LOG_PRI 3 <= level_ log_start) by (vm_compute; discriminate).
  assert (H3 : 0 <= 18 <= Z.of_nat (length (map Z.of_nat (seq 0 20))))
    by (vm_compute; split; discriminate).
  split; [reflexivity|]. split; [exact H2|]. split; [exact H3|].
  exact (log_hex_stream 3 (map Z.of_nat (seq 0 20)) 18 log_start eq_refl H2 H3).
Defined.

Lemma log_hex_syslog_witness :
  log_ (mk_log false 7 "" []) = false /\
  LOG_PRI 3 <= level_ (mk_log false 7 "" []) /\
  0 <= 18 <= Z.of_nat (length (map Z.of_nat (seq 0 20))) /\
  exists full cur,
    take (Z.to_nat 18) (map Z.of_nat (seq 0 20)) = concat full ++ cur /\
    Forall (fun r => length r = 16%nat) full /\ (length cur < 16)%nat /\
    log_hex 3 (map Z.of_nat (seq 0 20)) 18 (mk_log false 7 "" []) =
      Ret (mk_log false (level_ (mk_log false 7 "" []))
             (stream (mk_log false 7 "" []))
             (syslog_calls (mk_log false 7 "" [])
                ++ syslog_rows 3 (full ++ last_row cur))).
Proof.
  assert (H2 : LOG_PRI 3 <= level_ (mk_log false 7 "" [])) by (vm_compute; discriminate).
  assert (H3 : 0 <= 18 <= Z.of_nat (length (map Z.of_nat (seq 0 20))))
    by (vm_compute; split; discriminate).
  split; [reflexivity|]. split; [exact H2|]. split; [exact H3|].
  exact (log_hex_syslog 3 (map Z.of_nat (seq 0 20)) 18 (mk_log false 7 "" [])
           eq_refl H2 H3).
Defined.

Lemma log_hex_filtered_witness :
  level_ (mk_log true 3 "" []) < LOG_PRI 7 /\
  0 <= 18 <= Z.of_nat (length (map Z.of_nat (seq 0 20))) /\
  log_hex 7 (map Z.of_nat (seq 0 20)) 18 (mk_log true 3 "" [])
    = Ret (mk_log true 3 "" []).
Proof.
  assert (H1 : level_ (mk_log true 3 "" []) < LOG_PRI 7) by reflexivity.
  assert (H3 : 0 <= 18 <= Z.of_nat (length (map Z.of_nat (seq 0 20))))
    by (vm_compute; split; discriminate).
  split; [exact H1|]. split; [exact H3|].
  exact (log_hex_filtered 7 (map Z.of_nat (seq 0 20)) 18 (mk_log true 3 "" [])
           H1 H3).
Defined.

Lemma log_msg_at_debug_witness :
  log_ log_start = true /\ level_ log_start = LOG_DEBUG /\
  exists label, flty_ !! Z.to_nat (LOG_PRI 12) = Some label /\
    log_msg 12 "hello" log_start =
      mk_log true LOG_DEBUG
        (stream log_start +:+ "[" +:+ pad7 label +:+ "] " +:+ "hello" +:+ nl)
        (syslog_calls log_start).
Proof.
  split; [reflexivity|]. split; [reflexivity|].
  exact (log_msg_at_debug 12 "hello" log_start eq_refl eq_refl).
Defined.
